(** * Sparse second-order forward automatic differentiation (agd/AutomaticDifferentiation/Sparse2.py)

    A shallow embedding of the [spAD2] class: the six parallel numpy arrays
    ([value], [coef1], [index], [coef2], [index_row], [index_col]), the
    operators that build them, indexed assignment, simplification, dense
    conversion and the stationarity solves.

    Conventions of the embedding.
    - A numpy array of outer shape [()] or [(n,)] is a shape tag and the list
      of its cells; an array with the trailing sparse axis also records its
      width, so that [(0,W)] arrays keep their width.  Arrays of outer rank
      two or more are outside the model.
    - Coefficients are floats in the source.  The operations are written once
      over an abstract scalar type with [+], [*], unary [-] and a zero test;
      they are instantiated with the rationals (exact on the dyadic values
      used in the examples) and with the reals (for the square root).
      Rounding is not modelled.
    - Global indices are stored as integers of [Z].  The index arrays hold
      numpy's default 64-bit integer: the combined keys of [simplify_ad] are
      computed with its wrap-around ([wrap64]); the flattened positions of
      [to_dense] are written in [Z], and what is stated about positions out of
      range assumes that they fit 64 bits ([in_int64]).
    - A raised Python exception is a value [Raise e]; methods that assign to
      [self] run in a state-and-exception monad whose state is [self], so the
      state left behind by a raise can be inspected.
    - Indexed assignment takes the [writeable] flags of the six arrays of its
      target: [np.broadcast_to] views are read-only and an assignment into
      them raises.  Aliasing between views is not modelled. *)

From Stdlib Require Import List ZArith Lia Bool Arith QArith Reals Lra Permutation.
Import ListNotations.

Set Implicit Arguments.
Local Open Scope nat_scope.

(** ** Exceptions and the error monad *)

Inductive exn : Type := ValueError | IndexError | AssertionError | AttributeError.

Inductive res (A : Type) : Type :=
| Ok (a : A)
| Raise (e : exn).
Arguments Ok {A} a.
Arguments Raise {A} e.

Definition rbind {A B} (m : res A) (k : A -> res B) : res B :=
  match m with Ok a => k a | Raise e => Raise e end.

Declare Scope res_scope.
Delimit Scope res_scope with res.
Notation "x <- m ;; k" := (rbind m (fun x => k))
  (at level 100, m at next level, right associativity) : res_scope.
Notation "' p <- m ;; k" := (rbind m (fun p => k))
  (at level 100, p pattern, m at next level, right associativity) : res_scope.
Local Open Scope res_scope.

Definition py_assert (b : bool) : res unit := if b then Ok tt else Raise AssertionError.

(** ** Scalars *)

Class Scalar (K : Type) : Type := {
  s0 : K;
  s1 : K;
  sadd : K -> K -> K;
  smul : K -> K -> K;
  sopp : K -> K;
  sis0 : K -> bool
}.

#[export] Instance Scalar_Q : Scalar Q := {
  s0 := 0%Q; s1 := 1%Q;
  sadd := Qplus; smul := Qmult; sopp := Qopp;
  sis0 := fun q => Qeq_bool q 0%Q
}.

#[export] Instance Scalar_R : Scalar R := {
  s0 := 0%R; s1 := 1%R;
  sadd := Rplus; smul := Rmult; sopp := Ropp;
  sis0 := fun x => if Req_dec_T x 0%R then true else false
}.

(** ** numpy arrays of outer rank at most one *)

Inductive oshape : Type := Sh0 | Sh1 (n : nat).

Definition osize (s : oshape) : nat := match s with Sh0 => 1 | Sh1 n => n end.

Definition oshape_eqb (a b : oshape) : bool :=
  match a, b with
  | Sh0, Sh0 => true
  | Sh1 n, Sh1 m => n =? m
  | _, _ => false
  end.

(** An array of shape [s]. *)
Record varr (T : Type) : Type := Varr { vshape : oshape; vdata : list T }.
(** An array of shape [s + (w,)]: one row of [w] entries per outer cell. *)
Record tarr (T : Type) : Type := Tarr { tshape : oshape; twidth : nat; trows : list (list T) }.

Definition wf_v {T} (a : varr T) : Prop := length (vdata a) = osize (vshape a).
Definition wf_t {T} (a : tarr T) : Prop :=
  length (trows a) = osize (tshape a) /\ Forall (fun r => length r = twidth a) (trows a).

Definition tshape_eqb {T U} (a : tarr T) (b : tarr U) : bool :=
  oshape_eqb (tshape a) (tshape b) && (twidth a =? twidth b).

Fixpoint zipWith {A B C} (f : A -> B -> C) (l : list A) (l' : list B) : list C :=
  match l, l' with
  | a :: t, b :: t' => f a b :: zipWith f t t'
  | _, _ => []
  end.

(** Shape of [a op b] under numpy broadcasting. *)
Definition broadcast_shapes (a b : oshape) : res oshape :=
  match a, b with
  | Sh0, s => Ok s
  | s, Sh0 => Ok s
  | Sh1 n, Sh1 m =>
      if n =? m then Ok (Sh1 n)
      else if n =? 1 then Ok (Sh1 m)
      else if m =? 1 then Ok (Sh1 n)
      else Raise ValueError
  end.

(** [np.broadcast_to]: may an array of outer shape [src] be viewed with shape [dst]. *)
Definition broadcastable (src dst : oshape) : bool :=
  match src, dst with
  | Sh0, _ => true
  | Sh1 n, Sh1 m => (n =? m) || (n =? 1)
  | Sh1 _, Sh0 => false
  end.

(** The cells of an array of outer shape [src] viewed with shape [dst]. *)
Definition stretch {T} (src dst : oshape) (l : list T) : list T :=
  if oshape_eqb src dst then l
  else match l with x :: _ => repeat x (osize dst) | [] => [] end.

(** The same along the trailing axis: a row of width one is repeated. *)
Definition wstretch {T} (w W : nat) (r : list T) : list T :=
  if w =? W then r
  else match r with x :: _ => repeat x W | [] => [] end.

Definition np_broadcast_to {T} (t : tarr T) (s : oshape) (W : nat) : res (tarr T) :=
  if broadcastable (tshape t) s && ((twidth t =? W) || (twidth t =? 1))
  then Ok (Tarr s W (map (wstretch (twidth t) W) (stretch (tshape t) s (trows t))))
  else Raise ValueError.

(** [np.repeat(t, n, axis=-1)]: every entry of a row is repeated [n] times in place. *)
Definition np_repeat {T} (t : tarr T) (n : nat) : tarr T :=
  Tarr (tshape t) (twidth t * n) (map (flat_map (fun x => repeat x n)) (trows t)).

(** [np.tile(t, n)]: every row is laid out [n] times in a row. *)
Definition np_tile {T} (t : tarr T) (n : nat) : tarr T :=
  Tarr (tshape t) (twidth t * n) (map (fun r => concat (repeat r n)) (trows t)).

(** [np.concatenate(ts, axis=-1)]: the outer shapes must agree exactly. *)
Fixpoint np_concatenate {T} (ts : list (tarr T)) : res (tarr T) :=
  match ts with
  | [] => Raise ValueError
  | [t] => Ok t
  | t :: rest =>
      r <- np_concatenate rest ;;
      if oshape_eqb (tshape t) (tshape r)
      then Ok (Tarr (tshape t) (twidth t + twidth r) (zipWith (@app T) (trows t) (trows r)))
      else Raise ValueError
  end.

(** [np.full(shape + (0,), c)]: the array with no trailing entries. *)
Definition np_full0 (T : Type) (s : oshape) : tarr T := Tarr s 0 (repeat [] (osize s)).

(** [np.max(a)] of all the entries of [a]; numpy raises on an array without entries. *)
Definition np_max (t : tarr Z) : res Z :=
  match concat (trows t) with
  | [] => Raise ValueError
  | x :: l => Ok (fold_left Z.max l x)
  end.

(** [np.max(a, initial=i)]. *)
Definition np_max_initial (t : tarr Z) (i : Z) : Z := fold_left Z.max (concat (trows t)) i.

(** An elementwise binary operation on two arrays with a trailing axis. *)
Definition tzip {A B C} (f : A -> B -> C) (a : tarr A) (b : tarr B) : res (tarr C) :=
  s <- broadcast_shapes (tshape a) (tshape b) ;;
  w <- (if twidth a =? twidth b then Ok (twidth a)
        else if twidth a =? 1 then Ok (twidth b)
        else if twidth b =? 1 then Ok (twidth a)
        else Raise ValueError) ;;
  Ok (Tarr s w
        (zipWith (zipWith f)
           (map (wstretch (twidth a) w) (stretch (tshape a) s (trows a)))
           (map (wstretch (twidth b) w) (stretch (tshape b) s (trows b))))).

Definition tmap {A B} (f : A -> B) (a : tarr A) : tarr B :=
  Tarr (tshape a) (twidth a) (map (map f) (trows a)).

Definition vmap {A B} (f : A -> B) (a : varr A) : varr B :=
  Varr (vshape a) (map f (vdata a)).

Definition vzip {A B C} (f : A -> B -> C) (a : varr A) (b : varr B) : res (varr C) :=
  s <- broadcast_shapes (vshape a) (vshape b) ;;
  Ok (Varr s (zipWith f (stretch (vshape a) s (vdata a)) (stretch (vshape b) s (vdata b)))).

(** *** Keys: an integer, a slice [start:stop] with non-negative bounds, or [...] *)

Inductive key : Type := KInt (i : Z) | KSlice (start stop : nat) | KEllipsis.

(** The shape of [a[key]] and the cells it addresses, for [a] of outer shape [s]. *)
Definition key_select (s : oshape) (k : key) : res (oshape * list nat) :=
  match k, s with
  | KEllipsis, _ => Ok (s, seq 0 (osize s))
  | _, Sh0 => Raise IndexError
  | KInt i, Sh1 n =>
      if ((- Z.of_nat n <=? i) && (i <? Z.of_nat n))%Z
      then Ok (Sh0, [Z.to_nat (i mod Z.of_nat n)])
      else Raise IndexError
  | KSlice a b, Sh1 n =>
      let a' := Nat.min a n in
      let b' := Nat.min b n in
      Ok (Sh1 (b' - a'), seq a' (b' - a'))
  end.

Definition pick {T} (l : list T) (ps : list nat) : list T :=
  flat_map (fun p => match nth_error l p with Some x => [x] | None => [] end) ps.

Fixpoint list_set {T} (p : nat) (v : T) (l : list T) : list T :=
  match l, p with
  | [], _ => []
  | _ :: t, O => v :: t
  | x :: t, S p' => x :: list_set p' v t
  end.

(** Writes [vals] at the positions [ps], in order. *)
Fixpoint write {T} (ps : list nat) (vals : list T) (l : list T) : list T :=
  match ps, vals with
  | p :: ps', v :: vals' => write ps' vals' (list_set p v l)
  | _, _ => l
  end.

(** May a right-hand side of outer shape [src] be assigned to a region of shape [dst]. *)
Definition assignable (src dst : oshape) : bool :=
  match src, dst with
  | Sh0, _ => true
  | Sh1 m, Sh1 k => (m =? k) || (m =? 1)
  | Sh1 m, Sh0 => m =? 1
  end.

Definition np_getitem_v {T} (a : varr T) (k : key) : res (varr T) :=
  ' (ks, ps) <- key_select (vshape a) k ;;
  Ok (Varr ks (pick (vdata a) ps)).

(** The key addresses the outer axis; the trailing axis comes along. *)
Definition np_getitem_t {T} (a : tarr T) (k : key) : res (tarr T) :=
  ' (ks, ps) <- key_select (tshape a) k ;;
  Ok (Tarr ks (twidth a) (pick (trows a) ps)).

(** [a[key] = src] for arrays. *)
Definition np_setitem_v {T} (a : varr T) (k : key) (src : varr T) : res (varr T) :=
  ' (ks, ps) <- key_select (vshape a) k ;;
  if assignable (vshape src) ks
  then Ok (Varr (vshape a) (write ps (stretch (vshape src) ks (vdata src)) (vdata a)))
  else Raise ValueError.

Definition np_setitem_t {T} (a : tarr T) (k : key) (src : tarr T) : res (tarr T) :=
  ' (ks, ps) <- key_select (tshape a) k ;;
  if assignable (tshape src) ks && ((twidth src =? twidth a) || (twidth src =? 1))
  then Ok (Tarr (tshape a) (twidth a)
             (write ps (map (wstretch (twidth src) (twidth a))
                          (stretch (tshape src) ks (trows src))) (trows a)))
  else Raise ValueError.

(** [a[key] = c] for a Python scalar [c]. *)
Definition np_fill_v {T} (a : varr T) (k : key) (c : T) : res (varr T) :=
  ' (ks, ps) <- key_select (vshape a) k ;;
  Ok (Varr (vshape a) (write ps (repeat c (length ps)) (vdata a))).

Definition np_fill_t {T} (a : tarr T) (k : key) (c : T) : res (tarr T) :=
  ' (ks, ps) <- key_select (tshape a) k ;;
  Ok (Tarr (tshape a) (twidth a) (write ps (repeat (repeat c (twidth a)) (length ps)) (trows a))).

(** The index arrays hold numpy's default integer, the signed 64-bit integer,
    whose [+] and [*] wrap around silently.  [wrap64 z] is the 64-bit value of
    the integer [z]: [z] itself when [z] fits, as [in_int64 z] says. *)
Definition in_int64 (z : Z) : Prop := (- 2 ^ 63 <= z < 2 ^ 63)%Z.
Definition wrap64 (z : Z) : Z := ((z + 2 ^ 63) mod 2 ^ 64 - 2 ^ 63)%Z.
Definition int64_add (a b : Z) : Z := wrap64 (a + b).
Definition int64_mul (a b : Z) : Z := wrap64 (a * b).

(** Integer [//] and [%] of numpy: a zero divisor gives zero.  With a positive
    divisor the quotient and the remainder of 64-bit operands fit 64 bits. *)
Definition np_floordiv (a b : Z) : Z := if (b =? 0)%Z then 0%Z else (a / b)%Z.
Definition np_mod (a b : Z) : Z := if (b =? 0)%Z then 0%Z else (a mod b)%Z.

(** [np.moveaxis(t, -1, 0)]: the list of the columns of [t]. *)
Definition heads {T} (rows : list (list T)) : list T :=
  flat_map (fun r => match r with x :: _ => [x] | [] => [] end) rows.

Fixpoint columns {T} (w : nat) (rows : list (list T)) : list (list T) :=
  match w with
  | O => []
  | S w' => heads rows :: columns w' (map (@tl T) rows)
  end.

Definition mvax {T} (t : tarr T) : list (list T) := columns (twidth t) (trows t).

(** Position of index [i] along an axis of length [d]; negative indices count from the end. *)
Definition axis_pos (d : nat) (i : Z) : res nat :=
  if ((0 <=? i) && (i <? Z.of_nat d))%Z then Ok (Z.to_nat i)
  else if ((- Z.of_nat d <=? i) && (i <? 0))%Z then Ok (Z.to_nat (i + Z.of_nat d))
  else Raise IndexError.

(** [np.reshape(t, shape + (d, d))] of an array of width [d * d], row-major. *)
Fixpoint chunks {T} (d n : nat) (l : list T) : list (list T) :=
  match n with
  | O => []
  | S n' => firstn d l :: chunks d n' (skipn d l)
  end.

(** [a[mask]] for a boolean mask of the shape of [a]: the selected entries, row-major. *)
Definition mask_select {T} (a : tarr T) (m : tarr bool) : res (list T) :=
  if tshape_eqb a m
  then Ok (concat (zipWith (fun r mr => map fst (filter snd (combine r mr))) (trows a) (trows m)))
  else Raise IndexError.

(** A one-dimensional array. *)
Definition arr1 {T} (l : list T) : tarr T := Tarr Sh0 (length l) [l].

(** The array [a] with every row padded by [zero] up to the width [W]. *)
Definition pad_to {T} (zero : T) (W : nat) (a : tarr T) : tarr T :=
  Tarr (tshape a) W (map (fun r => r ++ repeat zero (W - twidth a)) (trows a)).

(** The array [dst] after [dst[key] = src], for a key that addresses the cells
    [ps] and has the shape [ks]. *)
Definition twrite {T} (ps : list nat) (ks : oshape) (src dst : tarr T) : tarr T :=
  Tarr (tshape dst) (twidth dst)
    (write ps (map (wstretch (twidth src) (twidth dst))
                 (stretch (tshape src) ks (trows src))) (trows dst)).

(** The row of cell [e]. *)
Definition row {T} (t : tarr T) (e : nat) : list T := nth e (trows t) [].

Section Engine.

Context {K : Type} {SK : Scalar K}.

(** ** misc helpers *)

(** [_add_dim(v) * t]: the cell value of [v] scales the whole row of [t]. *)
Definition add_dim_times (v : varr K) (t : tarr K) : res (tarr K) :=
  s <- broadcast_shapes (vshape v) (tshape t) ;;
  Ok (Tarr s (twidth t)
        (zipWith (fun x r => map (smul x) r)
           (stretch (vshape v) s (vdata v)) (stretch (tshape t) s (trows t)))).

(** Elementwise product of two arrays with a trailing axis. *)
Definition tmul (a b : tarr K) : res (tarr K) := tzip smul a b.

(** Modelled from the spec: [misc._concatenate] is not in src/.  Term lists are
    concatenated along the trailing axis; when a shape is given both operands
    are first broadcast to that outer shape. *)
Definition _concatenate {T} (a b : tarr T) (shape : option oshape) : res (tarr T) :=
  match shape with
  | None => np_concatenate [a; b]
  | Some s =>
      a' <- (if oshape_eqb (tshape a) s then Ok a else np_broadcast_to a s (twidth a)) ;;
      b' <- (if oshape_eqb (tshape b) s then Ok b else np_broadcast_to b s (twidth b)) ;;
      np_concatenate [a'; b']
  end.

(** Modelled from the spec: [misc._test_or_broadcast_ad] is not in src/.  The
    term arrays of an AD array of outer shape [s] have shape [s + (W,)]: without
    [broadcast_ad] this is asserted, with it the array is broadcast to [s]. *)
Definition _test_or_broadcast_ad {T} (a : tarr T) (s : oshape) (broadcast_ad : bool)
  : res (tarr T) :=
  if broadcast_ad then
    if oshape_eqb (tshape a) s then Ok a else np_broadcast_to a s (twidth a)
  else
    _ <- py_assert (oshape_eqb (tshape a) s) ;; Ok a.

(** ** The class *)

Record spAD2 : Type := SpAD2 {
  value : varr K;
  coef1 : tarr K;
  index : tarr Z;
  coef2 : tarr K;
  index_row : tarr Z;
  index_col : tarr Z
}.

Definition size_ad1 (x : spAD2) : nat := twidth (coef1 x).
Definition size_ad2 (x : spAD2) : nat := twidth (coef2 x).

(** What the constructor establishes. *)
Record wf (x : spAD2) : Prop := {
  wf_value : wf_v (value x);
  wf_coef1 : wf_t (coef1 x);
  wf_index : wf_t (index x);
  wf_coef2 : wf_t (coef2 x);
  wf_index_row : wf_t (index_row x);
  wf_index_col : wf_t (index_col x);
  wf_shape1 : tshape (coef1 x) = vshape (value x);
  wf_shapei : tshape (index x) = vshape (value x);
  wf_shape2 : tshape (coef2 x) = vshape (value x);
  wf_shaper : tshape (index_row x) = vshape (value x);
  wf_shapec : tshape (index_col x) = vshape (value x);
  wf_width1 : twidth (index x) = twidth (coef1 x);
  wf_widthr : twidth (index_row x) = twidth (coef2 x);
  wf_widthc : twidth (index_col x) = twidth (coef2 x)
}.

(** [spAD2.__new__] on a plain [value]. *)
Definition spAD2_new (value : varr K)
    (coef1 : option (tarr K)) (index : option (tarr Z))
    (coef2 : option (tarr K)) (index_row index_col : option (tarr Z))
    (broadcast_ad : bool) : res spAD2 :=
  let shape := vshape value in
  _ <- match coef1, index with
       | None, None => Ok tt
       | Some c, Some i => py_assert (tshape_eqb c i)
       | _, _ => Raise AttributeError
       end ;;
  c1 <- match coef1 with
        | None => Ok (np_full0 K shape)
        | Some c => _test_or_broadcast_ad c shape broadcast_ad end ;;
  i1 <- match index with
        | None => Ok (np_full0 Z shape)
        | Some i => _test_or_broadcast_ad i shape broadcast_ad end ;;
  _ <- match coef2, index_row, index_col with
       | None, None, None => Ok tt
       | Some c, Some r, Some l => py_assert (tshape_eqb c r && tshape_eqb c l)
       | Some c, Some r, None =>
           if tshape_eqb c r then Raise AttributeError else Raise AssertionError
       | _, _, _ => Raise AttributeError
       end ;;
  c2 <- match coef2 with
        | None => Ok (np_full0 K shape)
        | Some c => _test_or_broadcast_ad c shape broadcast_ad end ;;
  ir <- match index_row with
        | None => Ok (np_full0 Z shape)
        | Some r => _test_or_broadcast_ad r shape broadcast_ad end ;;
  ic <- match index_col with
        | None => Ok (np_full0 Z shape)
        | Some l => _test_or_broadcast_ad l shape broadcast_ad end ;;
  Ok (SpAD2 value c1 i1 c2 ir ic).

(** ** Math functions *)

(** [spAD2._math_helper]: [deriv] is [(a, b, c) = (f(x), f'(x), f''(x))]. *)
Definition _math_helper (self : spAD2) (deriv : varr K * varr K * varr K) : res spAD2 :=
  let '(a, b, c) := deriv in
  let len_1 := twidth (coef1 self) in
  let coef1_r := np_repeat (coef1 self) len_1 in
  let index_r := np_repeat (index self) len_1 in
  let coef1_t := np_tile (coef1 self) len_1 in
  let index_t := np_tile (index self) len_1 in
  bc1 <- add_dim_times b (coef1 self) ;;
  bc2 <- add_dim_times b (coef2 self) ;;
  rt <- tmul coef1_r coef1_t ;;
  crt <- add_dim_times c rt ;;
  cc <- _concatenate bc2 crt None ;;
  ir <- _concatenate (index_row self) index_r None ;;
  ic <- _concatenate (index_col self) index_t None ;;
  spAD2_new a (Some bc1) (Some (index self)) (Some cc) (Some ir) (Some ic) false.

(** ** The AD scalar at cell [e]: its value and its two term lists *)

Definition val (v : varr K) (e : nat) : K := nth e (vdata v) s0.

Definition terms1 (x : spAD2) (e : nat) : list (K * Z) :=
  combine (row (coef1 x) e) (row (index x) e).

Definition terms2 (x : spAD2) (e : nat) : list (K * Z * Z) :=
  combine (combine (row (coef2 x) e) (row (index_row x) e)) (row (index_col x) e).

(** ** Operators *)

(** The right operand of an operator: an [spAD2], a plain array, or a Python scalar. *)
Inductive operand : Type :=
| OAD (x : spAD2)
| OArr (a : varr K)
| OScalar (k : K).

Definition __add__ (self : spAD2) (other : operand) : res spAD2 :=
  match other with
  | OAD other =>
      value' <- vzip sadd (value self) (value other) ;;
      let shape := Some (vshape value') in
      c1 <- _concatenate (coef1 self) (coef1 other) shape ;;
      i1 <- _concatenate (index self) (index other) shape ;;
      c2 <- _concatenate (coef2 self) (coef2 other) shape ;;
      ir <- _concatenate (index_row self) (index_row other) shape ;;
      ic <- _concatenate (index_col self) (index_col other) shape ;;
      spAD2_new value' (Some c1) (Some i1) (Some c2) (Some ir) (Some ic) false
  | OArr a =>
      value' <- vzip sadd (value self) a ;;
      spAD2_new value' (Some (coef1 self)) (Some (index self))
        (Some (coef2 self)) (Some (index_row self)) (Some (index_col self)) true
  | OScalar k =>
      spAD2_new (vmap (fun v => sadd v k) (value self)) (Some (coef1 self)) (Some (index self))
        (Some (coef2 self)) (Some (index_row self)) (Some (index_col self)) true
  end.

Definition __mul__ (self : spAD2) (other : operand) : res spAD2 :=
  match other with
  | OAD other =>
      value' <- vzip smul (value self) (value other) ;;
      coef1_a <- add_dim_times (value other) (coef1 self) ;;
      coef1_b <- add_dim_times (value self) (coef1 other) ;;
      index_a <- np_broadcast_to (index self) (tshape coef1_a) (twidth coef1_a) ;;
      index_b <- np_broadcast_to (index other) (tshape coef1_b) (twidth coef1_b) ;;
      coef2_a <- add_dim_times (value other) (coef2 self) ;;
      coef2_b <- add_dim_times (value self) (coef2 other) ;;
      index_row_a <- np_broadcast_to (index_row self) (tshape coef2_a) (twidth coef2_a) ;;
      index_row_b <- np_broadcast_to (index_row other) (tshape coef2_b) (twidth coef2_b) ;;
      index_col_a <- np_broadcast_to (index_col self) (tshape coef2_a) (twidth coef2_a) ;;
      index_col_b <- np_broadcast_to (index_col other) (tshape coef2_b) (twidth coef2_b) ;;
      let len_a := twidth (coef1 self) in
      let len_b := twidth (coef1 other) in
      coef2_ab <- tmul (np_repeat (coef1 self) len_b) (np_tile (coef1 other) len_a) ;;
      index2_a <- np_broadcast_to (np_repeat (index self) len_b)
                    (tshape coef2_ab) (twidth coef2_ab) ;;
      index2_b <- np_broadcast_to (np_tile (index other) len_a)
                    (tshape coef2_ab) (twidth coef2_ab) ;;
      c1 <- _concatenate coef1_a coef1_b None ;;
      i1 <- _concatenate index_a index_b None ;;
      c2 <- np_concatenate [coef2_a; coef2_b; coef2_ab; coef2_ab] ;;
      ir <- np_concatenate [index_row_a; index_row_b; index2_a; index2_b] ;;
      ic <- np_concatenate [index_col_a; index_col_b; index2_b; index2_a] ;;
      spAD2_new value' (Some c1) (Some i1) (Some c2) (Some ir) (Some ic) false
  | OArr a =>
      value' <- vzip smul (value self) a ;;
      c1 <- add_dim_times a (coef1 self) ;;
      i1 <- np_broadcast_to (index self) (tshape c1) (twidth c1) ;;
      c2 <- add_dim_times a (coef2 self) ;;
      ir <- np_broadcast_to (index_row self) (tshape c2) (twidth c2) ;;
      ic <- np_broadcast_to (index_col self) (tshape c2) (twidth c2) ;;
      spAD2_new value' (Some c1) (Some i1) (Some c2) (Some ir) (Some ic) false
  | OScalar k =>
      spAD2_new (vmap (fun v => smul v k) (value self))
        (Some (tmap (smul k) (coef1 self))) (Some (index self))
        (Some (tmap (smul k) (coef2 self))) (Some (index_row self)) (Some (index_col self))
        false
  end.

Definition __neg__ (self : spAD2) : res spAD2 :=
  spAD2_new (vmap sopp (value self)) (Some (tmap sopp (coef1 self))) (Some (index self))
    (Some (tmap sopp (coef2 self))) (Some (index_row self)) (Some (index_col self)) false.

(** ** Indexing *)

(** Modelled from the spec: [misc.key_expand] is not in src/.  A key addresses
    the outer axes only and the trailing sparse axis is carried through; the
    keys of this model address the single outer axis, so they are unchanged. *)
Definition key_expand (k : key) : key := k.

Definition __getitem__ (self : spAD2) (key : key) : res spAD2 :=
  let ekey := key_expand key in
  v <- np_getitem_v (value self) key ;;
  c1 <- np_getitem_t (coef1 self) ekey ;;
  i1 <- np_getitem_t (index self) ekey ;;
  c2 <- np_getitem_t (coef2 self) ekey ;;
  ir <- np_getitem_t (index_row self) ekey ;;
  ic <- np_getitem_t (index_col self) ekey ;;
  spAD2_new v (Some c1) (Some i1) (Some c2) (Some ir) (Some ic) false.

(** Modelled from the spec: [misc._pad_last] is not in src/.  The trailing axis
    is padded up to [pad_total] with placeholders (coefficient zero, index
    zero); a narrower target is never a truncation but an error. *)
Definition _pad_last {T} (zero : T) (a : tarr T) (pad_total : nat) : res (tarr T) :=
  if pad_total <? twidth a then Raise ValueError
  else Ok (Tarr (tshape a) pad_total
             (map (fun r => r ++ repeat zero (pad_total - twidth a)) (trows a))).

(** *** Methods that assign to [self] *)

Definition M (A : Type) : Type := spAD2 -> res A * spAD2.

Definition mret {A} (a : A) : M A := fun s => (Ok a, s).
Definition mbind {A B} (m : M A) (k : A -> M B) : M B :=
  fun s => match m s with
           | (Ok a, s') => k a s'
           | (Raise e, s') => (Raise e, s')
           end.
Definition lift {A} (r : res A) : M A := fun s => (r, s).
Definition get : M spAD2 := fun s => (Ok s, s).
Definition set_value (v : varr K) : M unit :=
  fun s => (Ok tt, SpAD2 v (coef1 s) (index s) (coef2 s) (index_row s) (index_col s)).
Definition set_coef1 (c : tarr K) : M unit :=
  fun s => (Ok tt, SpAD2 (value s) c (index s) (coef2 s) (index_row s) (index_col s)).
Definition set_index (i : tarr Z) : M unit :=
  fun s => (Ok tt, SpAD2 (value s) (coef1 s) i (coef2 s) (index_row s) (index_col s)).
Definition set_coef2 (c : tarr K) : M unit :=
  fun s => (Ok tt, SpAD2 (value s) (coef1 s) (index s) c (index_row s) (index_col s)).
Definition set_index_row (i : tarr Z) : M unit :=
  fun s => (Ok tt, SpAD2 (value s) (coef1 s) (index s) (coef2 s) i (index_col s)).
Definition set_index_col (i : tarr Z) : M unit :=
  fun s => (Ok tt, SpAD2 (value s) (coef1 s) (index s) (coef2 s) (index_row s) i).

Declare Scope self_scope.
Delimit Scope self_scope with self.
Notation "x <- m ;; k" := (mbind m (fun x => k))
  (at level 100, m at next level, right associativity) : self_scope.
Notation "m ;;; k" := (mbind m (fun _ => k))
  (at level 100, right associativity) : self_scope.

(** The [writeable] flag of each of the six arrays of an [spAD2].  An array
    that numpy computes is writeable; a view made by [np.broadcast_to] is
    read-only, and so is every view of it. *)
Record writeable : Type := Flags {
  w_value : bool;
  w_coef1 : bool;
  w_index : bool;
  w_coef2 : bool;
  w_index_row : bool;
  w_index_col : bool
}.

Definition all_writeable : writeable := Flags true true true true true true.

(** The flags of [x * a] for a plain array [a] ([__mul__], second branch): the
    value and the coefficients are computed, the three index arrays are
    [np.broadcast_to] views. *)
Definition flags_of_mul_array : writeable := Flags true true false true false false.


(** An assignment [a[key] = ...] into an array whose flag is [w]: numpy
    refuses a read-only destination with [ValueError] before it looks at the
    key or at the right-hand side. *)
Definition np_writing {A} (w : bool) (assignment : res A) : res A :=
  if w then assignment else Raise ValueError.

(** [self[key] = other], where [w] holds the flags of the arrays of [self]
    when the call starts.  An array that the method replaces by a padded copy
    is writeable from then on. *)
Definition __setitem__ (w : writeable) (key : key) (other : operand) : M unit :=
  (let ekey := key_expand key in
   match other with
   | OAD other =>
       self <- get ;;
       v <- lift (np_writing (w_value w) (np_setitem_v (value self) key (value other))) ;;
       set_value v ;;;
       self <- get ;;
       let pad_size := Nat.max (twidth (coef1 self)) (twidth (coef1 other)) in
       let padded := twidth (coef1 self) <? pad_size in
       (if padded then
          c <- lift (_pad_last s0 (coef1 self) pad_size) ;;
          set_coef1 c ;;;
          self <- get ;;
          i <- lift (_pad_last 0%Z (index self) pad_size) ;;
          set_index i
        else mret tt) ;;;
       self <- get ;;
       p <- lift (_pad_last s0 (coef1 other) pad_size) ;;
       c <- lift (np_writing (padded || w_coef1 w) (np_setitem_t (coef1 self) ekey p)) ;;
       set_coef1 c ;;;
       self <- get ;;
       p <- lift (_pad_last 0%Z (index other) pad_size) ;;
       i <- lift (np_writing (padded || w_index w) (np_setitem_t (index self) ekey p)) ;;
       set_index i ;;;
       self <- get ;;
       let pad_size := Nat.max (twidth (coef2 self)) (twidth (coef2 other)) in
       let padded := twidth (coef2 self) <? pad_size in
       (if padded then
          c <- lift (_pad_last s0 (coef2 self) pad_size) ;;
          set_coef2 c ;;;
          self <- get ;;
          i <- lift (_pad_last 0%Z (index_row self) pad_size) ;;
          set_index_row i ;;;
          self <- get ;;
          i <- lift (_pad_last 0%Z (index_col self) pad_size) ;;
          set_index_col i
        else mret tt) ;;;
       self <- get ;;
       p <- lift (_pad_last s0 (coef2 other) pad_size) ;;
       c <- lift (np_writing (padded || w_coef2 w) (np_setitem_t (coef2 self) ekey p)) ;;
       set_coef2 c ;;;
       self <- get ;;
       p <- lift (_pad_last 0%Z (index_row other) pad_size) ;;
       i <- lift (np_writing (padded || w_index_row w)
                    (np_setitem_t (index_row self) ekey p)) ;;
       set_index_row i ;;;
       self <- get ;;
       p <- lift (_pad_last 0%Z (index_col other) pad_size) ;;
       i <- lift (np_writing (padded || w_index_col w)
                    (np_setitem_t (index_col self) ekey p)) ;;
       set_index_col i
   | OArr a =>
       self <- get ;;
       v <- lift (np_writing (w_value w) (np_setitem_v (value self) key a)) ;;
       set_value v ;;;
       self <- get ;;
       c <- lift (np_writing (w_coef1 w) (np_fill_t (coef1 self) ekey s0)) ;;
       set_coef1 c ;;;
       self <- get ;;
       c <- lift (np_writing (w_coef2 w) (np_fill_t (coef2 self) ekey s0)) ;;
       set_coef2 c
   | OScalar k =>
       self <- get ;;
       v <- lift (np_writing (w_value w) (np_fill_v (value self) key k)) ;;
       set_value v ;;;
       self <- get ;;
       c <- lift (np_writing (w_coef1 w) (np_fill_t (coef1 self) ekey s0)) ;;
       set_coef1 c ;;;
       self <- get ;;
       c <- lift (np_writing (w_coef2 w) (np_fill_t (coef2 self) ekey s0)) ;;
       set_coef2 c
   end)%self.

(** The arrays that [self[key] = other] writes in place are writeable: the
    value always; for an [spAD2] right-hand side the arrays of an order unless
    the assignment replaces them by wider ones; for a constant the two
    coefficient arrays. *)
Definition writes_allowed (w : writeable) (other : operand) (self : spAD2) : Prop :=
  w_value w = true /\
  match other with
  | OAD o =>
      (twidth (coef1 o) <= twidth (coef1 self) -> w_coef1 w = true /\ w_index w = true) /\
      (twidth (coef2 o) <= twidth (coef2 self) ->
       w_coef2 w = true /\ w_index_row w = true /\ w_index_col w = true)
  | _ => w_coef1 w = true /\ w_coef2 w = true
  end.

(** The state that [self[key] = other] leaves behind when every step succeeds,
    for a key that addresses the cells [ps] and has the shape [ks]. *)
Definition assigned (ps : list nat) (ks : oshape) (other self : spAD2) : spAD2 :=
  let W1 := Nat.max (twidth (coef1 self)) (twidth (coef1 other)) in
  let W2 := Nat.max (twidth (coef2 self)) (twidth (coef2 other)) in
  SpAD2
    (Varr (vshape (value self))
       (write ps (stretch (vshape (value other)) ks (vdata (value other)))
          (vdata (value self))))
    (twrite ps ks (pad_to s0 W1 (coef1 other)) (pad_to s0 W1 (coef1 self)))
    (twrite ps ks (pad_to 0%Z W1 (index other)) (pad_to 0%Z W1 (index self)))
    (twrite ps ks (pad_to s0 W2 (coef2 other)) (pad_to s0 W2 (coef2 self)))
    (twrite ps ks (pad_to 0%Z W2 (index_row other)) (pad_to 0%Z W2 (index_row self)))
    (twrite ps ks (pad_to 0%Z W2 (index_col other)) (pad_to 0%Z W2 (index_col self))).

(** ** The first-order peer structure, [Sparse.spAD] *)

Record Sparse_spAD : Type := SpAD {
  sp_value : varr K;
  sp_coef : tarr K;
  sp_index : tarr Z
}.

(** Modelled from the spec: the module [Sparse] is not in src/.  Its structure
    agrees with this one without the second-order fields, and its constructor
    checks the term arrays the same way. *)
Definition Sparse_spAD_new (value : varr K) (coef : tarr K) (index : tarr Z)
  : res Sparse_spAD :=
  _ <- py_assert (tshape_eqb coef index) ;;
  c <- _test_or_broadcast_ad coef (vshape value) false ;;
  i <- _test_or_broadcast_ad index (vshape value) false ;;
  Ok (SpAD value c i).

(** Merging of one element's term list: an entry joins the earlier entry with
    its index, adding its coefficient to it, or else comes last. *)
Fixpoint add_term (c : K) (i : Z) (acc : list (K * Z)) : list (K * Z) :=
  match acc with
  | [] => [(c, i)]
  | (c', i') :: tl =>
      if (i =? i')%Z then (sadd c' c, i') :: tl
      else (c', i') :: add_term c i tl
  end.

Definition merge_terms (l : list (K * Z)) : list (K * Z) :=
  fold_left (fun acc p => add_term (fst p) (snd p) acc) l [].

Definition simplify_row (c : list K) (i : list Z) : list (K * Z) :=
  filter (fun p => negb (sis0 (fst p))) (merge_terms (combine c i)).

(** Modelled from the spec: [Sparse.spAD.simplify_ad] is not in src/.  Entries
    of an element that share an index are merged into one entry with the
    summed coefficient, zero-coefficient entries are dropped, and the array
    gets the uniform width of its longest element, shorter elements being
    padded with zero-coefficient placeholders. *)
Definition Sparse_simplify_ad (x : Sparse_spAD) : Sparse_spAD :=
  let rows := zipWith simplify_row (trows (sp_coef x)) (trows (sp_index x)) in
  let w := fold_right Nat.max 0 (map (@length (K * Z)) rows) in
  let padded := map (fun r => r ++ repeat (s0, 0%Z) (w - length r)) rows in
  SpAD (sp_value x)
       (Tarr (tshape (sp_coef x)) w (map (map fst) padded))
       (Tarr (tshape (sp_index x)) w (map (map snd) padded)).

(** The rows of [Sparse_simplify_ad], padded to the width of the longest one. *)
Definition pad_rows (L : list (list (K * Z))) : list (list (K * Z)) :=
  map (fun r => r ++ repeat (s0, 0%Z)
                       (fold_right Nat.max 0 (map (@length (K * Z)) L) - length r)) L.

(** Modelled from the spec: [Sparse.identity] is not in src/.  Every element
    gets the unit first-order term at its own global index. *)
Definition Sparse_identity (values : varr K) (indices : varr Z) : res Sparse_spAD :=
  _ <- py_assert (oshape_eqb (vshape values) (vshape indices)) ;;
  Sparse_spAD_new values
    (Tarr (vshape values) 1 (map (fun _ => [s1]) (vdata values)))
    (Tarr (vshape indices) 1 (map (fun i => [i]) (vdata indices))).

(** ** Simplification *)

Definition simplify_ad : M unit :=
  (self <- get ;;
   spHelper1 <- lift (Sparse_spAD_new (value self) (coef1 self) (index self)) ;;
   let spHelper1 := Sparse_simplify_ad spHelper1 in
   set_coef1 (sp_coef spHelper1) ;;;
   set_index (sp_index spHelper1) ;;;
   self <- get ;;
   m <- lift (np_max (index_col self)) ;;
   let n_col := int64_add 1 m in
   keys <- lift (tzip int64_add (tmap (fun r => int64_mul r n_col) (index_row self))
                   (index_col self)) ;;
   spHelper2 <- lift (Sparse_spAD_new (value self) (coef2 self) keys) ;;
   let spHelper2 := Sparse_simplify_ad spHelper2 in
   set_coef2 (sp_coef spHelper2) ;;;
   set_index_row (tmap (fun k => np_floordiv k n_col) (sp_index spHelper2)) ;;;
   set_index_col (tmap (fun k => np_mod k n_col) (sp_index spHelper2)))%self.

(** The combined keys [index_row * n_col + index_col], in 64-bit arithmetic. *)
Definition combined_keys (x : spAD2) (n_col : Z) : tarr Z :=
  Tarr (tshape (index_row x)) (twidth (index_row x))
    (zipWith (zipWith int64_add) (map (map (fun r => int64_mul r n_col)) (trows (index_row x)))
       (trows (index_col x))).

(** The state that [simplify_ad] leaves behind when [np.max(index_col)] is [m]
    and every step succeeds. *)
Definition simplified (x : spAD2) (m : Z) : spAD2 :=
  let h1 := Sparse_simplify_ad (SpAD (value x) (coef1 x) (index x)) in
  let n_col := int64_add 1 m in
  let h2 := Sparse_simplify_ad (SpAD (value x) (coef2 x) (combined_keys x n_col)) in
  SpAD2 (value x) (sp_coef h1) (sp_index h1) (sp_coef h2)
    (tmap (fun k => np_floordiv k n_col) (sp_index h2))
    (tmap (fun k => np_mod k n_col) (sp_index h2)).

(** No key of [x] leaves the 64-bit range when [np.max(index_col)] is [m]:
    neither [1 + m] nor any [row * (1 + m) + col]. *)
Definition keys_fit (x : spAD2) (m : Z) : Prop :=
  in_int64 (1 + m) /\
  forall e r c,
    In (r, c) (combine (row (index_row x) e) (row (index_col x) e)) ->
    in_int64 (r * (1 + m) + c).

(** The keys and the simplified array as unbounded integers give them; they
    are what the 64-bit computation gives when the keys fit. *)
Definition exact_keys (x : spAD2) (n_col : Z) : tarr Z :=
  Tarr (tshape (index_row x)) (twidth (index_row x))
    (zipWith (zipWith Z.add) (map (map (fun r => (r * n_col)%Z)) (trows (index_row x)))
       (trows (index_col x))).

Definition simplified_exact (x : spAD2) (m : Z) : spAD2 :=
  let h1 := Sparse_simplify_ad (SpAD (value x) (coef1 x) (index x)) in
  let n_col := (1 + m)%Z in
  let h2 := Sparse_simplify_ad (SpAD (value x) (coef2 x) (exact_keys x n_col)) in
  SpAD2 (value x) (sp_coef h1) (sp_index h1) (sp_coef h2)
    (tmap (fun k => np_floordiv k n_col) (sp_index h2))
    (tmap (fun k => np_mod k n_col) (sp_index h2)).

(** ** Factory *)

Definition identity (values : varr K) (indices : varr Z) : res spAD2 :=
  arr <- Sparse_identity values indices ;;
  let shape := vshape (sp_value arr) in
  spAD2_new (sp_value arr) (Some (sp_coef arr)) (Some (sp_index arr))
    (Some (np_full0 K shape)) (Some (np_full0 Z shape)) (Some (np_full0 Z shape)) false.

(** ** Conversion *)

Definition bound_ad (self : spAD2) : Z :=
  (1 + Z.max (Z.max (np_max_initial (index self) (-1)) (np_max_initial (index_row self) (-1)))
         (np_max_initial (index_col self) (-1)))%Z.

(** [np.zeros(shape + (d,))]; a negative dimension is refused. *)
Definition np_zeros (s : oshape) (d : Z) : res (tarr K) :=
  if (d <? 0)%Z then Raise ValueError
  else Ok (Tarr s (Z.to_nat d) (repeat (repeat s0 (Z.to_nat d)) (osize s))).

(** One cell of [np.put_along_axis(a, i, np.take_along_axis(a, i) + c)]. *)
Definition accumulate (row : list K) (c : K) (i : Z) : res (list K) :=
  p <- axis_pos (length row) i ;;
  Ok (list_set p (sadd (nth p row s0) c) row).

Fixpoint accumulate_cells (rows : list (list K)) (cs : list K) (ids : list Z)
  : res (list (list K)) :=
  match rows, cs, ids with
  | row :: rows', c :: cs', i :: ids' =>
      row' <- accumulate row c i ;;
      rest <- accumulate_cells rows' cs' ids' ;;
      Ok (row' :: rest)
  | [], [], [] => Ok []
  | _, _, _ => Raise ValueError
  end.

(** The loop [for c,i in zip(mvax(coef), mvax(index))] of [to_dense]. *)
Fixpoint scatter (dense : list (list K)) (cols : list (list K * list Z))
  : res (list (list K)) :=
  match cols with
  | [] => Ok dense
  | (c, i) :: rest =>
      dense' <- accumulate_cells dense c i ;;
      scatter dense' rest
  end.

(** Modelled from the spec: the module [Dense2] is not in src/.  The dense
    second-order structure holds the value, a full gradient per element and a
    full square Hessian per element. *)
Record denseAD2 : Type := DenseAD2 {
  d2_value : varr K;
  d2_coef1 : tarr K;
  d2_size : nat;
  d2_coef2 : list (list (list K))
}.

(** [spAD2.to_dense].  The flattened position [index_row*dsad + index_col] is
    written with unbounded integers: it is the 64-bit integer that numpy
    computes whenever it fits 64 bits, which holds when the indices lie within
    the bound and which the statements about other positions assume. *)
Definition to_dense (self : spAD2) (dense_size_ad : option Z) : res denseAD2 :=
  let dsad := match dense_size_ad with None => bound_ad self | Some d => d end in
  let shape := vshape (value self) in
  z1 <- np_zeros shape dsad ;;
  rows1 <- scatter (trows z1) (combine (mvax (coef1 self)) (mvax (index self))) ;;
  z2 <- np_zeros shape (dsad * dsad) ;;
  keys <- tzip Z.add (tmap (fun r => (r * dsad)%Z) (index_row self)) (index_col self) ;;
  rows2 <- scatter (trows z2) (combine (mvax (coef2 self)) (mvax keys)) ;;
  Ok (DenseAD2 (value self) (Tarr shape (Z.to_nat dsad) rows1) (Z.to_nat dsad)
        (map (chunks (Z.to_nat dsad) (Z.to_nat dsad)) rows2)).

Definition to_first (self : spAD2) : res Sparse_spAD :=
  Sparse_spAD_new (value self) (coef1 self) (index self).

(** Modelled from the spec: [Sparse.spAD.to_dense] is not in src/.  The
    first-order pairs are scatter-accumulated into a dense vector of the given
    length, as in the first loop of [to_dense] above. *)
Record denseAD : Type := DenseAD { d_value : varr K; d_coef : tarr K }.

Definition Sparse_to_dense (x : Sparse_spAD) (dense_size_ad : Z) : res denseAD :=
  z <- np_zeros (vshape (sp_value x)) dense_size_ad ;;
  rows <- scatter (trows z) (combine (mvax (sp_coef x)) (mvax (sp_index x))) ;;
  Ok (DenseAD (sp_value x) (Tarr (vshape (sp_value x)) (Z.to_nat dense_size_ad) rows)).

(** *** Reading a dense conversion *)

(** The sum, in storage order, of the coefficients of the first-order entries
    of [l] with index [j]. *)
Definition sum_at (l : list (K * Z)) (j : Z) : K :=
  fold_left (fun acc t => if (snd t =? j)%Z then sadd acc (fst t) else acc) l s0.

(** The same for the second-order entries of [l] at [(r, c)]. *)
Definition sum_at2 (l : list (K * Z * Z)) (r c : Z) : K :=
  fold_left (fun acc t =>
               if ((snd (fst t) =? r) && (snd t =? c))%Z then sadd acc (fst (fst t)) else acc)
            l s0.

(** One accumulation into a dense row at a non-negative position. *)
Definition put (row : list K) (t : K * Z) : list K :=
  list_set (Z.to_nat (snd t)) (sadd (nth (Z.to_nat (snd t)) row s0) (fst t)) row.

(** All the accumulations of one element, in storage order. *)
Definition put_all (r : list K) (ci : list K * list Z) : list K :=
  fold_left put (combine (fst ci) (snd ci)) r.

(** Every global index stored in the array. *)
Definition all_indices (x : spAD2) : list Z :=
  concat (trows (index x)) ++ concat (trows (index_row x)) ++ concat (trows (index_col x)).

(** Cell [(r, c)] of the dense Hessian of element [e]. *)
Definition hessian_at (d : denseAD2) (e r c : nat) : K :=
  nth c (nth r (nth e (d2_coef2 d) []) []) s0.

(** ** Linear algebra *)

Definition triplet : Type := (tarr K * (tarr Z * tarr Z))%type.

Definition triplets (self : spAD2) : triplet :=
  (coef2 self, (index_row self, index_col self)).

(** What a solve returns: the raw linear system, or the solver's answer. *)
Inductive solved : Type :=
| RawSystem (mat : triplet) (rhs : tarr K)
| Solution (u : tarr K).

Section Solves.

(** [misc.spsolve], the external sparse linear solver. *)
Variable spsolve : triplet -> tarr K -> res (tarr K).

Definition solve_stationnary (self : spAD2) (raw : bool) : res solved :=
  let mat := triplets self in
  first <- to_first self ;;
  dense <- Sparse_to_dense first (bound_ad self) ;;
  let rhs := tmap sopp (d_coef dense) in
  if raw then Ok (RawSystem mat rhs)
  else u <- spsolve mat rhs ;; Ok (Solution u).

(** [rhs[n:]]: a slice of the first axis of the array. *)
Definition slice_from {T} (n : nat) (a : tarr T) : tarr T :=
  match tshape a with
  | Sh0 => Tarr Sh0 (twidth a - n) (map (skipn n) (trows a))
  | Sh1 m => Tarr (Sh1 (m - n)) (twidth a) (skipn n (trows a))
  end.

Definition solve_weakform (self : spAD2) (raw : bool) : res solved :=
  sys <- solve_stationnary self true ;;
  match sys with
  | Solution _ => Raise ValueError
  | RawSystem (coef, (row, col)) rhs =>
      let n := (osize (tshape rhs) * twidth rhs) / 2 in
      let rhs := slice_from n rhs in
      pos <- tzip andb (tmap (fun r => (Z.of_nat n <=? r)%Z) row)
                       (tmap (fun c => (c <? Z.of_nat n)%Z) col) ;;
      coef_pos <- mask_select coef pos ;;
      row_pos <- mask_select row pos ;;
      col_pos <- mask_select col pos ;;
      let mat := (arr1 coef_pos,
                  (arr1 (map (fun r => (r - Z.of_nat n)%Z) row_pos), arr1 col_pos)) in
      if raw then Ok (RawSystem mat rhs)
      else u <- spsolve mat rhs ;; Ok (Solution u)
  end.

End Solves.

End Engine.

(** ** Powers and the square root, over the reals *)

(** Modelled from the spec: [misc.pow2] is not in src/.  The analytic triple
    [(f(x), f'(x), f''(x))] of the power function [f(x) = x^n], for positive
    values: [Rpower v n] is [exp (n * ln v)], the power function only where
    [0 < v]. *)
Definition pow2 (x : varr R) (n : R) : varr R * varr R * varr R :=
  (vmap (fun v => Rpower v n) x,
   vmap (fun v => n * Rpower v (n - 1))%R x,
   vmap (fun v => (n * (n - 1)) * Rpower v (n - 2))%R x).

Definition __pow__ (self : spAD2 (K:=R)) (n : R) : res spAD2 :=
  _math_helper self (pow2 (value self) n).

Definition spAD2_sqrt (self : spAD2 (K:=R)) : res spAD2 := __pow__ self (1 / 2)%R.

(** ** Sample values over the rationals *)

(** The product [x0 * x1] of Scenario 1 as the constructor receives it. *)
Definition sample_product : spAD2 (K:=Q) :=
  SpAD2 (Varr Sh0 [6%Q])
        (Tarr Sh0 2 [[3%Q; 2%Q]]) (Tarr Sh0 2 [[0%Z; 1%Z]])
        (Tarr Sh0 2 [[1%Q; 1%Q]]) (Tarr Sh0 2 [[0%Z; 1%Z]]) (Tarr Sh0 2 [[1%Z; 0%Z]]).

(** Scenario 1: the identity on the values [2, 3] at the indices [0, 1], and
    the product of its two elements. *)
Definition scenario1_x : res (spAD2 (K:=Q)) :=
  identity (Varr (Sh1 2) [2%Q; 3%Q]) (Varr (Sh1 2) [0%Z; 1%Z]).

Definition scenario1_product : res (spAD2 (K:=Q)) :=
  x <- scenario1_x ;;
  x0 <- __getitem__ x (KInt 0) ;;
  x1 <- __getitem__ x (KInt 1) ;;
  __mul__ x0 (OAD x1).

(** The second-order entries of cell [e] whose coefficient is not zero. *)
Definition nonzero_terms2 {K : Type} {SK : Scalar K} (x : spAD2) (e : nat) : list (K * Z * Z) :=
  filter (fun t => negb (sis0 (fst (fst t)))) (terms2 x e).

(** The product of Scenario 1 multiplied by the Python scalar [0.0]. *)
Definition scaled_to_zero : res (spAD2 (K:=Q)) :=
  p <- scenario1_product ;; __mul__ p (OScalar 0%Q).

(** The arrays of [scaled_to_zero], and what is left of them after one simplification. *)
Definition zero_product : spAD2 (K:=Q) :=
  SpAD2 (Varr Sh0 [(6 * 0)%Q])
        (Tarr Sh0 2 [[(0 * 3)%Q; (0 * 2)%Q]]) (Tarr Sh0 2 [[0%Z; 1%Z]])
        (Tarr Sh0 2 [[(0 * 1)%Q; (0 * 1)%Q]]) (Tarr Sh0 2 [[0%Z; 1%Z]]) (Tarr Sh0 2 [[1%Z; 0%Z]]).

Definition zero_product_simplified : spAD2 (K:=Q) :=
  SpAD2 (Varr Sh0 [(6 * 0)%Q])
        (Tarr Sh0 0 [[]]) (Tarr Sh0 0 [[]])
        (Tarr Sh0 0 [[]]) (Tarr Sh0 0 [[]]) (Tarr Sh0 0 [[]]).




(** ** The weak form as the specification words it *)

(** [rhs[:n]]: the first [n] entries of the first axis. *)
Definition slice_to {T} (n : nat) (a : tarr T) : tarr T :=
  match tshape a with
  | Sh0 => Tarr Sh0 (Nat.min n (twidth a)) (map (firstn n) (trows a))
  | Sh1 m => Tarr (Sh1 (Nat.min n m)) (twidth a) (firstn n (trows a))
  end.

(** The reduced system of the specification's wording: the indices below the
    split point [n] are the block "v" and the others the block "u"; the system
    is restricted to the v-rows and u-columns and to the v-part of [r]. *)
Definition claimed_weakform {K : Type} (n : nat) (sys : solved (K:=K)) : res (solved (K:=K)) :=
  match sys with
  | Solution _ => Raise ValueError
  | RawSystem (coef, (row, col)) rhs =>
      pos <- tzip andb (tmap (fun r => (r <? Z.of_nat n)%Z) row)
                       (tmap (fun c => (Z.of_nat n <=? c)%Z) col) ;;
      coef_pos <- mask_select coef pos ;;
      row_pos <- mask_select row pos ;;
      col_pos <- mask_select col pos ;;
      Ok (RawSystem (arr1 coef_pos,
                     (arr1 row_pos, arr1 (map (fun c => (c - Z.of_nat n)%Z) col_pos)))
                    (slice_to n rhs))
  end.

(** A solver that refuses every system. *)
Definition no_solver {K : Type} (mat : triplet (K:=K)) (rhs : tarr K) : res (tarr K) :=
  Raise ValueError.

(** The constant 1, as [spAD2(1.0)] builds it: no index is referenced. *)
Definition constant_one : spAD2 (K:=Q) :=
  SpAD2 (Varr Sh0 [1%Q])
        (Tarr Sh0 0 [[]]) (Tarr Sh0 0 [[]])
        (Tarr Sh0 0 [[]]) (Tarr Sh0 0 [[]]) (Tarr Sh0 0 [[]]).

(** The quadratic [Q = x0 * x1 + 3 * x1] at the base point [x0 = x1 = 0],
    the variables having the global indices 0 and 1. *)
Definition weak_example_built : res (spAD2 (K:=Q)) :=
  x <- identity (Varr (Sh1 2) [0%Q; 0%Q]) (Varr (Sh1 2) [0%Z; 1%Z]) ;;
  x0 <- __getitem__ x (KInt 0) ;;
  x1 <- __getitem__ x (KInt 1) ;;
  p <- __mul__ x0 (OAD x1) ;;
  l <- __mul__ x1 (OScalar 3%Q) ;;
  __add__ p (OAD l).

Definition weak_example : spAD2 (K:=Q) :=
  SpAD2 (Varr Sh0 [(0 * 0 + 0 * 3)%Q])
        (Tarr Sh0 3 [[(0 * 1)%Q; (0 * 1)%Q; (3 * 1)%Q]]) (Tarr Sh0 3 [[0%Z; 1%Z; 1%Z]])
        (Tarr Sh0 2 [[(1 * 1)%Q; (1 * 1)%Q]]) (Tarr Sh0 2 [[0%Z; 1%Z]])
        (Tarr Sh0 2 [[1%Z; 0%Z]]).

(** The identity of Scenario 1 as an array, and what [x[0:2] = p] makes of it
    for the scalar product [p] of Scenario 1. *)
Definition pair_x : spAD2 (K:=Q) :=
  SpAD2 (Varr (Sh1 2) [2%Q; 3%Q])
        (Tarr (Sh1 2) 1 [[1%Q]; [1%Q]]) (Tarr (Sh1 2) 1 [[0%Z]; [1%Z]])
        (Tarr (Sh1 2) 0 [[]; []]) (Tarr (Sh1 2) 0 [[]; []]) (Tarr (Sh1 2) 0 [[]; []]).

Definition pair_assigned : spAD2 (K:=Q) :=
  SpAD2 (Varr (Sh1 2) [6%Q; 6%Q])
        (Tarr (Sh1 2) 2 [[3%Q; 2%Q]; [3%Q; 2%Q]]) (Tarr (Sh1 2) 2 [[0%Z; 1%Z]; [0%Z; 1%Z]])
        (Tarr (Sh1 2) 2 [[1%Q; 1%Q]; [1%Q; 1%Q]]) (Tarr (Sh1 2) 2 [[0%Z; 1%Z]; [0%Z; 1%Z]])
        (Tarr (Sh1 2) 2 [[1%Z; 0%Z]; [1%Z; 0%Z]]).

(** ** Further methods of the class *)

Section Methods.

Context {K : Type} {SK : Scalar K}.

(** The cell of an array of outer shape [src] that broadcasting shows at the
    cell [e] of the shape [s]. *)
Definition bcell (src s : oshape) (e : nat) : nat := if oshape_eqb src s then e else 0.

(** An optional constructor argument is a well-formed array when it is given. *)
Definition wf_opt {T} (o : option (tarr T)) : Prop :=
  match o with Some a => wf_t a | None => True end.

(** *** Subtraction *)

(** [a - b] on scalars: the sum of [a] and the opposite of [b]. *)
Definition ssub (a b : K) : K := sadd a (sopp b).

Definition __sub__ (self : spAD2 (K:=K)) (other : operand) : res spAD2 :=
  match other with
  | OAD other =>
      value' <- vzip ssub (value self) (value other) ;;
      let shape := Some (vshape value') in
      c1 <- _concatenate (coef1 self) (tmap sopp (coef1 other)) shape ;;
      i1 <- _concatenate (index self) (index other) shape ;;
      c2 <- _concatenate (coef2 self) (tmap sopp (coef2 other)) shape ;;
      ir <- _concatenate (index_row self) (index_row other) shape ;;
      ic <- _concatenate (index_col self) (index_col other) shape ;;
      spAD2_new value' (Some c1) (Some i1) (Some c2) (Some ir) (Some ic) false
  | OArr a =>
      value' <- vzip ssub (value self) a ;;
      spAD2_new value' (Some (coef1 self)) (Some (index self))
        (Some (coef2 self)) (Some (index_row self)) (Some (index_col self)) true
  | OScalar k =>
      spAD2_new (vmap (fun v => ssub v k) (value self)) (Some (coef1 self)) (Some (index self))
        (Some (coef2 self)) (Some (index_row self)) (Some (index_col self)) true
  end.

(** [other - self], which Python evaluates as [-(self - other)]. *)
Definition __rsub__ (self : spAD2 (K:=K)) (other : operand) : res spAD2 :=
  d <- __sub__ self other ;; __neg__ d.

(** *** Iteration *)

(** What [iter(x)] gives: Python refuses to iterate over a 0-d array; otherwise
    the generator yields one element after the other and ends at the first
    element whose construction raises. *)
Inductive iterated : Type :=
| NotIterable
| Yields (items : list (res (spAD2 (K:=K)))).

(** One step of the generator: the AD scalar built from one cell of each of
    the six arrays. *)
Definition iter_item (c : K * (list K * (list Z * (list K * (list Z * list Z)))))
  : res (spAD2 (K:=K)) :=
  let '(v, (c1, (i1, (c2, (ir, ic))))) := c in
  spAD2_new (Varr Sh0 [v]) (Some (arr1 c1)) (Some (arr1 i1))
    (Some (arr1 c2)) (Some (arr1 ir)) (Some (arr1 ic)) false.

Fixpoint iter_yield (cells : list (K * (list K * (list Z * (list K * (list Z * list Z))))))
  : list (res (spAD2 (K:=K))) :=
  match cells with
  | [] => []
  | c :: rest =>
      match iter_item c with
      | Ok x => Ok x :: iter_yield rest
      | Raise e => [Raise e]
      end
  end.

Definition __iter__ (self : spAD2 (K:=K)) : iterated :=
  match vshape (value self) with
  | Sh0 => NotIterable
  | Sh1 _ =>
      Yields (iter_yield
                (combine (vdata (value self))
                   (combine (trows (coef1 self))
                      (combine (trows (index self))
                         (combine (trows (coef2 self))
                            (combine (trows (index_row self)) (trows (index_col self))))))))
  end.

(** *** Shapes *)

(** [a.reshape(s)]: numpy asks for equal sizes and keeps the row-major order. *)
Definition np_reshape_v {T} (a : varr T) (s : oshape) : res (varr T) :=
  if osize (vshape a) =? osize s then Ok (Varr s (vdata a)) else Raise ValueError.

(** [a.reshape(s + (w,))] for an array with a trailing axis. *)
Definition np_reshape_t {T} (a : tarr T) (s : oshape) (w : nat) : res (tarr T) :=
  if osize (tshape a) * twidth a =? osize s * w
  then Ok (Tarr s w (chunks w (osize s) (concat (trows a))))
  else Raise ValueError.

(** [spAD2.reshape(shape)] for a target shape [()] or [(n,)] given in full. *)
Definition reshape (self : spAD2 (K:=K)) (shape : oshape) : res spAD2 :=
  let shape1 := size_ad1 self in
  let shape2 := size_ad2 self in
  v <- np_reshape_v (value self) shape ;;
  c1 <- np_reshape_t (coef1 self) shape shape1 ;;
  i1 <- np_reshape_t (index self) shape shape1 ;;
  c2 <- np_reshape_t (coef2 self) shape shape2 ;;
  ir <- np_reshape_t (index_row self) shape shape2 ;;
  ic <- np_reshape_t (index_col self) shape shape2 ;;
  spAD2_new v (Some c1) (Some i1) (Some c2) (Some ir) (Some ic) false.

Definition flatten (self : spAD2 (K:=K)) : res spAD2 :=
  reshape self (Sh1 (osize (vshape (value self)))).

(** [a.squeeze().shape]: an axis of length one is removed. *)
Definition np_squeeze_shape (s : oshape) : oshape :=
  match s with
  | Sh1 1 => Sh0
  | _ => s
  end.

(** [spAD2.squeeze()] with [axis=None]. *)
Definition squeeze (self : spAD2 (K:=K)) : res spAD2 :=
  reshape self (np_squeeze_shape (vshape (value self))).

(** [np.broadcast_to(a, s)] for an array without trailing axis. *)
Definition np_broadcast_to_v {T} (a : varr T) (s : oshape) : res (varr T) :=
  if broadcastable (vshape a) s then Ok (Varr s (stretch (vshape a) s (vdata a)))
  else Raise ValueError.

Definition broadcast_to (self : spAD2 (K:=K)) (shape : oshape) : res spAD2 :=
  let shape1 := size_ad1 self in
  let shape2 := size_ad2 self in
  v <- np_broadcast_to_v (value self) shape ;;
  c1 <- np_broadcast_to (coef1 self) shape shape1 ;;
  i1 <- np_broadcast_to (index self) shape shape1 ;;
  c2 <- np_broadcast_to (coef2 self) shape shape2 ;;
  ir <- np_broadcast_to (index_row self) shape shape2 ;;
  ic <- np_broadcast_to (index_col self) shape shape2 ;;
  spAD2_new v (Some c1) (Some i1) (Some c2) (Some ir) (Some ic) false.

(** *** Reductions *)

(** The axes of an array of shape [(n,)]: [0] and [-1]. *)
Inductive axis : Type := AxFirst | AxLast.

(** [a.sum()] of the cells of [a]; the sum of no cell is zero.  The cells are
    added from left to right: the order in which numpy adds them (pairwise,
    in blocks) only matters under rounding, which the scalars do not model. *)
Definition np_sum (a : varr K) : K :=
  match vdata a with
  | [] => s0
  | x :: l => fold_left sadd l x
  end.

(** [np.moveaxis(t, axis, -1)] for a term array [t] of shape [(n, W)]: the
    axis [0] of [t] is its outer axis, the axis [-1] its trailing axis. *)
Definition np_moveaxis_last {T} (t : tarr T) (ax : axis) : tarr T :=
  match ax with
  | AxFirst => Tarr (Sh1 (twidth t)) (osize (tshape t)) (mvax t)
  | AxLast => t
  end.

(** [spAD2.sum(axis)] for [axis] 0 or -1.  On a 0-d array [self.shape[axis]]
    is a tuple index out of range. *)
Definition sum_axis (self : spAD2 (K:=K)) (ax : axis) : res spAD2 :=
  match vshape (value self) with
  | Sh0 => Raise IndexError
  | Sh1 n =>
      let value' := Varr Sh0 [np_sum (value self)] in
      let shape1 := size_ad1 self * n in
      coef1' <- np_reshape_t (np_moveaxis_last (coef1 self) ax) Sh0 shape1 ;;
      index' <- np_reshape_t (np_moveaxis_last (index self) ax) Sh0 shape1 ;;
      let shape2 := size_ad2 self * n in
      coef2' <- np_reshape_t (np_moveaxis_last (coef2 self) ax) Sh0 shape2 ;;
      index_row' <- np_reshape_t (np_moveaxis_last (index_row self) ax) Sh0 shape2 ;;
      index_col' <- np_reshape_t (np_moveaxis_last (index_col self) ax) Sh0 shape2 ;;
      spAD2_new value' (Some coef1') (Some index') (Some coef2') (Some index_row')
        (Some index_col') false
  end.

(** [spAD2.sum(axis=None)] and [spAD2.sum(axis)]. *)
Definition sum (self : spAD2 (K:=K)) (ax : option axis) : res spAD2 :=
  match ax with
  | None => f <- flatten self ;; sum_axis f AxFirst
  | Some ax => sum_axis self ax
  end.

(** *** Concatenation *)

(** [spAD2(e)] for an element that is an [spAD2] already, a plain array, or a
    Python scalar. *)
Definition as_spAD2 (e : operand) : res (spAD2 (K:=K)) :=
  match e with
  | OAD x => Ok x
  | OArr a => spAD2_new a None None None None None false
  | OScalar k => spAD2_new (Varr Sh0 [k]) None None None None None false
  end.

Fixpoint mapM {A B} (f : A -> res B) (l : list A) : res (list B) :=
  match l with
  | [] => Ok []
  | a :: t => b <- f a ;; r <- mapM f t ;; Ok (b :: r)
  end.

(** Python's [max] of a sequence: it raises on an empty one. *)
Definition py_max (l : list nat) : res nat :=
  match l with
  | [] => Raise ValueError
  | x :: r => Ok (fold_left Nat.max r x)
  end.

Definition is_1d (s : oshape) : bool := match s with Sh1 _ => true | Sh0 => false end.

(** [np.concatenate(arrays, axis)] along the outer axis: numpy wants at least
    one array and no 0-d array. *)
Definition np_concatenate0_v {T} (l : list (varr T)) : res (varr T) :=
  match l with
  | [] => Raise ValueError
  | _ =>
      if forallb (fun a => is_1d (vshape a)) l
      then Ok (Varr (Sh1 (list_sum (map (fun a => osize (vshape a)) l)))
                 (concat (map (@vdata T) l)))
      else Raise ValueError
  end.

(** The same for arrays with a trailing axis, whose widths must agree. *)
Definition np_concatenate0_t {T} (l : list (tarr T)) : res (tarr T) :=
  match l with
  | [] => Raise ValueError
  | t :: _ =>
      if forallb (fun a => is_1d (tshape a)) l && forallb (fun a => twidth a =? twidth t) l
      then Ok (Tarr (Sh1 (list_sum (map (fun a => osize (tshape a)) l))) (twidth t)
                 (concat (map (@trows T) l)))
      else Raise ValueError
  end.

(** [spAD2.concatenate(elems, axis)] of arrays of shape [(n,)]; their only
    axis is the axis [0], which is also the axis [-1]. *)
Definition concatenate (elems : list operand) (ax : axis) : res (spAD2 (K:=K)) :=
  elems2 <- mapM as_spAD2 elems ;;
  size_ad1 <- py_max (map size_ad1 elems2) ;;
  size_ad2 <- py_max (map size_ad2 elems2) ;;
  v <- np_concatenate0_v (map value elems2) ;;
  c1 <- (l <- mapM (fun e => _pad_last s0 (coef1 e) size_ad1) elems2 ;; np_concatenate0_t l) ;;
  i1 <- (l <- mapM (fun e => _pad_last 0%Z (index e) size_ad1) elems2 ;; np_concatenate0_t l) ;;
  c2 <- (l <- mapM (fun e => _pad_last s0 (coef2 e) size_ad2) elems2 ;; np_concatenate0_t l) ;;
  ir <- (l <- mapM (fun e => _pad_last 0%Z (index_row e) size_ad2) elems2 ;;
         np_concatenate0_t l) ;;
  ic <- (l <- mapM (fun e => _pad_last 0%Z (index_col e) size_ad2) elems2 ;;
         np_concatenate0_t l) ;;
  spAD2_new v (Some c1) (Some i1) (Some c2) (Some ir) (Some ic) false.

(** *** The derivatives an element stands for *)

(** The partial derivative of element [e] with respect to the variable [j],
    and its second partial derivative with respect to [(r, c)]: the cells
    that [to_dense] fills. *)
Definition gradient_at (x : spAD2 (K:=K)) (e : nat) (j : Z) : K := sum_at (terms1 x e) j.
Definition hessian_of (x : spAD2 (K:=K)) (e : nat) (r c : Z) : K := sum_at2 (terms2 x e) r c.

(** The sum of the weights [w t] of the entries [t] of [l] that satisfy [p],
    added in storage order: the shape of [sum_at] and [sum_at2]. *)
Definition sum_where {T} (p : T -> bool) (w : T -> K) (l : list T) : K :=
  fold_left (fun acc t => if p t then sadd acc (w t) else acc) l s0.

(** The laws of exact arithmetic (a commutative ring whose zero test is exact). *)
Record exact_arithmetic : Prop := {
  ex_add_assoc : forall a b c : K, sadd a (sadd b c) = sadd (sadd a b) c;
  ex_add_comm : forall a b : K, sadd a b = sadd b a;
  ex_add_0_l : forall a : K, sadd s0 a = a;
  ex_add_opp : forall a : K, sadd a (sopp a) = s0;
  ex_mul_assoc : forall a b c : K, smul a (smul b c) = smul (smul a b) c;
  ex_mul_comm : forall a b : K, smul a b = smul b a;
  ex_mul_1_l : forall a : K, smul s1 a = a;
  ex_mul_add : forall a b c : K, smul a (sadd b c) = sadd (smul a b) (smul a c);
  ex_is0 : forall a : K, sis0 a = true <-> a = s0
}.

End Methods.

(** The integers as exact scalars. *)
#[export] Instance Scalar_Z : Scalar Z := {
  s0 := 0%Z; s1 := 1%Z;
  sadd := Z.add; smul := Z.mul; sopp := Z.opp;
  sis0 := fun z => (z =? 0)%Z
}.

(** ** Sample values over the integers *)

(** Two elements: [2 + x0 + 4 x0 x1] and [3 + x1 + 5 x1^2] as their entries read. *)
Definition int_pair : spAD2 (K:=Z) :=
  SpAD2 (Varr (Sh1 2) [2%Z; 3%Z])
        (Tarr (Sh1 2) 1 [[1%Z]; [1%Z]]) (Tarr (Sh1 2) 1 [[0%Z]; [1%Z]])
        (Tarr (Sh1 2) 1 [[4%Z]; [5%Z]]) (Tarr (Sh1 2) 1 [[0%Z]; [1%Z]])
        (Tarr (Sh1 2) 1 [[1%Z]; [1%Z]]).

(** A scalar with two first-order and two second-order entries. *)
Definition int_scalar : spAD2 (K:=Z) :=
  SpAD2 (Varr Sh0 [7%Z])
        (Tarr Sh0 2 [[2%Z; 3%Z]]) (Tarr Sh0 2 [[0%Z; 1%Z]])
        (Tarr Sh0 2 [[1%Z; 1%Z]]) (Tarr Sh0 2 [[0%Z; 1%Z]]) (Tarr Sh0 2 [[1%Z; 0%Z]]).

(** The same element as an array of shape [(1,)]. *)
Definition int_single : spAD2 (K:=Z) :=
  SpAD2 (Varr (Sh1 1) [7%Z])
        (Tarr (Sh1 1) 2 [[2%Z; 3%Z]]) (Tarr (Sh1 1) 2 [[0%Z; 1%Z]])
        (Tarr (Sh1 1) 2 [[1%Z; 1%Z]]) (Tarr (Sh1 1) 2 [[0%Z; 1%Z]])
        (Tarr (Sh1 1) 2 [[1%Z; 0%Z]]).

(** A scalar whose entries repeat indices: two first-order entries at index 0,
    two second-order entries at (0,1). *)
Definition int_duplicates : spAD2 (K:=Z) :=
  SpAD2 (Varr Sh0 [7%Z])
        (Tarr Sh0 3 [[2%Z; 3%Z; 5%Z]]) (Tarr Sh0 3 [[0%Z; 1%Z; 0%Z]])
        (Tarr Sh0 3 [[1%Z; 1%Z; 4%Z]]) (Tarr Sh0 3 [[0%Z; 1%Z; 0%Z]])
        (Tarr Sh0 3 [[1%Z; 0%Z; 1%Z]]).

(* ================================================================== *)
(** * Properties *)

(** ** Lists and shapes *)

Section ListFacts.
Context {A B C : Type}.
Variable f : A -> B -> C.

Lemma zipWith_length (l : list A) (l' : list B) :
  length (zipWith f l l') = Nat.min (length l) (length l').
Proof. revert l'; induction l; destruct l'; simpl; auto. Qed.

End ListFacts.

Lemma combine_app' {A B} (l1 l2 : list A) (l1' l2' : list B) :
  length l1 = length l1' ->
  combine (l1 ++ l2) (l1' ++ l2') = combine l1 l1' ++ combine l2 l2'.
Proof.
  revert l1'; induction l1; destruct l1'; simpl; intros; try discriminate; auto.
  f_equal. apply IHl1. lia.
Qed.

Lemma oshape_eqb_refl s : oshape_eqb s s = true.
Proof. destruct s; simpl; auto using Nat.eqb_refl. Qed.

Lemma oshape_eqb_eq a b : oshape_eqb a b = true <-> a = b.
Proof.
  destruct a, b; simpl; split; intro H; try discriminate; auto.
  - apply Nat.eqb_eq in H; congruence.
  - inversion H; apply Nat.eqb_refl.
Qed.

Lemma broadcast_shapes_same s : broadcast_shapes s s = Ok s.
Proof. destruct s; simpl; auto. now rewrite Nat.eqb_refl. Qed.

Lemma stretch_same {T} s (l : list T) : stretch s s l = l.
Proof. unfold stretch. now rewrite oshape_eqb_refl. Qed.

Lemma wstretch_same {T} w (l : list T) : wstretch w w l = l.
Proof. unfold wstretch. now rewrite Nat.eqb_refl. Qed.

Lemma map_wstretch_same {T} w (l : list (list T)) : map (wstretch w w) l = l.
Proof. induction l; simpl; auto. now rewrite wstretch_same, IHl. Qed.

Lemma Forall_zipWith {A B C} (P : C -> Prop) (f : A -> B -> C) l l' :
  (forall a b, In a l -> In b l' -> P (f a b)) -> Forall P (zipWith f l l').
Proof.
  revert l'; induction l; destruct l'; simpl; intros; constructor.
  - apply H; auto.
  - apply IHl. intros; apply H; auto.
Qed.

Lemma nth_as_error {A} (l : list A) e d :
  nth e l d = match nth_error l e with Some x => x | None => d end.
Proof. revert e; induction l; destruct e; simpl; auto. Qed.

Lemma nth_error_zipWith {A B C} (f : A -> B -> C) l l' e :
  nth_error (zipWith f l l') e =
  match nth_error l e, nth_error l' e with
  | Some a, Some b => Some (f a b)
  | _, _ => None
  end.
Proof.
  revert l' e; induction l; destruct l', e; simpl; auto.
  destruct (nth_error l e); auto.
Qed.

Lemma nth_error_in_range {A} (l : list A) e d :
  e < length l -> nth_error l e = Some (nth e l d).
Proof. revert e; induction l; destruct e; simpl; intros; try lia; auto. apply IHl; lia. Qed.

Lemma nth_zipWith_in {A B C} (f : A -> B -> C) l l' e da db dc :
  e < length l -> e < length l' ->
  nth e (zipWith f l l') dc = f (nth e l da) (nth e l' db).
Proof.
  intros. rewrite (nth_as_error (zipWith f l l')), nth_error_zipWith.
  now rewrite (nth_error_in_range l da), (nth_error_in_range l' db).
Qed.

(** ** The numpy layer on operands of one shape *)

Section SameShape.
Context {K : Type} {SK : Scalar K}.

Lemma add_dim_times_same (v : varr K) (t : tarr K) :
  vshape v = tshape t ->
  add_dim_times v t =
  Ok (Tarr (tshape t) (twidth t) (zipWith (fun x r => map (smul x) r) (vdata v) (trows t))).
Proof.
  intros E. unfold add_dim_times. rewrite E, broadcast_shapes_same. simpl.
  now rewrite !stretch_same.
Qed.

Lemma tzip_same {A B C} (f : A -> B -> C) (a : tarr A) (b : tarr B) :
  tshape a = tshape b -> twidth a = twidth b ->
  tzip f a b = Ok (Tarr (tshape a) (twidth a) (zipWith (zipWith f) (trows a) (trows b))).
Proof.
  intros E W. unfold tzip. rewrite E, broadcast_shapes_same, W, Nat.eqb_refl. simpl.
  now rewrite !stretch_same, !map_wstretch_same.
Qed.

Lemma np_concatenate_pair {T} (a b : tarr T) :
  tshape a = tshape b ->
  np_concatenate [a; b] =
  Ok (Tarr (tshape a) (twidth a + twidth b) (zipWith (@app T) (trows a) (trows b))).
Proof. intros E. simpl. now rewrite E, oshape_eqb_refl. Qed.

Lemma test_or_broadcast_same {T} (a : tarr T) s b :
  tshape a = s -> _test_or_broadcast_ad a s b = Ok a.
Proof.
  intros <-. unfold _test_or_broadcast_ad. rewrite oshape_eqb_refl. now destruct b.
Qed.

Lemma tshape_eqb_true {T U} (a : tarr T) (b : tarr U) :
  tshape a = tshape b -> twidth a = twidth b -> tshape_eqb a b = true.
Proof. intros E W. unfold tshape_eqb. now rewrite E, W, oshape_eqb_refl, Nat.eqb_refl. Qed.

Lemma spAD2_new_ok (v : varr K) c1 i1 c2 ir ic b :
  tshape c1 = vshape v -> tshape i1 = vshape v -> tshape c2 = vshape v ->
  tshape ir = vshape v -> tshape ic = vshape v ->
  twidth i1 = twidth c1 -> twidth ir = twidth c2 -> twidth ic = twidth c2 ->
  spAD2_new v (Some c1) (Some i1) (Some c2) (Some ir) (Some ic) b
  = Ok (SpAD2 v c1 i1 c2 ir ic).
Proof.
  intros. unfold spAD2_new.
  rewrite (tshape_eqb_true c1 i1), (tshape_eqb_true c2 ir), (tshape_eqb_true c2 ic)
    by congruence.
  simpl. now rewrite !test_or_broadcast_same by assumption.
Qed.

End SameShape.

(** ** Outer products along the trailing axis *)

Lemma rep_prod {A B} (l : list A) (l' : list B) :
  flat_map (fun x => repeat x (length l')) l = map fst (list_prod l l').
Proof.
  induction l as [|x l IH]; simpl; auto.
  rewrite map_app, map_map, IH. simpl. f_equal.
  clear. induction l'; simpl; congruence.
Qed.

Lemma tile_prod {A B} (l : list A) (l' : list B) :
  concat (repeat l' (length l)) = map snd (list_prod l l').
Proof.
  induction l as [|x l IH]; simpl; auto.
  rewrite map_app, map_map, IH. simpl. f_equal.
  clear. induction l'; simpl; congruence.
Qed.

Lemma flat_map_repeat_map {A B} (f : A -> B) n l :
  flat_map (fun x => repeat x n) (map f l) = map f (flat_map (fun x => repeat x n) l).
Proof.
  induction l; simpl; auto. rewrite map_app, IHl. f_equal.
  clear. induction n; simpl; congruence.
Qed.

Lemma concat_repeat_map {A B} (f : A -> B) n l :
  concat (repeat (map f l) n) = map f (concat (repeat l n)).
Proof. induction n; simpl; auto. now rewrite map_app, IHn. Qed.

Lemma map_fst_combine_eq {A B} (l : list A) (l' : list B) :
  length l = length l' -> map fst (combine l l') = l.
Proof. revert l'; induction l; destruct l'; simpl; intros; try discriminate; auto. f_equal; auto. Qed.

Lemma map_snd_combine_eq {A B} (l : list A) (l' : list B) :
  length l = length l' -> map snd (combine l l') = l'.
Proof. revert l'; induction l; destruct l'; simpl; intros; try discriminate; auto. f_equal; auto. Qed.

Lemma zipWith_map_map {A B C D} (g : B -> C -> D) (f1 : A -> B) (f2 : A -> C) l :
  zipWith g (map f1 l) (map f2 l) = map (fun p => g (f1 p) (f2 p)) l.
Proof. induction l; simpl; congruence. Qed.

Lemma combine_map_map {A B C} (f1 : A -> B) (f2 : A -> C) l :
  combine (map f1 l) (map f2 l) = map (fun p => (f1 p, f2 p)) l.
Proof. induction l; simpl; congruence. Qed.

Lemma combine_map_l {A B C} (f : A -> C) (l : list A) (l' : list B) :
  combine (map f l) l' = map (fun p => (f (fst p), snd p)) (combine l l').
Proof. revert l'; induction l; destruct l'; simpl; auto. f_equal; auto. Qed.

Lemma combine_map_first {A A' B C} (f : A -> A') (l12 : list (A * B)) (l3 : list C) :
  combine (map (fun p => (f (fst p), snd p)) l12) l3
  = map (fun t => (f (fst (fst t)), snd (fst t), snd t)) (combine l12 l3).
Proof. revert l3; induction l12; destruct l3; simpl; auto. f_equal; auto. Qed.

(** The entries that [np.repeat] and [np.tile] line up are the ordered pairs of
    terms, the first factor varying slowest. *)
Lemma repeat_terms {A B C D} (c : list A) (i : list B) (c' : list C) (i' : list D) :
  length c = length i -> length c' = length i' ->
  flat_map (fun x => repeat x (length c')) c
  = map (fun p => fst (fst p)) (list_prod (combine c i) (combine c' i'))
  /\ flat_map (fun x => repeat x (length c')) i
  = map (fun p => snd (fst p)) (list_prod (combine c i) (combine c' i')).
Proof.
  intros Hc Hc'.
  assert (L : length (combine c' i') = length c') by (rewrite length_combine; lia).
  split.
  - rewrite <- (map_fst_combine_eq c i Hc) at 1.
    rewrite flat_map_repeat_map, <- L, rep_prod, map_map. reflexivity.
  - rewrite <- (map_snd_combine_eq c i Hc) at 1.
    rewrite flat_map_repeat_map, <- L, rep_prod, map_map. reflexivity.
Qed.

Lemma tile_terms {A B C D} (c : list A) (i : list B) (c' : list C) (i' : list D) :
  length c = length i -> length c' = length i' ->
  concat (repeat c' (length c))
  = map (fun p => fst (snd p)) (list_prod (combine c i) (combine c' i'))
  /\ concat (repeat i' (length c))
  = map (fun p => snd (snd p)) (list_prod (combine c i) (combine c' i')).
Proof.
  intros Hc Hc'.
  assert (L : length (combine c i) = length c) by (rewrite length_combine; lia).
  split.
  - rewrite <- (map_fst_combine_eq c' i' Hc') at 1.
    rewrite concat_repeat_map, <- L, tile_prod, map_map. reflexivity.
  - rewrite <- (map_snd_combine_eq c' i' Hc') at 1.
    rewrite concat_repeat_map, <- L, tile_prod, map_map. reflexivity.
Qed.

(** ** Well-formed arrays *)

Lemma nth_map_in {A B} (f : A -> B) l e d d' :
  e < length l -> nth e (map f l) d' = f (nth e l d).
Proof. revert e; induction l; destruct e; simpl; intros; try lia; auto. apply IHl; lia. Qed.

Lemma wf_t_row {T} (t : tarr T) e :
  wf_t t -> e < osize (tshape t) -> length (row t e) = twidth t.
Proof.
  intros [L F] He. unfold row. rewrite Forall_forall in F. apply F, nth_In. lia.
Qed.

Lemma wf_t_scaled {A T} (f : A -> T -> T) (v : varr A) (t : tarr T) :
  wf_v v -> wf_t t -> vshape v = tshape t ->
  wf_t (Tarr (tshape t) (twidth t) (zipWith (fun x r => map (f x) r) (vdata v) (trows t))).
Proof.
  intros Hv [L F] E. split; simpl.
  - rewrite zipWith_length, L. unfold wf_v in Hv. rewrite Hv, E. apply Nat.min_id.
  - apply Forall_zipWith. intros a b _ Hb. rewrite length_map.
    rewrite Forall_forall in F. now apply F.
Qed.

Lemma length_flat_map_repeat {T} (r : list T) n :
  length (flat_map (fun x => repeat x n) r) = length r * n.
Proof. induction r; simpl; auto. now rewrite length_app, repeat_length, IHr. Qed.

Lemma length_concat_repeat {T} (r : list T) n :
  length (concat (repeat r n)) = length r * n.
Proof. induction n; simpl; [lia|]. rewrite length_app, IHn. lia. Qed.

Lemma wf_t_repeat {T} (t : tarr T) n : wf_t t -> wf_t (np_repeat t n).
Proof.
  intros [L F]. split; simpl.
  - now rewrite length_map.
  - rewrite Forall_map. eapply Forall_impl; [|exact F].
    simpl. intros r Hr. now rewrite length_flat_map_repeat, Hr.
Qed.

Lemma wf_t_tile {T} (t : tarr T) n : wf_t t -> wf_t (np_tile t n).
Proof.
  intros [L F]. split; simpl.
  - now rewrite length_map.
  - rewrite Forall_map. eapply Forall_impl; [|exact F].
    simpl. intros r Hr. now rewrite length_concat_repeat, Hr.
Qed.

Lemma wf_t_zipped {A B C} (f : A -> B -> C) (a : tarr A) (b : tarr B) :
  wf_t a -> wf_t b -> tshape a = tshape b -> twidth a = twidth b ->
  wf_t (Tarr (tshape a) (twidth a) (zipWith (zipWith f) (trows a) (trows b))).
Proof.
  intros [La Fa] [Lb Fb] E W. split; simpl.
  - rewrite zipWith_length, La, Lb, E. apply Nat.min_id.
  - apply Forall_zipWith. intros x y Hx Hy. rewrite zipWith_length.
    rewrite Forall_forall in Fa, Fb. rewrite (Fa _ Hx), (Fb _ Hy), W. apply Nat.min_id.
Qed.

Lemma wf_t_appended {T} (a b : tarr T) :
  wf_t a -> wf_t b -> tshape a = tshape b ->
  wf_t (Tarr (tshape a) (twidth a + twidth b) (zipWith (@app T) (trows a) (trows b))).
Proof.
  intros [La Fa] [Lb Fb] E. split; simpl.
  - rewrite zipWith_length, La, Lb, E. apply Nat.min_id.
  - apply Forall_zipWith. intros x y Hx Hy. rewrite length_app.
    rewrite Forall_forall in Fa, Fb. now rewrite (Fa _ Hx), (Fb _ Hy).
Qed.

Lemma row_zipWith {A B C} (f : A -> list B -> list C) s w l (l' : list (list B)) e da :
  e < length l -> e < length l' ->
  row (Tarr s w (zipWith f l l')) e = f (nth e l da) (nth e l' []).
Proof. intros. unfold row. simpl. now apply nth_zipWith_in. Qed.

Lemma row_zipWith_rows {A B C} (f : list A -> list B -> list C) s w l l' e :
  e < length l -> e < length l' ->
  row (Tarr s w (zipWith f l l')) e = f (nth e l []) (nth e l' []).
Proof. intros. unfold row. simpl. now apply nth_zipWith_in. Qed.

(** ** The chain rule of [_math_helper] *)

Section MathHelper.
Context {K : Type} {SK : Scalar K}.

Lemma math_helper_chain_rule (self : spAD2) (a b c : varr K) :
  wf self -> wf_v a -> wf_v b -> wf_v c ->
  vshape a = vshape (value self) ->
  vshape b = vshape (value self) ->
  vshape c = vshape (value self) ->
  exists r,
    _math_helper self (a, b, c) = Ok r /\ wf r /\
    value r = a /\ index r = index self /\
    size_ad1 r = size_ad1 self /\
    size_ad2 r = size_ad2 self + size_ad1 self * size_ad1 self /\
    forall e, e < osize (vshape (value self)) ->
      terms1 r e = map (fun t => (smul (val b e) (fst t), snd t)) (terms1 self e) /\
      terms2 r e =
        map (fun t => (smul (val b e) (fst (fst t)), snd (fst t), snd t)) (terms2 self e)
        ++ map (fun p => (smul (val c e) (smul (fst (fst p)) (fst (snd p))),
                          snd (fst p), snd (snd p)))
             (list_prod (terms1 self e) (terms1 self e)).
Proof.
  intros W Ha Hb Hc Ea Eb Ec.
  destruct W as [Wv W1 Wi W2 Wr Wc S1 Si S2 Sr Sc X1 Xr Xc].
  set (n := osize (vshape (value self))) in *.
  unfold _math_helper.
  rewrite (add_dim_times_same b (coef1 self)) by congruence.
  rewrite (add_dim_times_same b (coef2 self)) by congruence.
  unfold tmul. rewrite tzip_same by reflexivity.
  cbn [rbind np_repeat np_tile tshape twidth trows].
  rewrite add_dim_times_same by (simpl; congruence).
  cbn [rbind tshape twidth trows]. unfold _concatenate.
  rewrite !np_concatenate_pair by (simpl; congruence).
  cbn [rbind tshape twidth trows].
  rewrite spAD2_new_ok by (simpl; congruence).
  eexists. split; [reflexivity|].
  assert (Wb1 := @wf_t_scaled _ _ smul b (coef1 self) Hb W1 ltac:(congruence)).
  assert (Wb2 := @wf_t_scaled _ _ smul b (coef2 self) Hb W2 ltac:(congruence)).
  assert (Wrt := @wf_t_zipped _ _ _ smul (np_repeat (coef1 self) (twidth (coef1 self)))
                   (np_tile (coef1 self) (twidth (coef1 self)))
                   (@wf_t_repeat _ _ _ W1) (@wf_t_tile _ _ _ W1) eq_refl eq_refl).
  cbn [np_repeat np_tile tshape twidth trows] in Wrt.
  assert (Wcrt := @wf_t_scaled _ _ smul c _ Hc Wrt ltac:(simpl; congruence)).
  cbn [tshape twidth trows] in Wcrt.
  assert (Wcc := @wf_t_appended _ _ _ Wb2 Wcrt ltac:(simpl; congruence)).
  assert (Wir := @wf_t_appended _ _ _ Wr (@wf_t_repeat _ _ (twidth (coef1 self)) Wi)
                   ltac:(simpl; congruence)).
  assert (Wic := @wf_t_appended _ _ _ Wc (@wf_t_tile _ _ (twidth (coef1 self)) Wi)
                   ltac:(simpl; congruence)).
  cbn [np_repeat np_tile tshape twidth trows] in Wcc, Wir, Wic.
  split; [|split; [reflexivity|split; [reflexivity|split; [reflexivity|split]]]].
  - constructor; cbn [value coef1 index coef2 index_row index_col tshape twidth];
      try assumption; try congruence.
    all: simpl; rewrite ?X1, ?Xr, ?Xc; reflexivity.
  - reflexivity.
  - intros e He.
    destruct W1 as [L1 F1], Wi as [Li Fi], W2 as [L2 F2], Wr as [Lr Fr], Wc as [Lc Fc].
    assert (Lb : length (vdata b) = n) by (unfold wf_v in Hb; rewrite Hb, Eb; reflexivity).
    assert (Lcv : length (vdata c) = n) by (unfold wf_v in Hc; rewrite Hc, Ec; reflexivity).
    rewrite S1 in L1. rewrite Si in Li. rewrite S2 in L2. rewrite Sr in Lr. rewrite Sc in Lc.
    fold n in L1, Li, L2, Lr, Lc.
    assert (R1 : length (row (coef1 self) e) = twidth (coef1 self))
      by (apply wf_t_row; [split; auto; rewrite S1; auto | rewrite S1; auto]).
    assert (Ri : length (row (index self) e) = twidth (coef1 self))
      by (rewrite <- X1; apply wf_t_row; [split; auto; rewrite Si; auto | rewrite Si; auto]).
    assert (R2 : length (row (coef2 self) e) = twidth (coef2 self))
      by (apply wf_t_row; [split; auto; rewrite S2; auto | rewrite S2; auto]).
    assert (Rr : length (row (index_row self) e) = twidth (coef2 self))
      by (rewrite <- Xr; apply wf_t_row; [split; auto; rewrite Sr; auto | rewrite Sr; auto]).
    assert (Rc : length (row (index_col self) e) = twidth (coef2 self))
      by (rewrite <- Xc; apply wf_t_row; [split; auto; rewrite Sc; auto | rewrite Sc; auto]).
    unfold terms1, terms2.
    cbn [value coef1 index coef2 index_row index_col np_repeat np_tile tshape twidth trows].
    split.
    + rewrite (row_zipWith _ _ _ _ _ s0) by lia.
      rewrite combine_map_l. reflexivity.
    + rewrite !row_zipWith_rows
        by (rewrite ?zipWith_length, ?length_map; lia).
      rewrite !(nth_zipWith_in _ _ _ s0 [] [])
        by (rewrite ?zipWith_length, ?length_map; lia).
      rewrite (nth_zipWith_in _ _ _ [] [] [])
        by (rewrite ?length_map; lia).
      rewrite !(nth_map_in _ _ []) by lia.
      fold (row (coef1 self) e) (row (index self) e) (row (coef2 self) e)
           (row (index_row self) e) (row (index_col self) e) (val b e) (val c e).
      rewrite !combine_app' by (repeat rewrite ?length_map, ?length_combine; lia).
      f_equal.
      * now rewrite combine_map_l, combine_map_first.
      * rewrite <- R1.
        destruct (repeat_terms (row (coef1 self) e) (row (index self) e)
                    (row (coef1 self) e) (row (index self) e)) as [Pc Pi]; try lia.
        destruct (tile_terms (row (coef1 self) e) (row (index self) e)
                    (row (coef1 self) e) (row (index self) e)) as [Qc Qi]; try lia.
        rewrite Pc, Pi, Qc, Qi.
        rewrite zipWith_map_map, map_map, !combine_map_map. reflexivity.
Qed.

End MathHelper.

Ltac solve_wf :=
  constructor; cbv [wf_v wf_t]; simpl;
  try reflexivity; try (split; [reflexivity | repeat constructor]).

Lemma math_helper_scalar_variable {K : Type} {SK : Scalar K} (v c1 a b c : K) (i : Z) :
  _math_helper
    (SpAD2 (Varr Sh0 [v]) (Tarr Sh0 1 [[c1]]) (Tarr Sh0 1 [[i]])
           (Tarr Sh0 0 [[]]) (Tarr Sh0 0 [[]]) (Tarr Sh0 0 [[]]))
    (Varr Sh0 [a], Varr Sh0 [b], Varr Sh0 [c])
  = Ok (SpAD2 (Varr Sh0 [a]) (Tarr Sh0 1 [[smul b c1]]) (Tarr Sh0 1 [[i]])
              (Tarr Sh0 1 [[smul c (smul c1 c1)]]) (Tarr Sh0 1 [[i]]) (Tarr Sh0 1 [[i]])).
Proof. reflexivity. Qed.

Lemma Rpower_4_half : Rpower 4 (1 / 2) = 2%R.
Proof.
  replace (1 / 2)%R with (/ 2)%R by lra.
  rewrite Rpower_sqrt by lra.
  replace 4%R with (2 * 2)%R by lra. apply sqrt_square. lra.
Qed.

Lemma sqrt_of_variable_4 :
  rbind (identity (Varr Sh0 [4%R]) (Varr Sh0 [0%Z])) spAD2_sqrt
  = Ok (SpAD2 (Varr Sh0 [2%R]) (Tarr Sh0 1 [[(/ 4)%R]]) (Tarr Sh0 1 [[0%Z]])
              (Tarr Sh0 1 [[(- / 32)%R]]) (Tarr Sh0 1 [[0%Z]]) (Tarr Sh0 1 [[0%Z]])).
Proof.
  change (identity (Varr Sh0 [4%R]) (Varr Sh0 [0%Z]))
    with (Ok (SpAD2 (Varr Sh0 [4%R]) (Tarr Sh0 1 [[s1]]) (Tarr Sh0 1 [[0%Z]])
                (Tarr Sh0 0 [[]]) (Tarr Sh0 0 [[]]) (Tarr Sh0 0 [[]]))).
  cbn [rbind]. unfold spAD2_sqrt, __pow__, pow2, vmap. cbn [value vshape vdata map].
  rewrite math_helper_scalar_variable. cbn [smul s1 Scalar_R].
  assert (P2 : Rpower 4 (1 / 2 - 1) = (/ 2)%R).
  { replace (1 / 2 - 1)%R with (- (1 / 2))%R by lra.
    now rewrite Rpower_Ropp, Rpower_4_half. }
  assert (P3 : Rpower 4 (1 / 2 - 2) = (/ 8)%R).
  { replace (1 / 2 - 2)%R with (- (1 + 1 / 2))%R by lra.
    rewrite Rpower_Ropp, Rpower_plus, Rpower_1, Rpower_4_half by lra.
    f_equal. lra. }
  rewrite Rpower_4_half, P2, P3.
  repeat f_equal; lra.
Qed.

(** C2.  For the triple [(a, b, c) = (f(x), f'(x), f''(x))] of any unary math
    function, [_math_helper] returns an array whose first-order terms are [b]
    times the existing ones with the indices unchanged, and whose second-order
    terms are [b] times the existing ones followed by [c] times the product of
    the coefficients of every ordered pair of first-order terms (self-pairs
    included) at the pair's two indices.  In particular the square root of the
    identity variable [x = 4] at index 0 has value 2, first-order coefficient
    1/4 at index 0 and second-order coefficient -1/32 at (0,0). *)
Theorem math_helper_chain_rule_and_sqrt :
  (forall (K : Type) (SK : Scalar K) (self : spAD2) (a b c : varr K),
      wf self -> wf_v a -> wf_v b -> wf_v c ->
      vshape a = vshape (value self) ->
      vshape b = vshape (value self) ->
      vshape c = vshape (value self) ->
      exists r,
        _math_helper self (a, b, c) = Ok r /\ wf r /\
        value r = a /\ index r = index self /\
        size_ad1 r = size_ad1 self /\
        size_ad2 r = size_ad2 self + size_ad1 self * size_ad1 self /\
        forall e, e < osize (vshape (value self)) ->
          terms1 r e = map (fun t => (smul (val b e) (fst t), snd t)) (terms1 self e) /\
          terms2 r e =
            map (fun t => (smul (val b e) (fst (fst t)), snd (fst t), snd t)) (terms2 self e)
            ++ map (fun p => (smul (val c e) (smul (fst (fst p)) (fst (snd p))),
                              snd (fst p), snd (snd p)))
                 (list_prod (terms1 self e) (terms1 self e)))
  /\ rbind (identity (Varr Sh0 [4%R]) (Varr Sh0 [0%Z])) spAD2_sqrt
     = Ok (SpAD2 (Varr Sh0 [2%R]) (Tarr Sh0 1 [[(/ 4)%R]]) (Tarr Sh0 1 [[0%Z]])
                 (Tarr Sh0 1 [[(- / 32)%R]]) (Tarr Sh0 1 [[0%Z]]) (Tarr Sh0 1 [[0%Z]])).
Proof.
  split.
  - intros. now apply math_helper_chain_rule.
  - exact sqrt_of_variable_4.
Qed.

Lemma math_helper_chain_rule_witness :
  exists r,
    _math_helper sample_product (Varr Sh0 [5%Q], Varr Sh0 [7%Q], Varr Sh0 [9%Q]) = Ok r /\
    terms2 r 0 =
      [((7 * 1)%Q, 0%Z, 1%Z); ((7 * 1)%Q, 1%Z, 0%Z);
       ((9 * (3 * 3))%Q, 0%Z, 0%Z); ((9 * (3 * 2))%Q, 0%Z, 1%Z);
       ((9 * (2 * 3))%Q, 1%Z, 0%Z); ((9 * (2 * 2))%Q, 1%Z, 1%Z)].
Proof.
  destruct (proj1 math_helper_chain_rule_and_sqrt Q _ sample_product
              (Varr Sh0 [5%Q]) (Varr Sh0 [7%Q]) (Varr Sh0 [9%Q]))
    as [r [Hr [_ [_ [_ [_ [_ Ht]]]]]]];
    try reflexivity; try solve_wf.
  exists r. split; [exact Hr|].
  destruct (Ht 0%nat) as [_ H2]; [simpl; lia|]. exact H2.
Defined.

(** ** The product of two AD arrays of one shape *)

Section Product.
Context {K : Type} {SK : Scalar K}.

Lemma wf_rows (x : spAD2 (K:=K)) e :
  wf x -> e < osize (vshape (value x)) ->
  length (row (coef1 x) e) = size_ad1 x /\ length (row (index x) e) = size_ad1 x /\
  length (row (coef2 x) e) = size_ad2 x /\ length (row (index_row x) e) = size_ad2 x /\
  length (row (index_col x) e) = size_ad2 x.
Proof.
  intros [Wv W1 Wi W2 Wr Wc S1 Si S2 Sr Sc X1 Xr Xc] He. unfold size_ad1, size_ad2.
  repeat split.
  - apply wf_t_row; auto; congruence.
  - rewrite <- X1. apply wf_t_row; auto; congruence.
  - apply wf_t_row; auto; congruence.
  - rewrite <- Xr. apply wf_t_row; auto; congruence.
  - rewrite <- Xc. apply wf_t_row; auto; congruence.
Qed.

Lemma wf_lengths (x : spAD2 (K:=K)) :
  wf x ->
  length (vdata (value x)) = osize (vshape (value x)) /\
  length (trows (coef1 x)) = osize (vshape (value x)) /\
  length (trows (index x)) = osize (vshape (value x)) /\
  length (trows (coef2 x)) = osize (vshape (value x)) /\
  length (trows (index_row x)) = osize (vshape (value x)) /\
  length (trows (index_col x)) = osize (vshape (value x)).
Proof.
  intros [Wv [L1 _] [Li _] [L2 _] [Lr _] [Lc _] S1 Si S2 Sr Sc _ _ _].
  repeat split; congruence.
Qed.

Lemma vzip_same {A B C} (f : A -> B -> C) (a : varr A) (b : varr B) :
  vshape a = vshape b ->
  vzip f a b = Ok (Varr (vshape a) (zipWith f (vdata a) (vdata b))).
Proof.
  intros E. unfold vzip. rewrite E, broadcast_shapes_same. simpl. now rewrite !stretch_same.
Qed.

Lemma broadcastable_refl s : broadcastable s s = true.
Proof. destruct s; simpl; auto. now rewrite Nat.eqb_refl. Qed.

Lemma np_broadcast_to_same {T} (t : tarr T) s W :
  tshape t = s -> twidth t = W -> np_broadcast_to t s W = Ok (Tarr s W (trows t)).
Proof.
  intros <- <-. unfold np_broadcast_to.
  now rewrite broadcastable_refl, Nat.eqb_refl, stretch_same, map_wstretch_same.
Qed.

Lemma np_concatenate_four {T} (a b c d : tarr T) :
  tshape b = tshape a -> tshape c = tshape a -> tshape d = tshape a ->
  np_concatenate [a; b; c; d] =
  Ok (Tarr (tshape a) (twidth a + (twidth b + (twidth c + twidth d)))
        (zipWith (@app T) (trows a)
           (zipWith (@app T) (trows b) (zipWith (@app T) (trows c) (trows d))))).
Proof.
  intros Eb Ec Ed. cbn [np_concatenate rbind].
  rewrite Ec, Ed, oshape_eqb_refl. cbn [rbind tshape].
  rewrite Eb, oshape_eqb_refl. cbn [rbind tshape twidth trows].
  now rewrite oshape_eqb_refl.
Qed.

Lemma mul_terms (a b : spAD2 (K:=K)) :
  wf a -> wf b -> vshape (value b) = vshape (value a) ->
  exists r,
    __mul__ a (OAD b) = Ok r /\
    vshape (value r) = vshape (value a) /\
    size_ad1 r = size_ad1 a + size_ad1 b /\
    size_ad2 r = size_ad2 a + (size_ad2 b + (size_ad1 a * size_ad1 b + size_ad1 a * size_ad1 b)) /\
    forall e, e < osize (vshape (value a)) ->
      val (value r) e = smul (val (value a) e) (val (value b) e) /\
      terms1 r e =
        map (fun t => (smul (val (value b) e) (fst t), snd t)) (terms1 a e)
        ++ map (fun t => (smul (val (value a) e) (fst t), snd t)) (terms1 b e) /\
      terms2 r e =
        map (fun t => (smul (val (value b) e) (fst (fst t)), snd (fst t), snd t)) (terms2 a e)
        ++ map (fun t => (smul (val (value a) e) (fst (fst t)), snd (fst t), snd t))
             (terms2 b e)
        ++ map (fun p => (smul (fst (fst p)) (fst (snd p)), snd (fst p), snd (snd p)))
             (list_prod (terms1 a e) (terms1 b e))
        ++ map (fun p => (smul (fst (fst p)) (fst (snd p)), snd (snd p), snd (fst p)))
             (list_prod (terms1 a e) (terms1 b e)).
Proof.
  intros Wa Wb E.
  pose proof (wf_lengths Wa) as (LaV & La1 & Lai & La2 & Lar & Lac).
  pose proof (wf_lengths Wb) as (LbV & Lb1 & Lbi & Lb2 & Lbr & Lbc).
  pose proof (fun e H => wf_rows (e:=e) Wa H) as Ra.
  pose proof (fun e H => wf_rows (e:=e) Wb H) as Rb.
  rewrite E in *.
  destruct Wa as [Wv W1 Wi W2 Wr Wc S1 Si S2 Sr Sc X1 Xr Xc].
  destruct Wb as [Wv' W1' Wi' W2' Wr' Wc' S1' Si' S2' Sr' Sc' X1' Xr' Xc'].
  unfold size_ad1, size_ad2 in *.
  set (n := osize (vshape (value a))) in *.
  unfold __mul__.
  rewrite vzip_same by congruence.
  rewrite (add_dim_times_same (value b) (coef1 a)) by congruence.
  rewrite (add_dim_times_same (value a) (coef1 b)) by congruence.
  cbn [rbind tshape twidth].
  rewrite (np_broadcast_to_same (index a)) by congruence.
  rewrite (np_broadcast_to_same (index b)) by congruence.
  rewrite (add_dim_times_same (value b) (coef2 a)) by congruence.
  rewrite (add_dim_times_same (value a) (coef2 b)) by congruence.
  cbn [rbind tshape twidth].
  rewrite (np_broadcast_to_same (index_row a)) by congruence.
  rewrite (np_broadcast_to_same (index_row b)) by congruence.
  rewrite (np_broadcast_to_same (index_col a)) by congruence.
  rewrite (np_broadcast_to_same (index_col b)) by congruence.
  unfold tmul. rewrite tzip_same by (simpl; try congruence; lia).
  cbn [rbind np_repeat np_tile tshape twidth trows].
  rewrite !np_broadcast_to_same by (simpl; try congruence; rewrite ?X1, ?X1'; lia).
  unfold _concatenate.
  rewrite !np_concatenate_pair by (simpl; congruence).
  cbn [rbind].
  rewrite np_concatenate_four by (simpl; congruence). cbn [rbind].
  rewrite np_concatenate_four by (simpl; congruence). cbn [rbind].
  rewrite np_concatenate_four by (simpl; congruence).
  cbn [rbind tshape twidth trows].
  rewrite spAD2_new_ok by (simpl; congruence).
  eexists. split; [reflexivity|].
  cbn [value coef1 index coef2 index_row index_col tshape twidth vshape].
  split; [reflexivity|]. split; [reflexivity|]. split; [reflexivity|].
  intros e He.
  destruct (Ra e He) as (A1 & Ai & A2 & Ar & Ac).
  destruct (Rb e He) as (B1 & Bi & B2 & Br & Bc).
  unfold terms1, terms2, val.
  cbn [value coef1 index coef2 index_row index_col vdata np_repeat np_tile trows].
  split; [|split].
  - apply nth_zipWith_in; lia.
  - rewrite !row_zipWith_rows by (rewrite ?zipWith_length; lia).
    rewrite !(nth_zipWith_in _ _ _ s0 [] []) by lia.
    fold (row (coef1 a) e) (row (coef1 b) e) (row (index a) e) (row (index b) e).
    rewrite combine_app' by (rewrite length_map; lia).
    now rewrite !combine_map_l.
  - rewrite !row_zipWith_rows by (rewrite ?zipWith_length, ?length_map; lia).
    rewrite !(nth_zipWith_in _ _ _ [] [] [])
      by (rewrite ?zipWith_length, ?length_map; lia).
    rewrite !(nth_zipWith_in _ _ _ s0 [] []) by lia.
    rewrite !(nth_map_in _ _ []) by lia.
    fold (row (coef1 a) e) (row (coef1 b) e) (row (index a) e) (row (index b) e)
         (row (coef2 a) e) (row (coef2 b) e) (row (index_row a) e) (row (index_row b) e)
         (row (index_col a) e) (row (index_col b) e).
    destruct (repeat_terms (row (coef1 a) e) (row (index a) e)
                (row (coef1 b) e) (row (index b) e)) as [Pc Pi]; try lia.
    destruct (tile_terms (row (coef1 a) e) (row (index a) e)
                (row (coef1 b) e) (row (index b) e)) as [Qc Qi]; try lia.
    rewrite <- A1, <- B1. rewrite Pc, Pi, Qc, Qi.
    rewrite zipWith_map_map.
    rewrite !combine_app'
      by (repeat rewrite ?length_app, ?length_map, ?length_combine; lia).
    rewrite !combine_map_map, !combine_map_l. reflexivity.
Qed.

End Product.

(** C1.  The product of the identity scalars with values 2 and 3 at the global
    indices 0 and 1 has value 6 and first-order terms (3,0), (2,1); after
    [simplify_ad] its non-zero second-order entries are exactly the
    coefficient 1 at (0,1) and the coefficient 1 at (1,0).  In general the
    product of two AD arrays of one shape carries, after the scaled
    second-order terms of both operands, the outer product of their first-order
    terms twice: once at (i,j) and once at (j,i). *)
Theorem product_emits_both_orders :
  (exists p,
      scenario1_product = Ok p /\
      val (value p) 0 = 6%Q /\
      terms1 p 0 = [(3%Q, 0%Z); (2%Q, 1%Z)] /\
      exists p', simplify_ad p = (Ok tt, p') /\
        value p' = value p /\
        nonzero_terms2 p' 0 = [(1%Q, 0%Z, 1%Z); (1%Q, 1%Z, 0%Z)])
  /\ (forall (K : Type) (SK : Scalar K) (a b : spAD2 (K:=K)),
      wf a -> wf b -> vshape (value b) = vshape (value a) ->
      exists r,
        __mul__ a (OAD b) = Ok r /\
        forall e, e < osize (vshape (value a)) ->
          terms2 r e =
            map (fun t => (smul (val (value b) e) (fst (fst t)), snd (fst t), snd t))
              (terms2 a e)
            ++ map (fun t => (smul (val (value a) e) (fst (fst t)), snd (fst t), snd t))
                 (terms2 b e)
            ++ map (fun p => (smul (fst (fst p)) (fst (snd p)), snd (fst p), snd (snd p)))
                 (list_prod (terms1 a e) (terms1 b e))
            ++ map (fun p => (smul (fst (fst p)) (fst (snd p)), snd (snd p), snd (fst p)))
                 (list_prod (terms1 a e) (terms1 b e))).
Proof.
  split.
  - exists sample_product. split; [reflexivity|]. split; [reflexivity|].
    split; [reflexivity|].
    exists sample_product. repeat split; reflexivity.
  - intros K SK a b Wa Wb E.
    destruct (mul_terms Wa Wb E) as (r & Hr & _ & _ & _ & Ht).
    exists r. split; [exact Hr|]. intros e He. now destruct (Ht e He) as (_ & _ & H2).
Qed.

Lemma product_emits_both_orders_witness :
  exists r,
    __mul__ sample_product (OAD sample_product) = Ok r /\
    length (terms2 r 0) = 12.
Proof.
  destruct (proj2 product_emits_both_orders Q _ sample_product sample_product)
    as (r & Hr & Ht); try reflexivity; try solve_wf.
  exists r. split; [exact Hr|].
  rewrite (Ht 0%nat) by (simpl; lia). reflexivity.
Defined.

(** ** Simplification: where it is defined, and the combined key *)

Lemma fold_max_init (l : list Z) (x : Z) : (x <= fold_left Z.max l x)%Z.
Proof.
  revert x; induction l as [|a l IH]; simpl; intros; [lia|].
  specialize (IH (Z.max x a)). lia.
Qed.

Lemma fold_max_ge (l : list Z) (x c : Z) : In c l -> (c <= fold_left Z.max l x)%Z.
Proof.
  revert x; induction l as [|a l IH]; simpl; intros x H; [contradiction|].
  destruct H as [->|H].
  - pose proof (fold_max_init l (Z.max x c)). lia.
  - now apply IH.
Qed.

Lemma np_max_bound (t : tarr Z) m r c :
  np_max t = Ok m -> In r (trows t) -> In c r -> (c <= m)%Z.
Proof.
  unfold np_max. intros H Hr Hc.
  assert (Hin : In c (concat (trows t))) by (apply in_concat; eauto).
  destruct (concat (trows t)) as [|x l]; [contradiction|].
  inversion H; subst. destruct Hin as [->|Hin].
  - apply fold_max_init.
  - now apply fold_max_ge.
Qed.




Section SimplifyFacts.
Context {K : Type} {SK : Scalar K}.

Lemma Sparse_spAD_new_ok (v : varr K) (c : tarr K) (i : tarr Z) :
  tshape c = vshape v -> tshape i = vshape v -> twidth i = twidth c ->
  Sparse_spAD_new v c i = Ok (SpAD v c i).
Proof.
  intros Ec Ei W. unfold Sparse_spAD_new.
  rewrite tshape_eqb_true by congruence. cbn [py_assert rbind].
  now rewrite !test_or_broadcast_same by assumption.
Qed.





Lemma identity_ok (values : varr K) (indices : varr Z) :
  vshape indices = vshape values ->
  identity values indices =
  Ok (SpAD2 values
        (Tarr (vshape values) 1 (map (fun _ => [s1]) (vdata values)))
        (Tarr (vshape indices) 1 (map (fun i => [i]) (vdata indices)))
        (np_full0 K (vshape values)) (np_full0 Z (vshape values))
        (np_full0 Z (vshape values))).
Proof.
  intros E. unfold identity, Sparse_identity.
  rewrite <- E, oshape_eqb_refl. cbn [py_assert rbind].
  rewrite Sparse_spAD_new_ok by (simpl; congruence).
  cbn [rbind sp_value sp_coef sp_index].
  rewrite spAD2_new_ok by (simpl; congruence). now rewrite ?E.
Qed.

Lemma identity_shapes (values : varr K) (indices : varr Z) x :
  identity values indices = Ok x -> vshape indices = vshape values.
Proof.
  unfold identity, Sparse_identity. intros H.
  destruct (oshape_eqb (vshape values) (vshape indices)) eqn:E.
  - apply oshape_eqb_eq in E. congruence.
  - discriminate.
Qed.

Lemma wf_t_full0 T s : wf_t (np_full0 T s).
Proof.
  split; simpl.
  - apply repeat_length.
  - apply Forall_forall. intros r Hr. apply repeat_spec in Hr. now subst.
Qed.

Lemma identity_wf (values : varr K) (indices : varr Z) x :
  wf_v values -> wf_v indices -> identity values indices = Ok x ->
  wf x /\ size_ad1 x = 1 /\ size_ad2 x = 0.
Proof.
  intros Hv Hi H. pose proof (identity_shapes _ _ H) as E.
  rewrite identity_ok in H by assumption. inversion H; subst; clear H.
  unfold size_ad1, size_ad2. simpl. split; [|auto].
  unfold wf_v in *.
  constructor; simpl; auto using wf_t_full0.
  - split; simpl; [now rewrite length_map|].
    apply Forall_forall. intros r Hr. apply in_map_iff in Hr.
    destruct Hr as (? & <- & _). reflexivity.
  - split; simpl; [now rewrite length_map|].
    apply Forall_forall. intros r Hr. apply in_map_iff in Hr.
    destruct Hr as (? & <- & _). reflexivity.
Qed.

End SimplifyFacts.



Lemma row_map_rows {A B} (f : A -> B) s w (L : list (list A)) e :
  row (Tarr s w (map (map f) L)) e = map f (nth e L []).
Proof. unfold row. simpl. exact (map_nth (map f) L [] e). Qed.

Lemma nth_map_rows {A B} (f : A -> B) (L : list (list A)) e :
  nth e (map (map f) L) [] = map f (nth e L []).
Proof. exact (map_nth (map f) L [] e). Qed.

(** *** Keys in 64-bit arithmetic *)

Lemma wrap64_fits (z : Z) : in_int64 z -> wrap64 z = z.
Proof.
  unfold in_int64, wrap64. intros H. rewrite Z.mod_small by lia. lia.
Qed.

Lemma wrap64_add_l (a b : Z) : wrap64 (wrap64 a + b) = wrap64 (a + b).
Proof.
  unfold wrap64. f_equal.
  replace ((a + 2 ^ 63) mod 2 ^ 64 - 2 ^ 63 + b + 2 ^ 63)%Z
    with ((a + 2 ^ 63) mod 2 ^ 64 + b)%Z by lia.
  rewrite Zplus_mod_idemp_l. f_equal. lia.
Qed.

Lemma int64_key_fits (r c m : Z) :
  in_int64 (1 + m) -> in_int64 (r * (1 + m) + c) ->
  int64_add (int64_mul r (int64_add 1 m)) c = (r * (1 + m) + c)%Z.
Proof.
  intros Hm Hk. unfold int64_add, int64_mul.
  rewrite (@wrap64_fits (1 + m) Hm), wrap64_add_l. now apply wrap64_fits.
Qed.

Lemma zipWith_ext_combine {A B C} (f g : A -> B -> C) (l : list A) (l' : list B) :
  (forall a b, In (a, b) (combine l l') -> f a b = g a b) ->
  zipWith f l l' = zipWith g l l'.
Proof.
  revert l'; induction l as [|a l IH]; intros [|b l'] H; simpl; auto.
  rewrite (H a b) by now left. f_equal. apply IH. intros; apply H; now right.
Qed.

Lemma zipWith_map_first {A A' B C} (f : A -> B -> C) (g : A' -> A) l l' :
  zipWith f (map g l) l' = zipWith (fun a b => f (g a) b) l l'.
Proof. revert l'; induction l; destruct l'; simpl; congruence. Qed.

Lemma in_combine_rows {A B} (L : list (list A)) (L' : list (list B)) ra rb :
  In (ra, rb) (combine L L') -> exists e, ra = nth e L [] /\ rb = nth e L' [].
Proof.
  revert L'; induction L as [|a L IH]; intros [|b L'] H; simpl in H; try contradiction.
  destruct H as [E|H].
  - inversion E; subst. now exists 0.
  - destruct (IH _ H) as (e & E1 & E2). now exists (S e).
Qed.

Section SimplifyDefined.
Context {K : Type} {SK : Scalar K}.

Lemma combined_keys_exact (x : spAD2 (K:=K)) m :
  keys_fit x m -> combined_keys x (int64_add 1 m) = exact_keys x (1 + m).
Proof.
  intros [Hm Hk]. unfold combined_keys, exact_keys. f_equal.
  rewrite !zipWith_map_first. apply zipWith_ext_combine. intros rr rc Hrows.
  destruct (@in_combine_rows _ _ _ _ _ _ Hrows) as (e & -> & ->).
  rewrite !zipWith_map_first. apply zipWith_ext_combine. intros r c Hrc.
  apply int64_key_fits; [exact Hm|]. exact (Hk e r c Hrc).
Qed.

Lemma simplified_fits (x : spAD2 (K:=K)) m :
  keys_fit x m -> simplified x m = simplified_exact x m.
Proof.
  intros H. unfold simplified, simplified_exact.
  rewrite (combined_keys_exact H). unfold int64_add.
  now rewrite (@wrap64_fits (1 + m) (proj1 H)).
Qed.

Lemma simplify_ad_ok (x : spAD2 (K:=K)) m :
  wf x -> np_max (index_col x) = Ok m -> simplify_ad x = (Ok tt, simplified x m).
Proof.
  intros W Hm. destruct W as [Wv W1 Wi W2 Wr Wc S1 Si S2 Sr Sc X1 Xr Xc].
  unfold simplify_ad, mbind, get, lift, set_coef1, set_index, set_coef2,
    set_index_row, set_index_col.
  rewrite Sparse_spAD_new_ok by assumption.
  cbn [value coef1 index coef2 index_row index_col].
  rewrite Hm.
  rewrite tzip_same by (simpl; congruence).
  cbn [tmap tshape twidth trows].
  rewrite Sparse_spAD_new_ok by (simpl; congruence).
  reflexivity.
Qed.


End SimplifyDefined.




(** C5 at its failing input.  The product of Scenario 1 scaled by [0.0] has two
    second-order entries, both with coefficient zero.  [simplify_ad] is defined
    on it and leaves the value unchanged, but it drops both entries, and on the
    resulting array of second-order width zero a second [simplify_ad] raises:
    [simplify(simplify(x))] is not [simplify(x)]. *)
Theorem simplify_ad_twice_raises :
  scaled_to_zero = Ok zero_product /\ size_ad2 zero_product = 2 /\
  simplify_ad zero_product = (Ok tt, zero_product_simplified) /\
  value zero_product_simplified = value zero_product /\
  size_ad2 zero_product_simplified = 0 /\
  simplify_ad zero_product_simplified = (Raise ValueError, zero_product_simplified).
Proof. repeat split; vm_compute; reflexivity. Qed.

(** ** The simplified array is well formed *)

Lemma length_le_max {T} (L : list (list T)) r :
  In r L -> length r <= fold_right Nat.max 0 (map (@length T) L).
Proof.
  induction L as [|r' L IH]; simpl; [contradiction|].
  intros [->|H]; [lia|]. specialize (IH H). lia.
Qed.

Section SimplifiedShape.
Context {K : Type} {SK : Scalar K}.

Lemma Sparse_simplify_ad_rows (x : Sparse_spAD) :
  Sparse_simplify_ad x =
  let L := zipWith simplify_row (trows (sp_coef x)) (trows (sp_index x)) in
  let w := fold_right Nat.max 0 (map (@length (K * Z)) L) in
  SpAD (sp_value x) (Tarr (tshape (sp_coef x)) w (map (map fst) (pad_rows L)))
       (Tarr (tshape (sp_index x)) w (map (map snd) (pad_rows L))).
Proof. reflexivity. Qed.

Lemma wf_t_padded {T} (f : K * Z -> T) s (L : list (list (K * Z))) :
  length L = osize s ->
  wf_t (Tarr s (fold_right Nat.max 0 (map (@length (K * Z)) L)) (map (map f) (pad_rows L))).
Proof.
  intros HL. split; simpl.
  - unfold pad_rows. now rewrite !length_map.
  - apply Forall_forall. intros r Hr. unfold pad_rows in Hr.
    apply in_map_iff in Hr. destruct Hr as (r' & <- & Hr).
    apply in_map_iff in Hr. destruct Hr as (r0 & <- & Hr).
    rewrite length_map, length_app, repeat_length.
    pose proof (length_le_max _ _ Hr). lia.
Qed.

Lemma wf_t_tmap {A B} (f : A -> B) (t : tarr A) : wf_t t -> wf_t (tmap f t).
Proof.
  intros [L F]. split; simpl.
  - now rewrite length_map.
  - apply Forall_forall. intros r Hr. apply in_map_iff in Hr.
    destruct Hr as (r' & <- & Hr). rewrite length_map.
    rewrite Forall_forall in F. now apply F.
Qed.

Lemma simplified_exact_wf (x : spAD2 (K:=K)) m : wf x -> wf (simplified_exact x m).
Proof.
  intros W. pose proof (wf_lengths W) as (LV & L1 & Li & L2 & Lr & Lc).
  destruct W as [Wv W1 Wi W2 Wr Wc S1 Si S2 Sr Sc X1 Xr Xc].
  assert (Lk : forall n, length (trows (exact_keys x n)) = osize (vshape (value x))).
  { intros n. unfold exact_keys. simpl. rewrite zipWith_length, length_map. lia. }
  unfold simplified_exact. rewrite !Sparse_simplify_ad_rows.
  cbn [sp_value sp_coef sp_index].
  constructor; cbn [value coef1 index coef2 index_row index_col tmap tshape twidth trows];
    try assumption; try reflexivity; try congruence.
  - rewrite S1. apply wf_t_padded. rewrite zipWith_length. lia.
  - rewrite Si. apply wf_t_padded. rewrite zipWith_length. lia.
  - rewrite S2. apply wf_t_padded. rewrite zipWith_length, Lk. lia.
  - apply wf_t_tmap.
    replace (tshape (exact_keys x (1 + m))) with (vshape (value x))
      by (unfold exact_keys; simpl; congruence).
    apply wf_t_padded. rewrite zipWith_length, Lk. lia.
  - apply wf_t_tmap.
    replace (tshape (exact_keys x (1 + m))) with (vshape (value x))
      by (unfold exact_keys; simpl; congruence).
    apply wf_t_padded. rewrite zipWith_length, Lk. lia.
Qed.

End SimplifiedShape.

(** ** Dense conversion *)

Lemma fold_max_shift (l : list Z) (x y : Z) :
  fold_left Z.max l (Z.max x y) = Z.max y (fold_left Z.max l x).
Proof.
  revert x; induction l as [|a l IH]; simpl; intros x; [lia|].
  replace (Z.max (Z.max x y) a) with (Z.max (Z.max x a) y) by lia. apply IH.
Qed.

Lemma fold_max_app (l l' : list Z) (x : Z) :
  fold_left Z.max (l ++ l') x = Z.max (fold_left Z.max l x) (fold_left Z.max l' x).
Proof.
  rewrite fold_left_app.
  pose proof (fold_max_init l x) as I.
  replace (fold_left Z.max l x) with (Z.max x (fold_left Z.max l x)) at 1 by lia.
  apply fold_max_shift.
Qed.

Lemma list_set_length {T} p (v : T) l : length (list_set p v l) = length l.
Proof. revert p; induction l; destruct p; simpl; auto. Qed.

Lemma nth_list_set {T} p (v : T) l j d :
  p < length l -> nth j (list_set p v l) d = if j =? p then v else nth j l d.
Proof.
  revert p j; induction l as [|a l IH]; simpl; intros p j Hp; [lia|].
  destruct p, j; simpl; auto. apply IH. lia.
Qed.

Lemma axis_pos_in_range d i :
  (0 <= i < Z.of_nat d)%Z -> axis_pos d i = Ok (Z.to_nat i).
Proof.
  intros H. unfold axis_pos.
  destruct (Z.leb_spec 0 i); [|lia]. destruct (Z.ltb_spec i (Z.of_nat d)); [|lia].
  reflexivity.
Qed.


Lemma heads_tails {T} (w : nat) (C : list (list T)) :
  Forall (fun r => length r = S w) C ->
  length (heads C) = length C /\ Forall (fun r => length r = w) (map (@tl T) C).
Proof.
  induction 1 as [|r C Hr _ [IH1 IH2]]; simpl; auto.
  destruct r as [|x r]; [discriminate|]. simpl in *. split; [lia|]. constructor; auto; lia.
Qed.

Lemma Forall_heads_tails {T} (P : T -> Prop) (w : nat) (I : list (list T)) :
  Forall (fun r => length r = S w) I ->
  (Forall (Forall P) I <-> Forall P (heads I) /\ Forall (Forall P) (map (@tl T) I)).
Proof.
  induction 1 as [|r I Hr _ IH]; simpl.
  - split; auto.
  - destruct r as [|x r]; [discriminate|]. simpl. split.
    + intros H. inversion H as [|? ? Hxr HI]; subst. inversion Hxr; subst.
      apply IH in HI. destruct HI. split; constructor; auto.
    + intros [H1 H2]. inversion H1; subst. inversion H2; subst.
      constructor; [constructor; auto|]. apply IH. auto.
Qed.


Section Scatter.
Context {K : Type} {SK : Scalar K}.

Lemma put_length (row : list K) t : length (put row t) = length row.
Proof. apply list_set_length. Qed.

Lemma accumulate_in_range (row : list K) c i :
  (0 <= i < Z.of_nat (length row))%Z -> accumulate row c i = Ok (put row (c, i)).
Proof. intros H. unfold accumulate, put. now rewrite axis_pos_in_range. Qed.


Lemma accumulate_cells_spec d (R : list (list K)) cs ids :
  length cs = length R -> length ids = length R ->
  Forall (fun r => length r = d) R ->
  Forall (fun i => (0 <= i < Z.of_nat d)%Z) ids ->
  accumulate_cells R cs ids = Ok (zipWith put R (combine cs ids)).
Proof.
  revert cs ids; induction R as [|r R IH]; intros [|c cs] [|i ids]; simpl;
    intros Lc Li FR FI; try discriminate; auto.
  inversion FR; subst. inversion FI; subst.
  rewrite accumulate_in_range by assumption. simpl.
  rewrite IH by (auto; lia). reflexivity.
Qed.


Lemma Forall_put d (R : list (list K)) (l : list (K * Z)) :
  Forall (fun r => length r = d) R -> Forall (fun r => length r = d) (zipWith put R l).
Proof.
  intros F. revert l; induction F as [|r R Hr _ IH]; intros [|t l]; simpl; constructor.
  - now rewrite put_length.
  - apply IH.
Qed.

Lemma put_all_step w (R : list (list K)) (C : list (list K)) (I : list (list Z)) :
  Forall (fun r => length r = S w) C -> Forall (fun r => length r = S w) I ->
  length C = length R -> length I = length R ->
  zipWith put_all (zipWith put R (combine (heads C) (heads I)))
    (combine (map (@tl K) C) (map (@tl Z) I))
  = zipWith put_all R (combine C I).
Proof.
  revert C I; induction R as [|r R IH]; intros [|c C] [|i I]; simpl;
    intros FC FI Lc Li; try discriminate; auto.
  inversion FC; subst. inversion FI; subst.
  destruct c as [|hc c]; [discriminate|]. destruct i as [|hi i]; [discriminate|].
  simpl. f_equal. apply IH; auto.
Qed.

Lemma put_all_nil (R : list (list K)) (C : list (list K)) (I : list (list Z)) :
  Forall (fun r => length r = 0) C ->
  length C = length R -> length I = length R ->
  zipWith put_all R (combine C I) = R.
Proof.
  revert C I; induction R as [|r R IH]; intros [|c C] [|i I]; simpl;
    intros FC Lc Li; try discriminate; auto.
  inversion FC as [|? ? Hc FC']; subst. apply length_zero_iff_nil in Hc. subst.
  f_equal. apply IH; auto.
Qed.

Lemma scatter_spec w d (R : list (list K)) (C : list (list K)) (I : list (list Z)) :
  length C = length R -> length I = length R ->
  Forall (fun r => length r = w) C -> Forall (fun r => length r = w) I ->
  Forall (fun r => length r = d) R ->
  Forall (Forall (fun i => (0 <= i < Z.of_nat d)%Z)) I ->
  scatter R (combine (columns w C) (columns w I))
  = Ok (zipWith put_all R (combine C I)).
Proof.
  revert R C I; induction w as [|w IH]; intros R C I Lc Li FC FI FR Hin.
  - simpl. now rewrite put_all_nil.
  - cbn [columns combine scatter].
    destruct (heads_tails FC) as [HC TC]. destruct (heads_tails FI) as [HI TI].
    apply (Forall_heads_tails _ FI) in Hin. destruct Hin as [Hh Ht].
    rewrite (accumulate_cells_spec (d:=d)) by (auto; lia).
    cbn [rbind].
    rewrite IH; auto.
    + now rewrite (put_all_step (w:=w)).
    + rewrite length_map, zipWith_length, length_combine. lia.
    + rewrite length_map, zipWith_length, length_combine. lia.
    + now apply Forall_put.
Qed.


End Scatter.

Lemma fold_left_map_list {A B C} (f : A -> B -> A) (g : C -> B) l a :
  fold_left f (map g l) a = fold_left (fun a x => f a (g x)) l a.
Proof. revert a; induction l; simpl; auto. Qed.

Lemma fold_left_ext_in {A B} (f g : A -> B -> A) l a :
  (forall a x, In x l -> f a x = g a x) -> fold_left f l a = fold_left g l a.
Proof.
  revert a; induction l as [|x l IH]; simpl; intros a H; auto.
  rewrite H by auto. apply IH. intros; apply H; auto.
Qed.

Lemma nth_firstn_lt {T} (l : list T) d c x : c < d -> nth c (firstn d l) x = nth c l x.
Proof.
  revert d c; induction l as [|a l IH]; intros [|d] [|c] H; simpl; auto; try lia.
  apply IH. lia.
Qed.

Lemma nth_skipn_add {T} (l : list T) d c x : nth c (skipn d l) x = nth (d + c) l x.
Proof.
  revert l; induction d as [|d IH]; intros [|a l]; simpl; auto. now destruct c.
Qed.

Lemma nth_chunks {T} (x : T) n d l r c :
  r < n -> c < d -> nth c (nth r (chunks d n l) []) x = nth (r * d + c) l x.
Proof.
  revert l r; induction n as [|n IH]; intros l r Hr Hc; [lia|].
  destruct r as [|r]; simpl.
  - now apply nth_firstn_lt.
  - rewrite IH by lia. rewrite nth_skipn_add. f_equal. lia.
Qed.

Lemma combine3_keys {A} (c : list A) (ir ic : list Z) (d : Z) :
  combine c (zipWith Z.add (map (fun r => (r * d)%Z) ir) ic)
  = map (fun t => (fst (fst t), (snd (fst t) * d + snd t)%Z)) (combine (combine c ir) ic).
Proof.
  revert ir ic; induction c as [|a c IH]; intros [|r ir] [|k ic]; simpl; auto.
  f_equal. apply IH.
Qed.

Section DenseReading.
Context {K : Type} {SK : Scalar K}.

Lemma nth_put_all (terms : list (K * Z)) (r : list K) j :
  Forall (fun t => (0 <= snd t < Z.of_nat (length r))%Z) terms ->
  nth j (fold_left put terms r) s0
  = fold_left (fun acc t => if (snd t =? Z.of_nat j)%Z then sadd acc (fst t) else acc)
      terms (nth j r s0).
Proof.
  revert r; induction terms as [|t terms IH]; simpl; intros r F; auto.
  inversion F as [|? ? Ht F']; subst.
  rewrite IH by (rewrite put_length; exact F').
  f_equal. unfold put. rewrite nth_list_set by lia.
  destruct (Z.eqb_spec (snd t) (Z.of_nat j)) as [E|N].
  - rewrite E, Nat2Z.id, Nat.eqb_refl. reflexivity.
  - destruct (Nat.eqb_spec j (Z.to_nat (snd t))) as [E|_]; [|reflexivity].
    exfalso. apply N. subst j. rewrite Z2Nat.id; lia.
Qed.

Lemma sum_at2_keys (l : list (K * Z * Z)) (d : Z) (r c : nat) :
  (Z.of_nat r < d)%Z -> (Z.of_nat c < d)%Z ->
  Forall (fun t => (0 <= snd (fst t) < d)%Z /\ (0 <= snd t < d)%Z) l ->
  fold_left (fun acc t => if (snd t =? Z.of_nat (r * Z.to_nat d + c))%Z
                          then sadd acc (fst t) else acc)
    (map (fun t => (fst (fst t), (snd (fst t) * d + snd t)%Z)) l) s0
  = sum_at2 l (Z.of_nat r) (Z.of_nat c).
Proof.
  intros Hr Hc F. unfold sum_at2. rewrite fold_left_map_list.
  apply fold_left_ext_in. intros a t Ht. cbn [fst snd].
  rewrite Forall_forall in F. destruct (F t Ht) as [B1 B2].
  replace (Z.of_nat (r * Z.to_nat d + c)) with (Z.of_nat r * d + Z.of_nat c)%Z
    by (rewrite Nat2Z.inj_add, Nat2Z.inj_mul, Z2Nat.id; lia).
  destruct (Z.eqb_spec (snd (fst t)) (Z.of_nat r)) as [E1|N1];
    destruct (Z.eqb_spec (snd t) (Z.of_nat c)) as [E2|N2]; cbn [andb].
  - rewrite E1, E2, Z.eqb_refl. reflexivity.
  - destruct (Z.eqb_spec (snd (fst t) * d + snd t) (Z.of_nat r * d + Z.of_nat c));
      [exfalso; nia | reflexivity].
  - destruct (Z.eqb_spec (snd (fst t) * d + snd t) (Z.of_nat r * d + Z.of_nat c));
      [exfalso; nia | reflexivity].
  - destruct (Z.eqb_spec (snd (fst t) * d + snd t) (Z.of_nat r * d + Z.of_nat c));
      [exfalso; nia | reflexivity].
Qed.

End DenseReading.

Section ToDense.
Context {K : Type} {SK : Scalar K}.

Lemma np_zeros_ok s (d : Z) :
  (0 <= d)%Z ->
  np_zeros s d = Ok (Tarr s (Z.to_nat d) (repeat (repeat s0 (Z.to_nat d)) (osize s))).
Proof. intros H. unfold np_zeros. destruct (Z.ltb_spec d 0); [lia|reflexivity]. Qed.

Lemma in_row_all (t : tarr Z) e i : In i (row t e) -> In i (concat (trows t)).
Proof.
  unfold row. intros H. apply in_concat. exists (nth e (trows t) []). split; auto.
  destruct (Nat.lt_ge_cases e (length (trows t))) as [L|G].
  - now apply nth_In.
  - rewrite nth_overflow in H by assumption. contradiction.
Qed.

Lemma Forall_zeros (d n : nat) : Forall (fun r : list K => length r = d) (repeat (repeat s0 d) n).
Proof. apply Forall_forall. intros r Hr. apply repeat_spec in Hr. subst. apply repeat_length. Qed.

Lemma to_dense_reading (x : spAD2 (K:=K)) (d : Z) :
  wf x -> (0 <= d)%Z ->
  (forall i, In i (all_indices x) -> (0 <= i < d)%Z) ->
  exists D,
    to_dense x (Some d) = Ok D /\
    d2_value D = value x /\
    tshape (d2_coef1 D) = vshape (value x) /\
    twidth (d2_coef1 D) = Z.to_nat d /\
    d2_size D = Z.to_nat d /\
    forall e, e < osize (vshape (value x)) ->
      (forall j, j < Z.to_nat d ->
         nth j (row (d2_coef1 D) e) s0 = sum_at (terms1 x e) (Z.of_nat j)) /\
      (forall r c, r < Z.to_nat d -> c < Z.to_nat d ->
         hessian_at D e r c = sum_at2 (terms2 x e) (Z.of_nat r) (Z.of_nat c)).
Proof.
  intros W Hd Hin.
  pose proof (wf_lengths W) as (LV & L1 & Li & L2 & Lr & Lc).
  pose proof (fun e H => wf_rows (e:=e) W H) as Rw.
  destruct W as [Wv W1 Wi W2 Wr Wc S1 Si S2 Sr Sc X1 Xr Xc].
  set (n := osize (vshape (value x))) in *.
  set (dz := Z.to_nat d).
  assert (Hdz : Z.of_nat dz = d) by (apply Z2Nat.id; exact Hd).
  assert (In1 : forall r, In r (trows (index x)) -> forall i, In i r -> (0 <= i < d)%Z).
  { intros r Hr i Hi. apply Hin. unfold all_indices. apply in_or_app. left.
    apply in_concat. eauto. }
  assert (Inr : forall r, In r (trows (index_row x)) -> forall i, In i r -> (0 <= i < d)%Z).
  { intros r Hr i Hi. apply Hin. unfold all_indices. apply in_or_app. right.
    apply in_or_app. left. apply in_concat. eauto. }
  assert (Inc : forall r, In r (trows (index_col x)) -> forall i, In i r -> (0 <= i < d)%Z).
  { intros r Hr i Hi. apply Hin. unfold all_indices. apply in_or_app. right.
    apply in_or_app. right. apply in_concat. eauto. }
  unfold to_dense.
  rewrite np_zeros_ok by assumption. cbn [rbind trows]. fold n dz.
  unfold mvax. rewrite X1.
  rewrite (scatter_spec (d:=dz)); cycle 1.
  { rewrite repeat_length. lia. }
  { rewrite repeat_length. lia. }
  { apply W1. }
  { rewrite <- X1. apply Wi. }
  { apply Forall_zeros. }
  { apply Forall_forall. intros r Hr. apply Forall_forall. intros i Hi.
    rewrite Hdz. eapply In1; eauto. }
  cbn [rbind].
  rewrite np_zeros_ok by nia. cbn [rbind trows]. fold n.
  rewrite tzip_same by (simpl; congruence).
  cbn [rbind tmap tshape twidth trows]. rewrite Xr.
  rewrite (scatter_spec (d:=Z.to_nat (d * d))); cycle 1.
  { rewrite repeat_length. lia. }
  { rewrite repeat_length, zipWith_length, length_map. lia. }
  { apply W2. }
  { apply Forall_zipWith. intros a b Ha Hb. rewrite zipWith_length.
    apply in_map_iff in Ha. destruct Ha as (a' & <- & Ha'). rewrite length_map.
    destruct Wr as [_ Fr]. destruct Wc as [_ Fc]. rewrite Forall_forall in Fr, Fc.
    rewrite (Fr _ Ha'), (Fc _ Hb), Xr, Xc. apply Nat.min_id. }
  { apply Forall_zeros. }
  { apply Forall_zipWith. intros a b Ha Hb.
    apply in_map_iff in Ha. destruct Ha as (a' & <- & Ha').
    apply Forall_zipWith. intros u v Hu Hv.
    apply in_map_iff in Hu. destruct Hu as (u' & <- & Hu').
    pose proof (Inr _ Ha' _ Hu'). pose proof (Inc _ Hb _ Hv).
    rewrite Z2Nat.id by nia. nia. }
  cbn [rbind].
  eexists. split; [reflexivity|].
  cbn [d2_value d2_coef1 d2_size tshape twidth].
  repeat (split; [reflexivity|]).
  intros e He. destruct (Rw e He) as (A1 & Ai & A2 & Ar & Ac).
  unfold size_ad1, size_ad2 in *.
  split.
  - intros j Hj. unfold row at 1. cbn [trows].
    rewrite (nth_zipWith_in _ _ _ [] ([], []) [])
      by (rewrite ?repeat_length, ?length_combine; lia).
    rewrite (combine_nth (trows (coef1 x)) (trows (index x)) e [] []) by lia.
    rewrite nth_repeat_lt by lia.
    unfold put_all. cbn [fst snd]. fold (row (coef1 x) e) (row (index x) e).
    rewrite nth_put_all.
    + rewrite nth_repeat_lt by lia. reflexivity.
    + apply Forall_forall. intros [c0 i0] Ht. rewrite repeat_length. fold dz. rewrite Hdz.
      cbn [snd]. apply in_combine_r in Ht. eapply In1; [|exact Ht].
      unfold row. apply nth_In. lia.
  - intros r c Hr Hc. unfold hessian_at. cbn [d2_coef2].
    rewrite (nth_map_in _ _ []) by (rewrite zipWith_length, repeat_length, length_combine,
                                      zipWith_length, length_map; lia).
    rewrite nth_chunks by assumption.
    rewrite (nth_zipWith_in _ _ _ [] ([], []) [])
      by (rewrite ?repeat_length, ?length_combine, ?zipWith_length, ?length_map; lia).
    rewrite (combine_nth (trows (coef2 x)) _ e [] [])
      by (rewrite zipWith_length, length_map; lia).
    rewrite (nth_zipWith_in _ _ _ [] [] []) by (rewrite ?length_map; lia).
    rewrite (nth_map_in _ _ []) by lia.
    rewrite nth_repeat_lt by lia.
    unfold put_all. cbn [fst snd].
    fold (row (coef2 x) e) (row (index_row x) e) (row (index_col x) e).
    assert (Fk : Forall (fun t => (0 <= snd (fst t) < d)%Z /\ (0 <= snd t < d)%Z)
                   (terms2 x e)).
    { apply Forall_forall. intros [[a u] v] Ht. cbn [fst snd]. unfold terms2 in Ht.
      pose proof (in_combine_r _ _ _ _ Ht) as Hv.
      apply in_combine_l, in_combine_r in Ht. split.
      - eapply Inr; [|exact Ht]. unfold row. apply nth_In. lia.
      - eapply Inc; [|exact Hv]. unfold row. apply nth_In. lia. }
    rewrite nth_put_all.
    + rewrite nth_repeat_lt by nia. rewrite combine3_keys.
      fold dz. apply sum_at2_keys; try lia. exact Fk.
    + rewrite combine3_keys. apply Forall_forall. intros t Ht.
      apply in_map_iff in Ht. destruct Ht as (t' & <- & Ht'). cbn [snd].
      rewrite Forall_forall in Fk. destruct (Fk _ Ht').
      rewrite repeat_length, Z2Nat.id by nia. nia.
Qed.

End ToDense.

Section Bound.
Context {K : Type} {SK : Scalar K}.

Lemma bound_ad_largest (x : spAD2 (K:=K)) :
  bound_ad x = (1 + fold_left Z.max (all_indices x) (-1))%Z.
Proof.
  unfold bound_ad, all_indices, np_max_initial. rewrite !fold_max_app. lia.
Qed.

Lemma bound_ad_above (x : spAD2 (K:=K)) i : In i (all_indices x) -> (i < bound_ad x)%Z.
Proof.
  intros H. rewrite bound_ad_largest.
  pose proof (fold_max_ge (all_indices x) (-1) i H). lia.
Qed.

Lemma bound_ad_nonneg (x : spAD2 (K:=K)) : (0 <= bound_ad x)%Z.
Proof.
  rewrite bound_ad_largest. pose proof (fold_max_init (all_indices x) (-1)). lia.
Qed.

End Bound.

(** C4.  [to_dense(bound)] scatter-accumulates: in the dense gradient of every
    element the cell [j] holds the sum of the first-order coefficients stored
    with index [j], and in the dense [bound x bound] Hessian the cell [(r, c)]
    holds the sum of the second-order coefficients stored with row [r] and
    column [c], every contribution to one cell being added.  Without a bound
    the conversion uses [bound_ad], one more than the largest index stored in
    [index], [index_row] or [index_col] (zero when there is none), and then
    succeeds on every array with non-negative indices. *)
Theorem to_dense_scatter_accumulates :
  forall (K : Type) (SK : Scalar K) (x : spAD2 (K:=K)),
    wf x ->
    (forall d : Z,
        (0 <= d)%Z ->
        (forall i, In i (all_indices x) -> (0 <= i < d)%Z) ->
        exists D,
          to_dense x (Some d) = Ok D /\
          d2_value D = value x /\
          tshape (d2_coef1 D) = vshape (value x) /\
          twidth (d2_coef1 D) = Z.to_nat d /\
          d2_size D = Z.to_nat d /\
          forall e, e < osize (vshape (value x)) ->
            (forall j, j < Z.to_nat d ->
               nth j (row (d2_coef1 D) e) s0 = sum_at (terms1 x e) (Z.of_nat j)) /\
            (forall r c, r < Z.to_nat d -> c < Z.to_nat d ->
               hessian_at D e r c = sum_at2 (terms2 x e) (Z.of_nat r) (Z.of_nat c)))
    /\ to_dense x None = to_dense x (Some (bound_ad x))
    /\ bound_ad x = (1 + fold_left Z.max (all_indices x) (-1))%Z
    /\ ((forall i, In i (all_indices x) -> (0 <= i)%Z) ->
        exists D, to_dense x None = Ok D /\ d2_size D = Z.to_nat (bound_ad x)).
Proof.
  intros K SK x W. split; [|split; [|split]].
  - intros d Hd Hin. now apply to_dense_reading.
  - reflexivity.
  - apply bound_ad_largest.
  - intros Hnon.
    destruct (@to_dense_reading K SK x (bound_ad x) W (bound_ad_nonneg x)) as (D & HD & R).
    + intros i Hi. split; [now apply Hnon | now apply bound_ad_above].
    + exists D. split; [exact HD|]. apply R.
Qed.

Lemma to_dense_scatter_accumulates_witness :
  exists D,
    to_dense sample_product (Some 2%Z) = Ok D /\
    hessian_at D 0 0 1 = sum_at2 (terms2 sample_product 0) 0 1.
Proof.
  destruct (@to_dense_scatter_accumulates Q _ sample_product) as [H _];
    [solve_wf|].
  destruct (H 2%Z) as (D & HD & _ & _ & _ & _ & R).
  - lia.
  - intros i Hi. simpl in Hi. intuition lia.
  - exists D. split; [exact HD|].
    destruct (R 0%nat) as [_ R2]; [simpl; lia|].
    apply (R2 0%nat 1%nat); simpl; lia.
Defined.

(** ** Dense conversion with a bound that is too small *)


Section OutOfRange.
Context {K : Type} {SK : Scalar K}.











End OutOfRange.




Example weak_example_is_built : weak_example_built = Ok weak_example.
Proof. vm_compute. reflexivity. Qed.

(** ** The stationarity solves *)

Lemma mask_triples {A} (f g : Z -> bool) (h : Z -> Z) (c : list A) (r l : list Z) :
  length r = length c -> length l = length c ->
  let mask := zipWith andb (map f r) (map g l) in
  combine (combine (map fst (filter snd (combine c mask)))
             (map h (map fst (filter snd (combine r mask)))))
          (map fst (filter snd (combine l mask)))
  = map (fun t => (fst (fst t), h (snd (fst t)), snd t))
      (filter (fun t => f (snd (fst t)) && g (snd t)) (combine (combine c r) l)).
Proof.
  revert r l; induction c as [|a c IH]; intros [|x r] [|y l]; simpl;
    intros Lr Ll; try discriminate; auto.
  destruct (f x && g y); simpl; [f_equal|]; apply IH; lia.
Qed.

Lemma mask_lengths {A B} (c : list A) (r : list B) (mask : list bool) :
  length r = length c ->
  length (map fst (filter snd (combine r mask))) = length (map fst (filter snd (combine c mask))).
Proof.
  revert r mask; induction c as [|a c IH]; intros [|x r] [|m mask]; simpl;
    intros L; try discriminate; auto.
  destruct m; simpl; [f_equal|]; apply IH; lia.
Qed.

Lemma nth_skipn_plus {T} (l : list T) n j d : nth j (skipn n l) d = nth (n + j) l d.
Proof. apply nth_skipn_add. Qed.

Section Solving.
Context {K : Type} {SK : Scalar K}.
Variable spsolve : triplet (K:=K) -> tarr K -> res (tarr K).

Lemma put_all_length (r : list K) ci : length (put_all r ci) = length r.
Proof.
  unfold put_all. generalize (combine (fst ci) (snd ci)) as l. intros l.
  revert r; induction l as [|t l IH]; simpl; intros r; auto.
  now rewrite IH, put_length.
Qed.

(** The full system of [solve_stationnary] and its dense right-hand side. *)
Lemma solve_stationnary_raw (x : spAD2 (K:=K)) :
  wf x ->
  (forall i, In i (concat (trows (index x))) -> (0 <= i)%Z) ->
  exists rhs,
    solve_stationnary spsolve x true = Ok (RawSystem (triplets x) rhs) /\
    solve_stationnary spsolve x false
    = (u <- spsolve (triplets x) rhs ;; Ok (Solution u)) /\
    wf_t rhs /\
    tshape rhs = vshape (value x) /\
    twidth rhs = Z.to_nat (bound_ad x) /\
    forall e j, e < osize (vshape (value x)) -> j < Z.to_nat (bound_ad x) ->
      nth j (row rhs e) s0 = sopp (sum_at (terms1 x e) (Z.of_nat j)).
Proof.
  intros W Hnon.
  assert (Hin : forall i, In i (concat (trows (index x))) -> (0 <= i < bound_ad x)%Z).
  { intros i Hi. split; [now apply Hnon|]. apply bound_ad_above.
    unfold all_indices. apply in_or_app. now left. }
  pose proof (wf_lengths W) as (LV & L1 & Li & L2 & Lr & Lc).
  pose proof (fun e H => wf_rows (e:=e) W H) as Rw.
  pose proof (bound_ad_nonneg x) as Hd.
  destruct W as [Wv W1 Wi W2 Wr Wc S1 Si S2 Sr Sc X1 Xr Xc].
  set (n := osize (vshape (value x))) in *.
  set (d := bound_ad x) in *. set (dz := Z.to_nat d).
  assert (Hdz : Z.of_nat dz = d) by (apply Z2Nat.id; exact Hd).
  set (rows := zipWith put_all (repeat (repeat s0 dz) n)
                 (combine (trows (coef1 x)) (trows (index x)))).
  assert (E : Sparse_to_dense (SpAD (value x) (coef1 x) (index x)) d
              = Ok (DenseAD (value x) (Tarr (vshape (value x)) dz rows))).
  { unfold Sparse_to_dense. cbn [sp_value sp_coef sp_index].
    rewrite np_zeros_ok by assumption. cbn [rbind trows]. fold n dz.
    unfold mvax. rewrite X1.
    rewrite (scatter_spec (d:=dz)); [reflexivity| | | | | |].
    - rewrite repeat_length. lia.
    - rewrite repeat_length. lia.
    - apply W1.
    - rewrite <- X1. apply Wi.
    - apply Forall_zeros.
    - apply Forall_forall. intros r Hr. apply Forall_forall. intros i Hi.
      rewrite Hdz. apply Hin. apply in_concat. eauto. }
  assert (Lrows : length rows = n).
  { unfold rows. rewrite zipWith_length, repeat_length, length_combine. lia. }
  assert (Frows : Forall (fun r => length r = dz) rows).
  { unfold rows. apply Forall_zipWith. intros a b Ha _. rewrite put_all_length.
    apply repeat_spec in Ha. subst a. apply repeat_length. }
  exists (tmap sopp (Tarr (vshape (value x)) dz rows)).
  unfold solve_stationnary, to_first.
  rewrite Sparse_spAD_new_ok by assumption. cbn [rbind]. fold d. rewrite E.
  cbn [rbind d_coef].
  split; [reflexivity|]. split; [reflexivity|]. split; [|split; [reflexivity|split]].
  - split; cbn [tmap trows tshape twidth].
    + rewrite length_map. exact Lrows.
    + rewrite Forall_map. eapply Forall_impl; [|exact Frows].
      intros r Hr. cbn beta. now rewrite length_map.
  - reflexivity.
  - intros e j He Hj. unfold tmap. cbn [tshape twidth trows].
    rewrite row_map_rows.
    assert (Le : length (nth e rows []) = dz).
    { rewrite Forall_forall in Frows. apply Frows, nth_In. lia. }
    rewrite (nth_map_in _ _ s0) by lia. f_equal.
    unfold rows.
    rewrite (nth_zipWith_in _ _ _ [] ([], []) [])
      by (rewrite ?repeat_length, ?length_combine; lia).
    rewrite (combine_nth (trows (coef1 x)) (trows (index x)) e [] []) by lia.
    rewrite nth_repeat_lt by lia.
    unfold put_all. cbn [fst snd]. fold (row (coef1 x) e) (row (index x) e).
    rewrite nth_put_all.
    + rewrite nth_repeat_lt by lia. reflexivity.
    + apply Forall_forall. intros [c0 i0] Ht. rewrite repeat_length. rewrite Hdz.
      cbn [snd]. apply in_combine_r in Ht. apply Hin. eapply in_row_all; eauto.
Qed.

End Solving.

Lemma singleton_rows {T} (l : list (list T)) : length l = 1 -> l = [nth 0 l []].
Proof. destruct l as [|a [|b l]]; simpl; intros; try discriminate; reflexivity. Qed.

Section WeakForm.
Context {K : Type} {SK : Scalar K}.
Variable spsolve : triplet (K:=K) -> tarr K -> res (tarr K).

Lemma solve_weakform_raw (x : spAD2 (K:=K)) :
  wf x -> vshape (value x) = Sh0 ->
  (forall i, In i (concat (trows (index x))) -> (0 <= i)%Z) ->
  let n := Z.to_nat (bound_ad x) / 2 in
  exists coefs rows cols rhs,
    solve_weakform spsolve x true
    = Ok (RawSystem (arr1 coefs, (arr1 rows, arr1 cols)) rhs) /\
    solve_weakform spsolve x false
    = (u <- spsolve (arr1 coefs, (arr1 rows, arr1 cols)) rhs ;; Ok (Solution u)) /\
    length rows = length coefs /\ length cols = length coefs /\
    combine (combine coefs rows) cols
    = map (fun t => (fst (fst t), (snd (fst t) - Z.of_nat n)%Z, snd t))
        (filter (fun t => (Z.of_nat n <=? snd (fst t))%Z && (snd t <? Z.of_nat n)%Z)
           (terms2 x 0)) /\
    tshape rhs = Sh0 /\ twidth rhs = Z.to_nat (bound_ad x) - n /\
    forall j, j < Z.to_nat (bound_ad x) - n ->
      nth j (row rhs 0) s0 = sopp (sum_at (terms1 x 0) (Z.of_nat (n + j))).
Proof.
  intros W Hs Hnon n.
  destruct (solve_stationnary_raw spsolve W Hnon) as (full & Hraw & _ & Wf & Sf & Xf & Rf).
  pose proof (wf_lengths W) as (LV & L1 & Li & L2 & Lr & Lc).
  destruct (wf_rows (e:=0) W ltac:(rewrite Hs; simpl; lia)) as (A1 & Ai & A2 & Ar & Ac).
  destruct W as [Wv W1 Wi W2 Wr Wc S1 Si S2 Sr Sc X1 Xr Xc].
  rewrite Hs in *. cbn [osize] in *. unfold size_ad1, size_ad2 in *.
  set (c := row (coef2 x) 0) in *. set (r := row (index_row x) 0) in *.
  set (l := row (index_col x) 0) in *.
  assert (Ec : trows (coef2 x) = [c]) by (apply singleton_rows; exact L2).
  assert (Er : trows (index_row x) = [r]) by (apply singleton_rows; exact Lr).
  assert (El : trows (index_col x) = [l]) by (apply singleton_rows; exact Lc).
  set (f := fun r0 : Z => (Z.of_nat n <=? r0)%Z).
  set (g := fun c0 : Z => (c0 <? Z.of_nat n)%Z).
  set (mask := zipWith andb (map f r) (map g l)).
  exists (map fst (filter snd (combine c mask))),
         (map (fun r0 => (r0 - Z.of_nat n)%Z) (map fst (filter snd (combine r mask)))),
         (map fst (filter snd (combine l mask))),
         (slice_from n full).
  assert (Hn : osize (tshape full) * twidth full / 2 = n).
  { rewrite Sf, Xf. cbn [osize]. unfold n. f_equal. lia. }
  assert (Main : forall raw,
             solve_weakform spsolve x raw =
             let mat := (arr1 (map fst (filter snd (combine c mask))),
                         (arr1 (map (fun r0 => (r0 - Z.of_nat n)%Z)
                                  (map fst (filter snd (combine r mask)))),
                          arr1 (map fst (filter snd (combine l mask))))) in
             if raw then Ok (RawSystem mat (slice_from n full))
             else (u <- spsolve mat (slice_from n full) ;; Ok (Solution u))).
  { intros raw. unfold solve_weakform. rewrite Hraw. cbn [rbind triplets].
    rewrite Hn. fold f g.
    rewrite tzip_same by (simpl; congruence).
    cbn [rbind tmap tshape twidth trows].
    unfold mask_select, tshape_eqb. cbn [tshape twidth trows].
    rewrite S2, Sr, Sc, Xr, Xc, Nat.eqb_refl. cbn [oshape_eqb andb rbind].
    rewrite Ec, Er, El. cbn [map zipWith concat]. rewrite !app_nil_r.
    fold mask. reflexivity. }
  split; [apply (Main true)|]. split; [apply (Main false)|].
  assert (Lmask1 : length r = length c) by lia.
  assert (Lmask2 : length l = length c) by lia.
  split; [rewrite length_map; now apply mask_lengths|].
  split; [now apply mask_lengths|].
  split.
  - unfold mask. rewrite (mask_triples f g (fun r0 => (r0 - Z.of_nat n)%Z)) by assumption.
    reflexivity.
  - unfold slice_from. rewrite Sf. cbn [tshape twidth]. split; [reflexivity|].
    split; [now rewrite Xf|].
    intros j Hj. unfold row. cbn [trows].
    destruct Wf as [Lf Ff]. rewrite Sf in Lf. cbn [osize] in Lf.
    rewrite (singleton_rows _ Lf). cbn [map nth].
    rewrite nth_skipn_plus. fold (row full 0). apply Rf; lia.
Qed.

End WeakForm.

(** C8 as it is stated is refuted: the constant 1, built by the constructor with
    no derivative data, references no index; [bound_ad] is then 0 and
    [solve_stationnary(raw=True)] returns the empty triplet system with a
    right-hand side of length 0 instead of failing. *)
Lemma solve_stationnary_without_indices :
  spAD2_new (Varr Sh0 [1%Q]) None None None None None false = Ok constant_one
  /\ all_indices constant_one = []
  /\ bound_ad constant_one = 0%Z
  /\ solve_stationnary no_solver constant_one true
     = Ok (RawSystem (Tarr Sh0 0 [[]], (Tarr Sh0 0 [[]], Tarr Sh0 0 [[]])) (Tarr Sh0 0 [[]])).
Proof. repeat split; vm_compute; reflexivity. Qed.

(** C8, amended.  [solve_stationnary] takes the triplets
    [(coef2, (index_row, index_col))] as the Hessian and the negated dense
    gradient over the index bound as the right-hand side; with [raw=True] it
    returns this pair, and otherwise it returns what the external solver makes
    of it.  An expression that references no index has the bound 0: the raw
    pair is then returned all the same, with a right-hand side of length 0. *)
Theorem solve_stationnary_assembles :
  forall (K : Type) (SK : Scalar K) (spsolve : triplet (K:=K) -> tarr K -> res (tarr K))
         (x : spAD2 (K:=K)),
    wf x ->
    (forall i, In i (concat (trows (index x))) -> (0 <= i)%Z) ->
    (exists rhs,
        solve_stationnary spsolve x true = Ok (RawSystem (triplets x) rhs) /\
        solve_stationnary spsolve x false
        = (u <- spsolve (triplets x) rhs ;; Ok (Solution u)) /\
        wf_t rhs /\
        tshape rhs = vshape (value x) /\
        twidth rhs = Z.to_nat (bound_ad x) /\
        forall e j, e < osize (vshape (value x)) -> j < Z.to_nat (bound_ad x) ->
          nth j (row rhs e) s0 = sopp (sum_at (terms1 x e) (Z.of_nat j)))
    /\ (all_indices x = [] -> bound_ad x = 0%Z).
Proof.
  intros K SK spsolve x W Hnon. split.
  - now apply solve_stationnary_raw.
  - intros E. rewrite bound_ad_largest, E. reflexivity.
Qed.

Lemma solve_stationnary_assembles_witness :
  exists rhs,
    solve_stationnary no_solver weak_example true
    = Ok (RawSystem (triplets weak_example) rhs) /\
    nth 1 (row rhs 0) s0 = sopp (sum_at (terms1 weak_example 0) 1).
Proof.
  destruct (@solve_stationnary_assembles Q _ no_solver weak_example)
    as [(rhs & H1 & _ & _ & _ & _ & R) _].
  - solve_wf.
  - intros i Hi. simpl in Hi. intuition lia.
  - exists rhs. split; [exact H1|]. apply (R 0%nat 1%nat); vm_compute; reflexivity.
Defined.

(** C3 as it is stated is refuted on [Q = x0 * x1 + 3 * x1] with the split
    point 1: the reduced system that [solve_weakform] returns keeps the rows at
    or above the split point and the part [r[1:]] of the right-hand side, not
    the rows below it and [r[:1]] as the wording has it. *)
Lemma solve_weakform_is_not_as_worded :
  solve_weakform no_solver weak_example true
  = Ok (RawSystem (Tarr Sh0 1 [[1%Q]], (Tarr Sh0 1 [[0%Z]], Tarr Sh0 1 [[0%Z]]))
          (Tarr Sh0 1 [[(-3)%Q]]))
  /\ (' sys <- solve_stationnary no_solver weak_example true ;; claimed_weakform 1 sys)
     = Ok (RawSystem (Tarr Sh0 1 [[1%Q]], (Tarr Sh0 1 [[0%Z]], Tarr Sh0 1 [[0%Z]]))
             (Tarr Sh0 1 [[0%Q]]))
  /\ solve_weakform no_solver weak_example true
     <> (' sys <- solve_stationnary no_solver weak_example true ;; claimed_weakform 1 sys).
Proof.
  split; [vm_compute; reflexivity|]. split; [vm_compute; reflexivity|].
  vm_compute. intros H. discriminate H.
Qed.

(** C3, amended.  For a scalar expression the split point is half the index
    bound, [n = bound // 2].  [solve_weakform] builds the full system, keeps the
    triplets whose row is at least [n] and whose column is below [n], the rows
    being renumbered from zero, and keeps the part [r[n:]] of the right-hand
    side; with [raw=True] it returns this reduced pair, and otherwise what the
    external solver makes of it.  The unknowns of the reduced system are the
    indices below [n] and its equations the indices from [n] on. *)
Theorem solve_weakform_reduces :
  forall (K : Type) (SK : Scalar K) (spsolve : triplet (K:=K) -> tarr K -> res (tarr K))
         (x : spAD2 (K:=K)),
    wf x -> vshape (value x) = Sh0 ->
    (forall i, In i (concat (trows (index x))) -> (0 <= i)%Z) ->
    let n := Z.to_nat (bound_ad x) / 2 in
    exists coefs rows cols rhs,
      solve_weakform spsolve x true
      = Ok (RawSystem (arr1 coefs, (arr1 rows, arr1 cols)) rhs) /\
      solve_weakform spsolve x false
      = (u <- spsolve (arr1 coefs, (arr1 rows, arr1 cols)) rhs ;; Ok (Solution u)) /\
      length rows = length coefs /\ length cols = length coefs /\
      combine (combine coefs rows) cols
      = map (fun t => (fst (fst t), (snd (fst t) - Z.of_nat n)%Z, snd t))
          (filter (fun t => (Z.of_nat n <=? snd (fst t))%Z && (snd t <? Z.of_nat n)%Z)
             (terms2 x 0)) /\
      tshape rhs = Sh0 /\ twidth rhs = Z.to_nat (bound_ad x) - n /\
      forall j, j < Z.to_nat (bound_ad x) - n ->
        nth j (row rhs 0) s0 = sopp (sum_at (terms1 x 0) (Z.of_nat (n + j))).
Proof. intros. now apply solve_weakform_raw. Qed.

Lemma solve_weakform_reduces_witness :
  exists coefs rows cols rhs,
    solve_weakform no_solver weak_example true
    = Ok (RawSystem (arr1 coefs, (arr1 rows, arr1 cols)) rhs) /\
    combine (combine coefs rows) cols
    = map (fun t => (fst (fst t), (snd (fst t) - 1)%Z, snd t))
        (filter (fun t => (1 <=? snd (fst t))%Z && (snd t <? 1)%Z)
           (terms2 weak_example 0)).
Proof.
  destruct (@solve_weakform_reduces Q _ no_solver weak_example)
    as (coefs & rows & cols & rhs & H1 & _ & _ & _ & H2 & _).
  - solve_wf.
  - reflexivity.
  - intros i Hi. simpl in Hi. intuition lia.
  - exists coefs, rows, cols, rhs. split; [exact H1 | exact H2].
Defined.

(** ** Indexed assignment *)

Example setitem_pair :
  __setitem__ all_writeable (KSlice 0 2) (OAD sample_product) pair_x
  = (Ok tt, pair_assigned).
Proof. vm_compute. reflexivity. Qed.

Lemma write_length {T} ps (vals l : list T) : length (write ps vals l) = length l.
Proof.
  revert vals l; induction ps as [|p ps IH]; intros [|v vals] l; simpl; auto.
  now rewrite IH, list_set_length.
Qed.

Lemma nth_list_set_other {T} p (v : T) l e d :
  e <> p -> nth e (list_set p v l) d = nth e l d.
Proof.
  revert p e; induction l as [|a l IH]; intros [|p] [|e] H; simpl; auto; try lia.
Qed.

Lemma write_outside {T} ps (vals l : list T) e d :
  ~ In e ps -> nth e (write ps vals l) d = nth e l d.
Proof.
  revert vals l; induction ps as [|p ps IH]; intros [|v vals] l H; simpl; auto.
  rewrite IH by (intros G; apply H; now right).
  apply nth_list_set_other. intros ->. apply H. now left.
Qed.

Lemma write_inside {T} ps (vals l : list T) k d :
  NoDup ps -> length vals = length ps -> (forall p, In p ps -> p < length l) ->
  k < length ps ->
  nth (nth k ps 0) (write ps vals l) d = nth k vals d.
Proof.
  revert vals l k; induction ps as [|p ps IH]; intros [|v vals] l k ND L R Hk;
    simpl in *; try lia.
  inversion ND as [|? ? Hp ND']; subst.
  destruct k as [|k].
  - rewrite write_outside by assumption. rewrite nth_list_set by auto.
    now rewrite Nat.eqb_refl.
  - apply IH; auto; try lia. intros q Hq. rewrite list_set_length. auto.
Qed.

Lemma Forall_list_set {T} (P : T -> Prop) p v l :
  P v -> Forall P l -> Forall P (list_set p v l).
Proof.
  intros Hv F. revert p; induction F as [|a l Ha F IH]; intros [|p]; simpl;
    constructor; auto.
Qed.

Lemma Forall_write {T} (P : T -> Prop) ps vals l :
  Forall P vals -> Forall P l -> Forall P (write ps vals l).
Proof.
  revert vals l; induction ps as [|p ps IH]; intros [|v vals] l Fv Fl; simpl; auto.
  inversion Fv; subst. apply IH; auto. now apply Forall_list_set.
Qed.

Lemma key_select_props s k ks ps :
  key_select s k = Ok (ks, ps) ->
  NoDup ps /\ (forall p, In p ps -> p < osize s) /\ length ps = osize ks.
Proof.
  destruct k as [i|a b|]; destruct s as [|n]; simpl; intros H; try discriminate.
  - destruct ((- Z.of_nat n <=? i)%Z && (i <? Z.of_nat n)%Z) eqn:E; [|discriminate].
    inversion H; subst. apply andb_prop in E. destruct E as [E1 E2].
    apply Z.leb_le in E1. apply Z.ltb_lt in E2.
    split; [repeat constructor; simpl; tauto|]. split; [|reflexivity].
    intros p [<-|[]].
    assert (0 <= i mod Z.of_nat n < Z.of_nat n)%Z by (apply Z.mod_pos_bound; lia). lia.
  - inversion H; subst. split; [apply seq_NoDup|]. split; [|apply length_seq].
    intros p Hp. apply in_seq in Hp. lia.
  - inversion H; subst. split; [repeat constructor; simpl; tauto|].
    split; [|reflexivity]. intros p [<-|[]]. lia.
  - inversion H; subst. split; [apply seq_NoDup|]. split; [|apply length_seq].
    intros p Hp. apply in_seq in Hp. simpl. lia.
Qed.

Lemma stretch_assignable {T} so ks (data : list T) d :
  assignable so ks = true -> length data = osize so ->
  length (stretch so ks data) = osize ks /\
  forall k, k < osize ks ->
    nth k (stretch so ks data) d = nth (if oshape_eqb so ks then k else 0) data d.
Proof.
  intros A L. unfold stretch.
  destruct (oshape_eqb so ks) eqn:E.
  - apply oshape_eqb_eq in E. subst. auto.
  - assert (L1 : length data = 1).
    { destruct so as [|m], ks as [|k]; simpl in *; auto; try discriminate.
      - apply Nat.eqb_eq in A. lia.
      - rewrite E in A. simpl in A. apply Nat.eqb_eq in A. lia. }
    destruct data as [|x [|y data]]; simpl in L1; try lia.
    split; [apply repeat_length|]. intros k Hk. simpl. now apply nth_repeat_lt.
Qed.

Lemma pad_to_same {T} (zero : T) (a : tarr T) : pad_to zero (twidth a) a = a.
Proof.
  destruct a as [s w rows]. unfold pad_to. simpl. rewrite Nat.sub_diag. simpl.
  f_equal. induction rows; simpl; auto. now rewrite app_nil_r, IHrows.
Qed.

Lemma pad_last_ok {T} (zero : T) (a : tarr T) W :
  twidth a <= W -> _pad_last zero a W = Ok (pad_to zero W a).
Proof.
  intros H. unfold _pad_last. destruct (Nat.ltb_spec W (twidth a)); [lia|reflexivity].
Qed.

Lemma wf_t_pad_to {T} (zero : T) (a : tarr T) W :
  wf_t a -> twidth a <= W -> wf_t (pad_to zero W a).
Proof.
  intros [L F] H. split; simpl.
  - now rewrite length_map.
  - rewrite Forall_map. eapply Forall_impl; [|exact F]. cbn beta.
    intros r Hr. rewrite length_app, repeat_length. lia.
Qed.

Lemma row_pad_to {T} (zero : T) (a : tarr T) W e :
  e < length (trows a) ->
  row (pad_to zero W a) e = row a e ++ repeat zero (W - twidth a).
Proof. intros H. unfold row, pad_to. simpl. now rewrite (nth_map_in _ _ []). Qed.

Lemma np_setitem_v_ok {T} (a : varr T) k (src : varr T) ks ps :
  key_select (vshape a) k = Ok (ks, ps) -> assignable (vshape src) ks = true ->
  np_setitem_v a k src
  = Ok (Varr (vshape a) (write ps (stretch (vshape src) ks (vdata src)) (vdata a))).
Proof. intros H A. unfold np_setitem_v. rewrite H. simpl. now rewrite A. Qed.

Lemma np_setitem_t_ok {T} (a : tarr T) k (src : tarr T) ks ps :
  key_select (tshape a) k = Ok (ks, ps) -> assignable (tshape src) ks = true ->
  twidth src = twidth a ->
  np_setitem_t a k src = Ok (twrite ps ks src a).
Proof.
  intros H A W. unfold np_setitem_t, twrite. rewrite H. cbn [rbind].
  now rewrite A, W, Nat.eqb_refl.
Qed.

Lemma twrite_rows {T} ps ks (src dst : tarr T) :
  twidth src = twidth dst ->
  trows (twrite ps ks src dst) = write ps (stretch (tshape src) ks (trows src)) (trows dst).
Proof. intros W. unfold twrite. simpl. now rewrite W, map_wstretch_same. Qed.

Lemma pad_to_width {T} (zero : T) (a : tarr T) W : twidth a = W -> pad_to zero W a = a.
Proof. intros <-. apply pad_to_same. Qed.

Section SetItem.
Context {K : Type} {SK : Scalar K}.

Ltac run_self :=
  cbv beta iota delta [mbind get lift mret set_value set_coef1 set_index set_coef2
                         set_index_row set_index_col];
  cbn [value coef1 index coef2 index_row index_col fst snd
       w_value w_coef1 w_index w_coef2 w_index_row w_index_col orb np_writing].

Lemma setitem_ok w key (o t : spAD2 (K:=K)) ks ps :
  wf t -> wf o ->
  key_select (vshape (value t)) key = Ok (ks, ps) ->
  assignable (vshape (value o)) ks = true ->
  writes_allowed w (OAD o) t ->
  __setitem__ w key (OAD o) t = (Ok tt, assigned ps ks o t).
Proof.
  intros Wt Wo Hk A Hw. destruct w as [wv w1 wi w2 wr wc].
  destruct Hw as (Hv & H1 & H2).
  cbn [w_value w_coef1 w_index w_coef2 w_index_row w_index_col] in Hv, H1, H2. subst wv.
  destruct Wt as [Wv W1 Wi W2 Wr Wc S1 Si S2 Sr Sc X1 Xr Xc].
  destruct Wo as [Wv' W1' Wi' W2' Wr' Wc' S1' Si' S2' Sr' Sc' X1' Xr' Xc'].
  assert (K1 : key_select (tshape (coef1 t)) key = Ok (ks, ps)) by (rewrite S1; exact Hk).
  assert (Ki : key_select (tshape (index t)) key = Ok (ks, ps)) by (rewrite Si; exact Hk).
  assert (K2 : key_select (tshape (coef2 t)) key = Ok (ks, ps)) by (rewrite S2; exact Hk).
  assert (Kr : key_select (tshape (index_row t)) key = Ok (ks, ps))
    by (rewrite Sr; exact Hk).
  assert (Kc : key_select (tshape (index_col t)) key = Ok (ks, ps))
    by (rewrite Sc; exact Hk).
  assert (A1 : assignable (tshape (coef1 o)) ks = true) by (rewrite S1'; exact A).
  assert (Ai : assignable (tshape (index o)) ks = true) by (rewrite Si'; exact A).
  assert (A2 : assignable (tshape (coef2 o)) ks = true) by (rewrite S2'; exact A).
  assert (Ar : assignable (tshape (index_row o)) ks = true) by (rewrite Sr'; exact A).
  assert (Ac : assignable (tshape (index_col o)) ks = true) by (rewrite Sc'; exact A).
  unfold __setitem__, key_expand, assigned. run_self.
  rewrite (np_setitem_v_ok _ _ _ Hk A). run_self.
  set (P1 := Nat.max (twidth (coef1 t)) (twidth (coef1 o))).
  assert (G1 : twidth (coef1 t) <= P1 /\ twidth (coef1 o) <= P1) by (unfold P1; lia).
  assert (First :
    (if twidth (coef1 t) <? P1 then True else P1 = twidth (coef1 t))).
  { destruct (Nat.ltb_spec (twidth (coef1 t)) P1); [exact I | unfold P1 in *; lia]. }
  assert (Fl1 : if twidth (coef1 t) <? P1 then True else w1 = true /\ wi = true).
  { destruct (Nat.ltb_spec (twidth (coef1 t)) P1); [exact I | apply H1; unfold P1 in *; lia]. }
  destruct (twidth (coef1 t) <? P1).
  - rewrite (pad_last_ok s0 (coef1 t)) by lia. run_self.
    rewrite (pad_last_ok 0%Z (index t)) by lia. run_self.
    rewrite (pad_last_ok s0 (coef1 o)) by lia.
    rewrite (np_setitem_t_ok _ _ _ (ks:=ks) (ps:=ps)) by (try assumption; reflexivity).
    rewrite (pad_last_ok 0%Z (index o)) by lia.
    rewrite (np_setitem_t_ok _ _ _ (ks:=ks) (ps:=ps)) by (try assumption; reflexivity).
    set (P2 := Nat.max (twidth (coef2 t)) (twidth (coef2 o))).
    assert (G2 : twidth (coef2 t) <= P2 /\ twidth (coef2 o) <= P2) by (unfold P2; lia).
    assert (Second :
      (if twidth (coef2 t) <? P2 then True else P2 = twidth (coef2 t))).
    { destruct (Nat.ltb_spec (twidth (coef2 t)) P2); [exact I | unfold P2 in *; lia]. }
    assert (Fl2 : if twidth (coef2 t) <? P2 then True
                  else w2 = true /\ wr = true /\ wc = true).
    { destruct (Nat.ltb_spec (twidth (coef2 t)) P2);
        [exact I | apply H2; unfold P2 in *; lia]. }
    destruct (twidth (coef2 t) <? P2).
    + rewrite (pad_last_ok s0 (coef2 t)) by lia. run_self.
      rewrite (pad_last_ok 0%Z (index_row t)) by lia. run_self.
      rewrite (pad_last_ok 0%Z (index_col t)) by lia. run_self.
      rewrite (pad_last_ok s0 (coef2 o)) by lia.
      rewrite (np_setitem_t_ok _ _ _ (ks:=ks) (ps:=ps)) by (try assumption; reflexivity).
      rewrite (pad_last_ok 0%Z (index_row o)) by lia.
      rewrite (np_setitem_t_ok _ _ _ (ks:=ks) (ps:=ps)) by (try assumption; reflexivity).
      rewrite (pad_last_ok 0%Z (index_col o)) by lia.
      rewrite (np_setitem_t_ok _ _ _ (ks:=ks) (ps:=ps)) by (try assumption; reflexivity).
      reflexivity.
    + destruct Fl2 as (-> & -> & ->). run_self.
      rewrite (pad_last_ok s0 (coef2 o)) by lia.
      rewrite (np_setitem_t_ok _ _ _ (ks:=ks) (ps:=ps)) by (try assumption; simpl; lia).
      rewrite (pad_last_ok 0%Z (index_row o)) by lia.
      rewrite (np_setitem_t_ok _ _ _ (ks:=ks) (ps:=ps)) by (try assumption; simpl; lia).
      rewrite (pad_last_ok 0%Z (index_col o)) by lia.
      rewrite (np_setitem_t_ok _ _ _ (ks:=ks) (ps:=ps)) by (try assumption; simpl; lia).
      rewrite (pad_to_width s0 (coef2 t) (W:=P2)) by lia.
      rewrite (pad_to_width 0%Z (index_row t) (W:=P2)) by lia.
      rewrite (pad_to_width 0%Z (index_col t) (W:=P2)) by lia.
      reflexivity.
  - destruct Fl1 as [-> ->]. run_self.
    rewrite (pad_last_ok s0 (coef1 o)) by lia.
    rewrite (np_setitem_t_ok _ _ _ (ks:=ks) (ps:=ps)) by (try assumption; simpl; lia).
    rewrite (pad_last_ok 0%Z (index o)) by lia.
    rewrite (np_setitem_t_ok _ _ _ (ks:=ks) (ps:=ps)) by (try assumption; simpl; lia).
    rewrite (pad_to_width s0 (coef1 t) (W:=P1)) by lia.
    rewrite (pad_to_width 0%Z (index t) (W:=P1)) by lia.
    set (P2 := Nat.max (twidth (coef2 t)) (twidth (coef2 o))).
    assert (G2 : twidth (coef2 t) <= P2 /\ twidth (coef2 o) <= P2) by (unfold P2; lia).
    assert (Second :
      (if twidth (coef2 t) <? P2 then True else P2 = twidth (coef2 t))).
    { destruct (Nat.ltb_spec (twidth (coef2 t)) P2); [exact I | unfold P2 in *; lia]. }
    assert (Fl2 : if twidth (coef2 t) <? P2 then True
                  else w2 = true /\ wr = true /\ wc = true).
    { destruct (Nat.ltb_spec (twidth (coef2 t)) P2);
        [exact I | apply H2; unfold P2 in *; lia]. }
    destruct (twidth (coef2 t) <? P2).
    + rewrite (pad_last_ok s0 (coef2 t)) by lia. run_self.
      rewrite (pad_last_ok 0%Z (index_row t)) by lia. run_self.
      rewrite (pad_last_ok 0%Z (index_col t)) by lia. run_self.
      rewrite (pad_last_ok s0 (coef2 o)) by lia.
      rewrite (np_setitem_t_ok _ _ _ (ks:=ks) (ps:=ps)) by (try assumption; reflexivity).
      rewrite (pad_last_ok 0%Z (index_row o)) by lia.
      rewrite (np_setitem_t_ok _ _ _ (ks:=ks) (ps:=ps)) by (try assumption; reflexivity).
      rewrite (pad_last_ok 0%Z (index_col o)) by lia.
      rewrite (np_setitem_t_ok _ _ _ (ks:=ks) (ps:=ps)) by (try assumption; reflexivity).
      reflexivity.
    + destruct Fl2 as (-> & -> & ->). run_self.
      rewrite (pad_last_ok s0 (coef2 o)) by lia.
      rewrite (np_setitem_t_ok _ _ _ (ks:=ks) (ps:=ps)) by (try assumption; simpl; lia).
      rewrite (pad_last_ok 0%Z (index_row o)) by lia.
      rewrite (np_setitem_t_ok _ _ _ (ks:=ks) (ps:=ps)) by (try assumption; simpl; lia).
      rewrite (pad_last_ok 0%Z (index_col o)) by lia.
      rewrite (np_setitem_t_ok _ _ _ (ks:=ks) (ps:=ps)) by (try assumption; simpl; lia).
      rewrite (pad_to_width s0 (coef2 t) (W:=P2)) by lia.
      rewrite (pad_to_width 0%Z (index_row t) (W:=P2)) by lia.
      rewrite (pad_to_width 0%Z (index_col t) (W:=P2)) by lia.
      reflexivity.
Qed.

End SetItem.

Lemma Forall_stretch {T} (P : T -> Prop) so ks (l : list T) :
  Forall P l -> Forall P (stretch so ks l).
Proof.
  intros F. unfold stretch. destruct (oshape_eqb so ks); auto.
  destruct F as [|x l Hx _]; auto.
  apply Forall_forall. intros y Hy. apply repeat_spec in Hy. now subst.
Qed.

Lemma wf_t_twrite {T} ps ks (src dst : tarr T) :
  wf_t src -> wf_t dst -> twidth src = twidth dst -> wf_t (twrite ps ks src dst).
Proof.
  intros [Ls Fs] [Ld Fd] W. split.
  - rewrite twrite_rows by assumption. rewrite write_length. exact Ld.
  - rewrite twrite_rows by assumption. cbn [twrite twidth].
    apply Forall_write; auto. apply Forall_stretch.
    eapply Forall_impl; [|exact Fs]. cbn beta. intros; congruence.
Qed.

Lemma twrite_outside {T} ps ks (src dst : tarr T) e :
  twidth src = twidth dst -> ~ In e ps -> row (twrite ps ks src dst) e = row dst e.
Proof.
  intros W H. unfold row. rewrite twrite_rows by assumption. now apply write_outside.
Qed.

Lemma twrite_inside {T} ps ks (src dst : tarr T) k :
  twidth src = twidth dst ->
  NoDup ps -> (forall p, In p ps -> p < length (trows dst)) -> length ps = osize ks ->
  assignable (tshape src) ks = true -> length (trows src) = osize (tshape src) ->
  k < length ps ->
  row (twrite ps ks src dst) (nth k ps 0)
  = row src (if oshape_eqb (tshape src) ks then k else 0).
Proof.
  intros W ND R L A Ls Hk. unfold row. rewrite twrite_rows by assumption.
  destruct (@stretch_assignable _ _ _ (trows src) [] A Ls) as [L1 N1].
  rewrite write_inside; auto; try lia. apply N1. lia.
Qed.

Section Assignment.
Context {K : Type} {SK : Scalar K}.

Lemma assigned_wf ps ks (o t : spAD2 (K:=K)) :
  wf t -> wf o -> wf (assigned ps ks o t).
Proof.
  intros Wt Wo.
  destruct Wt as [Wv W1 Wi W2 Wr Wc S1 Si S2 Sr Sc X1 Xr Xc].
  destruct Wo as [Wv' W1' Wi' W2' Wr' Wc' S1' Si' S2' Sr' Sc' X1' Xr' Xc'].
  unfold assigned.
  constructor; cbn [value coef1 index coef2 index_row index_col vshape];
    try (apply wf_t_twrite; try reflexivity; apply wf_t_pad_to; auto; lia);
    try assumption; try reflexivity.
  unfold wf_v. cbn [vdata vshape]. rewrite write_length. exact Wv.
Qed.

End Assignment.

Lemma assignable_source so ks k :
  assignable so ks = true -> k < osize ks ->
  (if oshape_eqb so ks then k else 0) < osize so.
Proof.
  intros A Hk. destruct (oshape_eqb so ks) eqn:E.
  - apply oshape_eqb_eq in E. now subst.
  - destruct so as [|m], ks as [|n]; simpl in *; try lia; try discriminate.
    + apply Nat.eqb_eq in A. lia.
    + rewrite E in A. simpl in A. apply Nat.eqb_eq in A. lia.
Qed.

Section AssignmentReading.
Context {K : Type} {SK : Scalar K}.

Lemma setitem_reading w key (o t : spAD2 (K:=K)) ks ps :
  wf t -> wf o ->
  key_select (vshape (value t)) key = Ok (ks, ps) ->
  assignable (vshape (value o)) ks = true ->
  writes_allowed w (OAD o) t ->
  exists t',
    __setitem__ w key (OAD o) t = (Ok tt, t') /\ wf t' /\
    vshape (value t') = vshape (value t) /\
    size_ad1 t' = Nat.max (size_ad1 t) (size_ad1 o) /\
    size_ad2 t' = Nat.max (size_ad2 t) (size_ad2 o) /\
    (forall e, e < osize (vshape (value t)) -> ~ In e ps ->
       val (value t') e = val (value t) e /\
       row (coef1 t') e = row (coef1 t) e ++ repeat s0 (size_ad1 t' - size_ad1 t) /\
       row (index t') e = row (index t) e ++ repeat 0%Z (size_ad1 t' - size_ad1 t) /\
       row (coef2 t') e = row (coef2 t) e ++ repeat s0 (size_ad2 t' - size_ad2 t) /\
       row (index_row t') e = row (index_row t) e ++ repeat 0%Z (size_ad2 t' - size_ad2 t) /\
       row (index_col t') e = row (index_col t) e ++ repeat 0%Z (size_ad2 t' - size_ad2 t))
    /\
    (forall k, k < length ps ->
       let e := nth k ps 0 in
       let k' := if oshape_eqb (vshape (value o)) ks then k else 0 in
       val (value t') e = val (value o) k' /\
       row (coef1 t') e = row (coef1 o) k' ++ repeat s0 (size_ad1 t' - size_ad1 o) /\
       row (index t') e = row (index o) k' ++ repeat 0%Z (size_ad1 t' - size_ad1 o) /\
       row (coef2 t') e = row (coef2 o) k' ++ repeat s0 (size_ad2 t' - size_ad2 o) /\
       row (index_row t') e = row (index_row o) k' ++ repeat 0%Z (size_ad2 t' - size_ad2 o) /\
       row (index_col t') e = row (index_col o) k' ++ repeat 0%Z (size_ad2 t' - size_ad2 o)).
Proof.
  intros Wt Wo Hk A Hw. exists (assigned ps ks o t).
  split; [now apply setitem_ok|]. split; [now apply assigned_wf|].
  destruct (key_select_props _ _ Hk) as (ND & R & Lps).
  pose proof (wf_lengths Wt) as (LV & L1 & Li & L2 & Lr & Lc).
  pose proof (wf_lengths Wo) as (LV' & L1' & Li' & L2' & Lr' & Lc').
  destruct Wt as [Wv W1 Wi W2 Wr Wc S1 Si S2 Sr Sc X1 Xr Xc].
  destruct Wo as [Wv' W1' Wi' W2' Wr' Wc' S1' Si' S2' Sr' Sc' X1' Xr' Xc'].
  unfold assigned, size_ad1, size_ad2.
  cbn [value coef1 index coef2 index_row index_col vshape].
  split; [reflexivity|]. split; [reflexivity|]. split; [reflexivity|].
  set (P1 := Nat.max (twidth (coef1 t)) (twidth (coef1 o))).
  set (P2 := Nat.max (twidth (coef2 t)) (twidth (coef2 o))).
  assert (Rg : forall T (zero : T) P (a : tarr T),
             length (trows a) = osize (vshape (value t)) ->
             forall p, In p ps -> p < length (trows (pad_to zero P a))).
  { intros T zero P a La p Hp. cbn [pad_to trows]. rewrite length_map, La. auto. }
  split.
  - intros e He Hout. split.
    + unfold val. cbn [vdata]. now apply write_outside.
    + repeat split;
        (rewrite twrite_outside by (try reflexivity; assumption);
         rewrite row_pad_to by lia;
         cbn [twrite twidth pad_to]; rewrite ?X1, ?Xr, ?Xc; reflexivity).
  - intros k Hk'.
    set (e := nth k ps 0). set (k' := if oshape_eqb (vshape (value o)) ks then k else 0).
    assert (Hsrc : k' < osize (vshape (value o))).
    { apply assignable_source; auto. lia. }
    split.
    + unfold val. cbn [vdata]. unfold e.
      destruct (@stretch_assignable _ _ _ (vdata (value o)) s0 A Wv') as [Ls Ns].
      rewrite write_inside; auto; try lia.
      * apply Ns. lia.
      * intros p Hp. rewrite LV. auto.
    + unfold e.
      repeat split;
        (rewrite twrite_inside;
         [ | reflexivity | assumption | apply Rg; assumption | assumption
           | cbn [pad_to tshape]; congruence
           | cbn [pad_to tshape trows]; rewrite length_map; congruence
           | assumption ];
         change (tshape (pad_to _ _ ?a)) with (tshape a);
         rewrite ?S1', ?Si', ?S2', ?Sr', ?Sc'; fold k';
         rewrite row_pad_to by lia;
         cbn [twrite twidth pad_to]; rewrite ?X1', ?Xr', ?Xc'; reflexivity).
Qed.

End AssignmentReading.



Section AssignmentFailure.
Context {K : Type} {SK : Scalar K}.

Ltac run_self :=
  cbv beta iota delta [mbind get lift mret set_value set_coef1 set_index set_coef2
                         set_index_row set_index_col];
  cbn [value coef1 index coef2 index_row index_col fst snd
       w_value w_coef1 w_index w_coef2 w_index_row w_index_col orb np_writing].









Lemma spAD2_new_rejects_second (v : varr K) c1 i1 c ir ic b :
  tshape_eqb c ir && tshape_eqb c ic = false ->
  exists ex, spAD2_new v c1 i1 (Some c) (Some ir) (Some ic) b = Raise ex.
Proof.
  intros H. unfold spAD2_new.
  destruct (match c1, i1 with
            | None, None => Ok tt
            | Some c0, Some i0 => py_assert (tshape_eqb c0 i0)
            | _, _ => Raise AttributeError
            end) as [u|e0]; cbn [rbind]; [|eauto].
  destruct (match c1 with
            | None => Ok (np_full0 K (vshape v))
            | Some c0 => _test_or_broadcast_ad c0 (vshape v) b
            end) as [u1|e1]; cbn [rbind]; [|eauto].
  destruct (match i1 with
            | None => Ok (np_full0 Z (vshape v))
            | Some i0 => _test_or_broadcast_ad i0 (vshape v) b
            end) as [u2|e2]; cbn [rbind]; [|eauto].
  rewrite H. cbn [py_assert rbind]. eauto.
Qed.

End AssignmentFailure.




(* ========================================================================== *)
(** * Further properties of the class *)

(** ** Sums of coefficients in exact arithmetic *)

Section ExactSums.
Context {K : Type} {SK : Scalar K}.
Hypothesis EX : exact_arithmetic (K:=K).

Lemma ex_add_0_r (a : K) : sadd a s0 = a.
Proof. rewrite (ex_add_comm EX). apply (ex_add_0_l EX). Qed.

Lemma ex_add_cancel (a b c : K) : sadd a c = sadd b c -> a = b.
Proof.
  intros H.
  assert (E : sadd (sadd a c) (sopp c) = sadd (sadd b c) (sopp c)) by now rewrite H.
  rewrite <- !(ex_add_assoc EX), !(ex_add_opp EX), !ex_add_0_r in E. exact E.
Qed.

Lemma ex_mul_0_r (a : K) : smul a s0 = s0.
Proof.
  apply (@ex_add_cancel _ _ (smul a s0)).
  rewrite <- (ex_mul_add EX), !(ex_add_0_l EX). reflexivity.
Qed.

Lemma ex_mul_0_l (a : K) : smul s0 a = s0.
Proof. rewrite (ex_mul_comm EX). apply ex_mul_0_r. Qed.

Lemma ex_add_mul (a b c : K) : smul (sadd a b) c = sadd (smul a c) (smul b c).
Proof. rewrite (ex_mul_comm EX), (ex_mul_add EX), !(ex_mul_comm EX c). reflexivity. Qed.

Lemma ex_opp_0 : sopp s0 = s0 :> K.
Proof. rewrite <- (ex_add_0_l EX (sopp s0)). apply (ex_add_opp EX). Qed.

Lemma ex_add_swap (a b c d : K) :
  sadd (sadd a b) (sadd c d) = sadd (sadd a c) (sadd b d).
Proof.
  rewrite <- !(ex_add_assoc EX). f_equal.
  rewrite !(ex_add_assoc EX). f_equal. apply (ex_add_comm EX).
Qed.

Lemma ex_opp_add (a b : K) : sopp (sadd a b) = sadd (sopp a) (sopp b).
Proof.
  apply (@ex_add_cancel _ _ (sadd a b)).
  rewrite (ex_add_comm EX (sopp (sadd a b))), (ex_add_opp EX).
  rewrite ex_add_swap.
  rewrite (ex_add_comm EX (sopp a)), (ex_add_comm EX (sopp b)), !(ex_add_opp EX).
  now rewrite (ex_add_0_l EX).
Qed.

Lemma ex_opp_opp (a : K) : sopp (sopp a) = a.
Proof.
  apply (@ex_add_cancel _ _ (sopp a)).
  rewrite (ex_add_comm EX (sopp (sopp a))), !(ex_add_opp EX). reflexivity.
Qed.

Lemma sum_where_from {T} (p : T -> bool) (w : T -> K) l a :
  fold_left (fun acc t => if p t then sadd acc (w t) else acc) l a
  = sadd a (sum_where p w l).
Proof.
  unfold sum_where. revert a. induction l as [|t l IH]; simpl; intros a.
  - now rewrite ex_add_0_r.
  - rewrite IH. rewrite (IH (if p t then sadd s0 (w t) else s0)).
    destruct (p t).
    + now rewrite (ex_add_0_l EX), (ex_add_assoc EX).
    + now rewrite (ex_add_0_l EX).
Qed.

Lemma sum_where_nil {T} (p : T -> bool) (w : T -> K) : sum_where p w [] = s0.
Proof. reflexivity. Qed.

Lemma sum_where_cons {T} (p : T -> bool) (w : T -> K) t l :
  sum_where p w (t :: l) = sadd (if p t then w t else s0) (sum_where p w l).
Proof.
  unfold sum_where at 1. simpl. rewrite sum_where_from.
  destruct (p t); now rewrite ?(ex_add_0_l EX).
Qed.

Lemma sum_where_app {T} (p : T -> bool) (w : T -> K) l1 l2 :
  sum_where p w (l1 ++ l2) = sadd (sum_where p w l1) (sum_where p w l2).
Proof.
  induction l1 as [|t l1 IH]; simpl.
  - now rewrite sum_where_nil, (ex_add_0_l EX).
  - now rewrite !sum_where_cons, IH, (ex_add_assoc EX).
Qed.

Lemma sum_where_map {T U} (f : U -> T) (p : T -> bool) (w : T -> K) l :
  sum_where p w (map f l) = sum_where (fun u => p (f u)) (fun u => w (f u)) l.
Proof. unfold sum_where. now rewrite fold_left_map_list. Qed.

Lemma sum_where_ext {T} (p q : T -> bool) (w v : T -> K) l :
  (forall t, In t l -> p t = q t /\ (p t = true -> w t = v t)) ->
  sum_where p w l = sum_where q v l.
Proof.
  induction l as [|t l IH]; intros H; [reflexivity|].
  rewrite !sum_where_cons, IH by (intros; apply H; now right).
  destruct (H t (or_introl eq_refl)) as [E1 E2]. rewrite <- E1.
  destruct (p t); [now rewrite E2|reflexivity].
Qed.

Lemma sum_where_scale {T} (p : T -> bool) (w : T -> K) k l :
  sum_where p (fun t => smul k (w t)) l = smul k (sum_where p w l).
Proof.
  induction l as [|t l IH]; [now rewrite !sum_where_nil, ex_mul_0_r|].
  rewrite !sum_where_cons, IH, (ex_mul_add EX).
  destruct (p t); now rewrite ?ex_mul_0_r.
Qed.

Lemma sum_where_opp {T} (p : T -> bool) (w : T -> K) l :
  sum_where p (fun t => sopp (w t)) l = sopp (sum_where p w l).
Proof.
  induction l as [|t l IH]; [now rewrite !sum_where_nil, ex_opp_0|].
  rewrite !sum_where_cons, IH, ex_opp_add.
  destruct (p t); now rewrite ?ex_opp_0.
Qed.

Lemma sum_where_none {T} (p : T -> bool) (w : T -> K) l :
  (forall t, In t l -> p t = false \/ w t = s0) -> sum_where p w l = s0.
Proof.
  induction l as [|t l IH]; intros H; [reflexivity|].
  rewrite sum_where_cons, IH by (intros; apply H; now right).
  destruct (H t (or_introl eq_refl)) as [E|E]; rewrite E;
    destruct (p t); now rewrite ?(ex_add_0_l EX).
Qed.

Lemma sum_where_perm {T} (p : T -> bool) (w : T -> K) l l' :
  Permutation l l' -> sum_where p w l = sum_where p w l'.
Proof.
  induction 1 as [|t l l' _ IH|a b l|l l' l'' _ IH1 _ IH2].
  - reflexivity.
  - now rewrite !sum_where_cons, IH.
  - rewrite !sum_where_cons, !(ex_add_assoc EX). f_equal. apply (ex_add_comm EX).
  - congruence.
Qed.

(** The sum over all ordered pairs of two lists is the product of the sums. *)
Lemma sum_where_prod {T U} (p : T -> bool) (q : U -> bool) (w : T -> K) (v : U -> K) l1 l2 :
  sum_where (fun t => p (fst t) && q (snd t)) (fun t => smul (w (fst t)) (v (snd t)))
    (list_prod l1 l2)
  = smul (sum_where p w l1) (sum_where q v l2).
Proof.
  induction l1 as [|a l1 IH]; simpl.
  - now rewrite !sum_where_nil, ex_mul_0_l.
  - rewrite sum_where_app, IH, sum_where_cons, ex_add_mul. f_equal.
    rewrite sum_where_map. cbn [fst snd].
    destruct (p a); cbn [andb].
    + apply sum_where_scale.
    + rewrite ex_mul_0_l. apply sum_where_none. auto.
Qed.

End ExactSums.

Lemma Z_exact : exact_arithmetic (K:=Z) (SK:=Scalar_Z).
Proof.
  constructor; intros; cbv [sadd smul sopp s0 s1 sis0 Scalar_Z]; try ring.
  apply Z.eqb_eq.
Qed.

Lemma R_exact : exact_arithmetic (K:=R) (SK:=Scalar_R).
Proof.
  constructor; intros; cbv [sadd smul sopp s0 s1 sis0 Scalar_R]; try ring.
  destruct (Req_dec_T a 0); split; intros H; auto; try discriminate; try contradiction.
Qed.

Section Readings.
Context {K : Type} {SK : Scalar K}.

Lemma sum_at_where (l : list (K * Z)) j :
  sum_at l j = sum_where (fun t => (snd t =? j)%Z) fst l.
Proof. reflexivity. Qed.

Lemma sum_at2_where (l : list (K * Z * Z)) r c :
  sum_at2 l r c
  = sum_where (fun t => ((snd (fst t) =? r) && (snd t =? c))%Z) (fun t => fst (fst t)) l.
Proof. reflexivity. Qed.

End Readings.

(** ** Broadcasting *)

Lemma broadcast_shapes_ok a b s :
  broadcast_shapes a b = Ok s -> broadcastable a s = true /\ broadcastable b s = true.
Proof.
  destruct a as [|n], b as [|m]; simpl; intros H.
  - inversion H; subst. auto.
  - inversion H; subst. simpl. now rewrite Nat.eqb_refl.
  - inversion H; subst. simpl. now rewrite Nat.eqb_refl.
  - destruct (Nat.eqb_spec n m) as [->|N].
    + inversion H; subst. simpl. now rewrite Nat.eqb_refl.
    + destruct (Nat.eqb_spec n 1) as [->|N1].
      * inversion H; subst. simpl. rewrite Nat.eqb_refl. now rewrite orb_true_r.
      * destruct (Nat.eqb_spec m 1) as [->|M1]; [|discriminate].
        inversion H; subst. simpl. rewrite Nat.eqb_refl. now rewrite orb_true_r.
Qed.

Lemma broadcastable_size src s :
  broadcastable src s = true -> oshape_eqb src s = false -> osize src = 1.
Proof.
  destruct src as [|n], s as [|m]; simpl; intros B E; try discriminate; auto.
  rewrite E in B. simpl in B. now apply Nat.eqb_eq in B.
Qed.

Lemma bcell_lt src s e : broadcastable src s = true -> e < osize s -> bcell src s e < osize src.
Proof.
  intros B He. unfold bcell. destruct (oshape_eqb src s) eqn:E.
  - apply oshape_eqb_eq in E. now subst.
  - rewrite (broadcastable_size _ _ B E). lia.
Qed.

Lemma bcell_same s e : bcell s s e = e.
Proof. unfold bcell. now rewrite oshape_eqb_refl. Qed.

Lemma stretch_broadcast {T} src s (l : list T) d :
  broadcastable src s = true -> length l = osize src ->
  length (stretch src s l) = osize s /\
  forall e, e < osize s -> nth e (stretch src s l) d = nth (bcell src s e) l d.
Proof.
  intros B L. unfold stretch, bcell. destruct (oshape_eqb src s) eqn:E.
  - apply oshape_eqb_eq in E. subst. auto.
  - rewrite (broadcastable_size _ _ B E) in L.
    destruct l as [|x [|y l]]; simpl in L; try lia.
    split; [apply repeat_length|]. intros e He. simpl. now apply nth_repeat_lt.
Qed.

Lemma concatenate_broadcast {T} (a b : tarr T) s :
  broadcastable (tshape a) s = true -> broadcastable (tshape b) s = true ->
  _concatenate a b (Some s)
  = Ok (Tarr s (twidth a + twidth b)
          (zipWith (@app T) (stretch (tshape a) s (trows a)) (stretch (tshape b) s (trows b)))).
Proof.
  intros Ba Bb. unfold _concatenate, np_broadcast_to.
  rewrite Ba, Bb, !Nat.eqb_refl. cbn [andb orb].
  destruct (oshape_eqb (tshape a) s) eqn:Ea; destruct (oshape_eqb (tshape b) s) eqn:Eb;
    cbn [rbind]; rewrite ?map_wstretch_same;
    try (apply oshape_eqb_eq in Ea); try (apply oshape_eqb_eq in Eb).
  - rewrite np_concatenate_pair by congruence. subst s. now rewrite Eb, !stretch_same.
  - rewrite np_concatenate_pair by (simpl; congruence). simpl.
    subst s. now rewrite stretch_same.
  - rewrite np_concatenate_pair by (simpl; congruence). simpl.
    subst s. now rewrite stretch_same.
  - rewrite np_concatenate_pair by reflexivity. reflexivity.
Qed.

Lemma wf_t_stretched {T} (a : tarr T) s :
  wf_t a -> broadcastable (tshape a) s = true ->
  wf_t (Tarr s (twidth a) (stretch (tshape a) s (trows a))).
Proof.
  intros [L F] B. split; simpl.
  - now apply (stretch_broadcast (tshape a) s (trows a) [] B).
  - now apply Forall_stretch.
Qed.

Lemma row_stretched {T} (a : tarr T) s w e :
  wf_t a -> broadcastable (tshape a) s = true -> e < osize s ->
  row (Tarr s w (stretch (tshape a) s (trows a))) e = row a (bcell (tshape a) s e).
Proof.
  intros [L F] B He. unfold row. simpl.
  now apply (stretch_broadcast (tshape a) s (trows a) [] B).
Qed.

Lemma wf_t_stretched_from {T} (a : tarr T) src s :
  wf_t a -> tshape a = src -> broadcastable src s = true ->
  wf_t (Tarr s (twidth a) (stretch src s (trows a))).
Proof. intros W <- B. now apply wf_t_stretched. Qed.

Lemma row_stretched_from {T} (a : tarr T) src s w e :
  wf_t a -> tshape a = src -> broadcastable src s = true -> e < osize s ->
  row (Tarr s w (stretch src s (trows a))) e = row a (bcell src s e).
Proof. intros W <- B He. now apply row_stretched. Qed.

Section Addition.
Context {K : Type} {SK : Scalar K}.

(** The sum of two arrays whose shapes broadcast to [s]. *)
Lemma add_reading (a b : spAD2 (K:=K)) s :
  wf a -> wf b ->
  broadcast_shapes (vshape (value a)) (vshape (value b)) = Ok s ->
  exists r,
    __add__ a (OAD b) = Ok r /\ wf r /\ vshape (value r) = s /\
    size_ad1 r = size_ad1 a + size_ad1 b /\
    size_ad2 r = size_ad2 a + size_ad2 b /\
    forall e, e < osize s ->
      val (value r) e
      = sadd (val (value a) (bcell (vshape (value a)) s e))
             (val (value b) (bcell (vshape (value b)) s e)) /\
      terms1 r e = terms1 a (bcell (vshape (value a)) s e)
                   ++ terms1 b (bcell (vshape (value b)) s e) /\
      terms2 r e = terms2 a (bcell (vshape (value a)) s e)
                   ++ terms2 b (bcell (vshape (value b)) s e).
Proof.
  intros Wa Wb Hs.
  destruct (broadcast_shapes_ok _ _ Hs) as [Ba Bb].
  pose proof (wf_lengths Wa) as (LVa & L1a & Lia & L2a & Lra & Lca).
  pose proof (wf_lengths Wb) as (LVb & L1b & Lib & L2b & Lrb & Lcb).
  destruct Wa as [Wv W1 Wi W2 Wr Wc S1 Si S2 Sr Sc X1 Xr Xc].
  destruct Wb as [Wv' W1' Wi' W2' Wr' Wc' S1' Si' S2' Sr' Sc' X1' Xr' Xc'].
  unfold __add__, vzip. rewrite Hs. cbn [rbind vshape].
  rewrite !concatenate_broadcast by congruence. cbn [rbind].
  rewrite spAD2_new_ok by (simpl; congruence).
  eexists. split; [reflexivity|].
  destruct (stretch_broadcast _ _ (vdata (value a)) s0 Ba LVa) as [SLa SNa].
  destruct (stretch_broadcast _ _ (vdata (value b)) s0 Bb LVb) as [SLb SNb].
  assert (Q : forall T (x y : tarr T),
             wf_t x -> wf_t y -> broadcastable (tshape x) s = true ->
             broadcastable (tshape y) s = true ->
             wf_t (Tarr s (twidth x + twidth y)
                     (zipWith (@app T) (stretch (tshape x) s (trows x))
                        (stretch (tshape y) s (trows y))))).
  { intros T x y Wx Wy Bx By.
    apply (@wf_t_appended T (Tarr s (twidth x) (stretch (tshape x) s (trows x)))
             (Tarr s (twidth y) (stretch (tshape y) s (trows y))));
      [now apply wf_t_stretched | now apply wf_t_stretched | reflexivity]. }
  split; [|split; [reflexivity|split; [reflexivity|split; [reflexivity|]]]].
  - constructor; cbn [value coef1 index coef2 index_row index_col tshape twidth vshape];
      try reflexivity; try (apply Q; auto; congruence); try congruence.
    unfold wf_v. simpl. rewrite zipWith_length. lia.
  - intros e He.
    assert (R : forall T (x y : tarr T),
               wf_t x -> wf_t y -> tshape x = vshape (value a) -> tshape y = vshape (value b) ->
               row (Tarr s (twidth x + twidth y)
                      (zipWith (@app T) (stretch (tshape x) s (trows x))
                         (stretch (tshape y) s (trows y)))) e
               = row x (bcell (vshape (value a)) s e) ++ row y (bcell (vshape (value b)) s e)).
    { intros T x y Wx Wy Ex Ey.
      assert (Bx : broadcastable (tshape x) s = true) by congruence.
      assert (By : broadcastable (tshape y) s = true) by congruence.
      destruct (@wf_t_stretched _ x s Wx Bx) as [Lx _], (@wf_t_stretched _ y s Wy By) as [Ly _].
      simpl in Lx, Ly.
      rewrite row_zipWith_rows by lia.
      destruct Wx as [Lx' _], Wy as [Ly' _].
      rewrite (proj2 (stretch_broadcast _ _ (trows x) [] Bx Lx')) by lia.
      rewrite (proj2 (stretch_broadcast _ _ (trows y) [] By Ly')) by lia.
      now rewrite Ex, Ey. }
    unfold terms1, terms2, val.
    cbn [value coef1 index coef2 index_row index_col vdata].
    rewrite !R by assumption.
    split; [|split].
    + rewrite (nth_zipWith_in _ _ _ s0 s0 s0) by lia.
      now rewrite SNa, SNb by lia.
    + apply combine_app'.
      rewrite !wf_t_row; auto; rewrite ?S1, ?Si; auto using bcell_lt.
    + rewrite !combine_app'; [reflexivity| |].
      * rewrite length_combine, !wf_t_row; auto; rewrite ?S2, ?Sr, ?Sc;
          auto using bcell_lt. lia.
      * rewrite !wf_t_row; auto; rewrite ?S2, ?Sr; auto using bcell_lt.
Qed.

End Addition.

(** ** The constructor *)

Lemma tshape_eqb_eq {T U} (a : tarr T) (b : tarr U) :
  tshape_eqb a b = true -> tshape a = tshape b /\ twidth a = twidth b.
Proof.
  unfold tshape_eqb. intros H. apply andb_prop in H. destruct H as [H1 H2].
  apply oshape_eqb_eq in H1. apply Nat.eqb_eq in H2. auto.
Qed.

Lemma test_or_broadcast_wf {T} (a a' : tarr T) s b :
  wf_t a -> _test_or_broadcast_ad a s b = Ok a' ->
  wf_t a' /\ tshape a' = s /\ twidth a' = twidth a.
Proof.
  intros W. unfold _test_or_broadcast_ad, np_broadcast_to.
  destruct b.
  - destruct (oshape_eqb (tshape a) s) eqn:E.
    + intros H. inversion H; subst. apply oshape_eqb_eq in E. auto.
    + destruct (broadcastable (tshape a) s) eqn:B; [|discriminate].
      rewrite Nat.eqb_refl. cbn [andb orb]. intros H. inversion H; subst. clear H.
      rewrite map_wstretch_same. split; [|auto]. now apply wf_t_stretched.
  - destruct (oshape_eqb (tshape a) s) eqn:E; [|discriminate]. simpl.
    intros H. inversion H; subst. apply oshape_eqb_eq in E. auto.
Qed.

Section Constructor.
Context {K : Type} {SK : Scalar K}.

Lemma spAD2_new_wf (v : varr K) c1 i1 c2 ir ic b x :
  wf_v v -> wf_opt c1 -> wf_opt i1 -> wf_opt c2 -> wf_opt ir -> wf_opt ic ->
  spAD2_new v c1 i1 c2 ir ic b = Ok x ->
  wf x /\ value x = v /\
  size_ad1 x = match c1 with Some c => twidth c | None => 0 end /\
  size_ad2 x = match c2 with Some c => twidth c | None => 0 end.
Proof.
  intros Wv W1 Wi W2 Wr Wc. unfold spAD2_new.
  destruct c1 as [c1|], i1 as [i1|]; cbn [rbind]; try discriminate;
    simpl in W1, Wi;
    repeat match goal with
    | |- context [py_assert ?c] =>
        destruct c eqn:?; cbn [py_assert rbind]; [|discriminate]
    | |- context [_test_or_broadcast_ad ?a ?s ?f] =>
        destruct (_test_or_broadcast_ad a s f) eqn:?; cbn [rbind]; [|discriminate]
    end;
    (destruct c2 as [c2|], ir as [ir|], ic as [ic|]; cbn [rbind]; try discriminate;
     try (destruct (tshape_eqb c2 ir); discriminate);
     simpl in W2, Wr, Wc;
     repeat match goal with
     | |- context [py_assert ?c] =>
         destruct c eqn:?; cbn [py_assert rbind]; [|discriminate]
     | |- context [_test_or_broadcast_ad ?a ?s ?f] =>
         destruct (_test_or_broadcast_ad a s f) eqn:?; cbn [rbind]; [|discriminate]
     end);
    intros H; inversion H; subst; clear H;
    repeat match goal with
    | H : _ && _ = true |- _ => apply andb_prop in H; destruct H
    | H : tshape_eqb _ _ = true |- _ => apply tshape_eqb_eq in H; destruct H
    | H : _test_or_broadcast_ad _ _ _ = Ok _ |- _ =>
        apply test_or_broadcast_wf in H; [destruct H as (? & ? & ?)|assumption]
    end;
    (split; [|split; [reflexivity|split; unfold size_ad1, size_ad2; simpl; congruence]]);
    constructor; simpl; auto using wf_t_full0; congruence.
Qed.

Lemma spAD2_new_broadcast (v : varr K) c1 i1 c2 ir ic src :
  tshape c1 = src -> tshape i1 = src -> tshape c2 = src -> tshape ir = src -> tshape ic = src ->
  twidth i1 = twidth c1 -> twidth ir = twidth c2 -> twidth ic = twidth c2 ->
  broadcastable src (vshape v) = true ->
  spAD2_new v (Some c1) (Some i1) (Some c2) (Some ir) (Some ic) true
  = Ok (SpAD2 v
          (Tarr (vshape v) (twidth c1) (stretch src (vshape v) (trows c1)))
          (Tarr (vshape v) (twidth i1) (stretch src (vshape v) (trows i1)))
          (Tarr (vshape v) (twidth c2) (stretch src (vshape v) (trows c2)))
          (Tarr (vshape v) (twidth ir) (stretch src (vshape v) (trows ir)))
          (Tarr (vshape v) (twidth ic) (stretch src (vshape v) (trows ic)))).
Proof.
  intros E1 Ei E2 Er Ec X1 Xr Xc B. unfold spAD2_new.
  rewrite (tshape_eqb_true c1 i1), (tshape_eqb_true c2 ir), (tshape_eqb_true c2 ic)
    by congruence.
  cbn [py_assert rbind andb].
  assert (Q : forall T (a : tarr T), tshape a = src ->
            _test_or_broadcast_ad a (vshape v) true
            = Ok (Tarr (vshape v) (twidth a) (stretch src (vshape v) (trows a)))).
  { intros T a Ea. unfold _test_or_broadcast_ad, np_broadcast_to.
    rewrite Ea, B, Nat.eqb_refl. cbn [andb orb].
    destruct (oshape_eqb src (vshape v)) eqn:E.
    - apply oshape_eqb_eq in E. rewrite <- E, stretch_same, <- Ea. now destruct a.
    - now rewrite map_wstretch_same. }
  now rewrite !Q by assumption.
Qed.

End Constructor.

(** ** Operators and the derivatives they stand for *)

Section Operators.
Context {K : Type} {SK : Scalar K}.

Lemma add_constant_reading (a : spAD2 (K:=K)) (c : varr K) s :
  wf a -> wf_v c ->
  broadcast_shapes (vshape (value a)) (vshape c) = Ok s ->
  exists r,
    __add__ a (OArr c) = Ok r /\ wf r /\ vshape (value r) = s /\
    size_ad1 r = size_ad1 a /\ size_ad2 r = size_ad2 a /\
    forall e, e < osize s ->
      val (value r) e
      = sadd (val (value a) (bcell (vshape (value a)) s e)) (val c (bcell (vshape c) s e)) /\
      terms1 r e = terms1 a (bcell (vshape (value a)) s e) /\
      terms2 r e = terms2 a (bcell (vshape (value a)) s e).
Proof.
  intros Wa Wc Hs.
  destruct (broadcast_shapes_ok _ _ Hs) as [Ba Bc].
  pose proof (wf_lengths Wa) as (LVa & L1a & Lia & L2a & Lra & Lca).
  pose proof Wa as Wa'.
  destruct Wa as [Wv W1 Wi W2 Wr Wcc S1 Si S2 Sr Sc X1 Xr Xc].
  unfold __add__, vzip. rewrite Hs. cbn [rbind].
  rewrite spAD2_new_broadcast with (src := vshape (value a)) by (cbn [vshape]; assumption).
  eexists. split; [reflexivity|].
  destruct (stretch_broadcast _ _ (vdata (value a)) s0 Ba LVa) as [SLa SNa].
  destruct (stretch_broadcast _ _ (vdata c) s0 Bc Wc) as [SLc SNc].
  cbn [vshape] in *.
  split; [|split; [reflexivity|split; [reflexivity|split; [reflexivity|]]]].
  - constructor; cbn [value coef1 index coef2 index_row index_col tshape twidth vshape];
      try reflexivity; try congruence;
      try (apply wf_t_stretched_from; auto; congruence).
    unfold wf_v. simpl. rewrite zipWith_length. lia.
  - intros e He. unfold terms1, terms2, val.
    cbn [value coef1 index coef2 index_row index_col vdata].
    rewrite !row_stretched_from by (auto; congruence).
    split; [|auto].
    rewrite (nth_zipWith_in _ _ _ s0 s0 s0) by lia. now rewrite SNa, SNc by lia.
Qed.

Lemma add_scalar_reading (a : spAD2 (K:=K)) (k : K) :
  wf a ->
  __add__ a (OScalar k)
  = Ok (SpAD2 (vmap (fun v => sadd v k) (value a)) (coef1 a) (index a)
          (coef2 a) (index_row a) (index_col a)).
Proof.
  intros [Wv W1 Wi W2 Wr Wcc S1 Si S2 Sr Sc X1 Xr Xc]. unfold __add__.
  now rewrite spAD2_new_ok by (simpl; congruence).
Qed.

End Operators.

Section DenseRules.
Context {K : Type} {SK : Scalar K}.
Hypothesis EX : exact_arithmetic (K:=K).

Lemma sum_at_app (l1 l2 : list (K * Z)) j :
  sum_at (l1 ++ l2) j = sadd (sum_at l1 j) (sum_at l2 j).
Proof. rewrite !sum_at_where. now apply sum_where_app. Qed.

Lemma sum_at2_app (l1 l2 : list (K * Z * Z)) r c :
  sum_at2 (l1 ++ l2) r c = sadd (sum_at2 l1 r c) (sum_at2 l2 r c).
Proof. rewrite !sum_at2_where. now apply sum_where_app. Qed.

Lemma sum_at_scaled (k : K) (l : list (K * Z)) j :
  sum_at (map (fun t => (smul k (fst t), snd t)) l) j = smul k (sum_at l j).
Proof.
  rewrite !sum_at_where, sum_where_map. cbn [fst snd]. now apply sum_where_scale.
Qed.

Lemma sum_at2_scaled (k : K) (l : list (K * Z * Z)) r c :
  sum_at2 (map (fun t => (smul k (fst (fst t)), snd (fst t), snd t)) l) r c
  = smul k (sum_at2 l r c).
Proof.
  rewrite !sum_at2_where, sum_where_map. cbn [fst snd].
  now apply (sum_where_scale EX (fun t : K * Z * Z => ((snd (fst t) =? r) && (snd t =? c))%Z)
               (fun t => fst (fst t))).
Qed.

Lemma sum_at_opposed (l : list (K * Z)) j :
  sum_at (map (fun t => (sopp (fst t), snd t)) l) j = sopp (sum_at l j).
Proof.
  rewrite !sum_at_where, sum_where_map. cbn [fst snd]. now apply sum_where_opp.
Qed.

Lemma sum_at2_opposed (l : list (K * Z * Z)) r c :
  sum_at2 (map (fun t => (sopp (fst (fst t)), snd (fst t), snd t)) l) r c
  = sopp (sum_at2 l r c).
Proof.
  rewrite !sum_at2_where, sum_where_map. cbn [fst snd].
  now apply (sum_where_opp EX (fun t : K * Z * Z => ((snd (fst t) =? r) && (snd t =? c))%Z)
               (fun t => fst (fst t))).
Qed.

(** The coefficients [c_p * c_q] of all ordered pairs, stored at (index of
    [p], index of [q]), sum to the product of the two gradients. *)
Lemma sum_at2_pairs (l1 l2 : list (K * Z)) r c :
  sum_at2 (map (fun p => (smul (fst (fst p)) (fst (snd p)), snd (fst p), snd (snd p)))
             (list_prod l1 l2)) r c
  = smul (sum_at l1 r) (sum_at l2 c).
Proof.
  rewrite sum_at2_where, !sum_at_where, sum_where_map. cbn [fst snd].
  now apply (sum_where_prod EX (fun t : K * Z => (snd t =? r)%Z) (fun t : K * Z => (snd t =? c)%Z)
               fst fst).
Qed.

Lemma sum_at2_pairs_swapped (l1 l2 : list (K * Z)) r c :
  sum_at2 (map (fun p => (smul (fst (fst p)) (fst (snd p)), snd (snd p), snd (fst p)))
             (list_prod l1 l2)) r c
  = smul (sum_at l1 c) (sum_at l2 r).
Proof.
  rewrite sum_at2_where, !sum_at_where, sum_where_map. cbn [fst snd].
  rewrite <- (sum_where_prod EX (fun t : K * Z => (snd t =? c)%Z)
                (fun t : K * Z => (snd t =? r)%Z) fst fst).
  apply sum_where_ext; auto. intros t _. split; [apply andb_comm | reflexivity].
Qed.

End DenseRules.

Lemma broadcast_shapes_comm a b : broadcast_shapes a b = broadcast_shapes b a.
Proof.
  destruct a as [|n], b as [|m]; simpl; auto.
  destruct (Nat.eqb_spec n m) as [->|N].
  - now rewrite Nat.eqb_refl.
  - destruct (Nat.eqb_spec m n) as [E|_]; [congruence|].
    destruct (Nat.eqb_spec n 1) as [->|N1]; destruct (Nat.eqb_spec m 1) as [->|M1];
      auto; congruence.
Qed.

Section Scaling.
Context {K : Type} {SK : Scalar K}.

Lemma mul_scalar_reading (a : spAD2 (K:=K)) (k : K) :
  wf a ->
  __mul__ a (OScalar k)
  = Ok (SpAD2 (vmap (fun v => smul v k) (value a)) (tmap (smul k) (coef1 a)) (index a)
          (tmap (smul k) (coef2 a)) (index_row a) (index_col a)).
Proof.
  intros [Wv W1 Wi W2 Wr Wcc S1 Si S2 Sr Sc X1 Xr Xc]. unfold __mul__.
  now rewrite spAD2_new_ok by (simpl; congruence).
Qed.

Lemma row_tmap {A B} (f : A -> B) (t : tarr A) e :
  e < length (trows t) -> row (tmap f t) e = map f (row t e).
Proof. intros H. unfold row, tmap. simpl. now apply nth_map_in. Qed.

Lemma add_dim_times_broadcast (c : varr K) (t : tarr K) s :
  broadcast_shapes (vshape c) (tshape t) = Ok s ->
  add_dim_times c t
  = Ok (Tarr s (twidth t)
          (zipWith (fun x r => map (smul x) r)
             (stretch (vshape c) s (vdata c)) (stretch (tshape t) s (trows t)))).
Proof. intros H. unfold add_dim_times. now rewrite H. Qed.

Lemma np_broadcast_to_ok {T} (t : tarr T) s W :
  broadcastable (tshape t) s = true -> twidth t = W ->
  np_broadcast_to t s W = Ok (Tarr s W (stretch (tshape t) s (trows t))).
Proof.
  intros B <-. unfold np_broadcast_to. rewrite B, Nat.eqb_refl. cbn [andb orb].
  now rewrite map_wstretch_same.
Qed.

Lemma mul_array_reading (a : spAD2 (K:=K)) (c : varr K) s :
  wf a -> wf_v c ->
  broadcast_shapes (vshape (value a)) (vshape c) = Ok s ->
  exists r,
    __mul__ a (OArr c) = Ok r /\ wf r /\ vshape (value r) = s /\
    size_ad1 r = size_ad1 a /\ size_ad2 r = size_ad2 a /\
    forall e, e < osize s ->
      val (value r) e
      = smul (val (value a) (bcell (vshape (value a)) s e)) (val c (bcell (vshape c) s e)) /\
      terms1 r e
      = map (fun t => (smul (val c (bcell (vshape c) s e)) (fst t), snd t))
          (terms1 a (bcell (vshape (value a)) s e)) /\
      terms2 r e
      = map (fun t => (smul (val c (bcell (vshape c) s e)) (fst (fst t)), snd (fst t), snd t))
          (terms2 a (bcell (vshape (value a)) s e)).
Proof.
  intros Wa Wc Hs.
  destruct (broadcast_shapes_ok _ _ Hs) as [Ba Bc].
  pose proof (wf_lengths Wa) as (LVa & L1a & Lia & L2a & Lra & Lca).
  destruct Wa as [Wv W1 Wi W2 Wr Wcc S1 Si S2 Sr Sc X1 Xr Xc].
  assert (Hs' : broadcast_shapes (vshape c) (vshape (value a)) = Ok s)
    by (now rewrite broadcast_shapes_comm).
  unfold __mul__, vzip. rewrite Hs. cbn [rbind].
  rewrite !add_dim_times_broadcast with (s := s) by congruence.
  cbn [rbind tshape twidth].
  rewrite !np_broadcast_to_ok by congruence.
  cbn [rbind].
  rewrite spAD2_new_ok by (simpl; congruence).
  eexists. split; [reflexivity|].
  destruct (stretch_broadcast _ _ (vdata (value a)) s0 Ba LVa) as [SLa SNa].
  destruct (stretch_broadcast _ _ (vdata c) s0 Bc Wc) as [SLc SNc].
  assert (Q : forall (t : tarr K), wf_t t -> tshape t = vshape (value a) ->
            wf_t (Tarr s (twidth t)
                    (zipWith (fun x r => map (smul x) r) (stretch (vshape c) s (vdata c))
                       (stretch (tshape t) s (trows t))))).
  { intros t Wt Et.
    destruct (@wf_t_stretched _ t s Wt ltac:(congruence)) as [Lt Ft]. simpl in Lt, Ft.
    split; simpl.
    - rewrite zipWith_length. lia.
    - apply Forall_zipWith. intros x r _ Hr. rewrite length_map.
      rewrite Forall_forall in Ft. now apply Ft. }
  split; [|split; [reflexivity|split; [reflexivity|split; [reflexivity|]]]].
  - constructor; cbn [value coef1 index coef2 index_row index_col tshape twidth vshape];
      try reflexivity; try congruence; auto;
      try (apply wf_t_stretched; auto; congruence).
    + unfold wf_v. simpl. rewrite zipWith_length. lia.
    + rewrite <- X1. apply wf_t_stretched; auto; congruence.
    + rewrite <- Xr. apply wf_t_stretched; auto; congruence.
    + rewrite <- Xc. apply wf_t_stretched; auto; congruence.
  - intros e He. unfold terms1, terms2, val.
    cbn [value coef1 index coef2 index_row index_col vdata].
    assert (R : forall (t : tarr K), wf_t t -> tshape t = vshape (value a) ->
              row (Tarr s (twidth t)
                     (zipWith (fun x r => map (smul x) r) (stretch (vshape c) s (vdata c))
                        (stretch (tshape t) s (trows t)))) e
              = map (smul (nth (bcell (vshape c) s e) (vdata c) s0))
                  (row t (bcell (vshape (value a)) s e))).
    { intros t Wt Et.
      destruct (@wf_t_stretched _ t s Wt ltac:(congruence)) as [Lt _]. simpl in Lt.
      rewrite (row_zipWith _ _ _ _ _ s0) by lia.
      rewrite SNc by lia. destruct Wt as [Lt' _].
      assert (Bt : broadcastable (tshape t) s = true) by congruence.
      rewrite (proj2 (stretch_broadcast (tshape t) s (trows t) [] Bt Lt')) by lia.
      now rewrite Et. }
    rewrite !R by assumption.
    rewrite !row_stretched by (auto; congruence).
    rewrite Si, Sr, Sc.
    split; [|split].
    + rewrite (nth_zipWith_in _ _ _ s0 s0 s0) by lia. now rewrite SNa, SNc by lia.
    + now rewrite combine_map_l.
    + now rewrite combine_map_l, combine_map_first.
Qed.

End Scaling.

Lemma stretch_map {A B} (f : A -> B) src s (l : list A) :
  stretch src s (map f l) = map f (stretch src s l).
Proof.
  unfold stretch. destruct (oshape_eqb src s); auto.
  destruct l; simpl; auto. now rewrite map_repeat.
Qed.

Lemma zipWith_map_r {A B B' C} (f : A -> B -> C) (g : B' -> B) l l' :
  zipWith f l (map g l') = zipWith (fun x y => f x (g y)) l l'.
Proof. revert l'; induction l; destruct l'; simpl; auto. now rewrite IHl. Qed.

Section Subtraction.
Context {K : Type} {SK : Scalar K}.

Lemma neg_reading (a : spAD2 (K:=K)) :
  wf a ->
  __neg__ a
  = Ok (SpAD2 (vmap sopp (value a)) (tmap sopp (coef1 a)) (index a)
          (tmap sopp (coef2 a)) (index_row a) (index_col a)).
Proof.
  intros [Wv W1 Wi W2 Wr Wcc S1 Si S2 Sr Sc X1 Xr Xc]. unfold __neg__.
  now rewrite spAD2_new_ok by (simpl; congruence).
Qed.

Lemma neg_wf (a : spAD2 (K:=K)) :
  wf a ->
  wf (SpAD2 (vmap sopp (value a)) (tmap sopp (coef1 a)) (index a)
        (tmap sopp (coef2 a)) (index_row a) (index_col a)).
Proof.
  intros [Wv W1 Wi W2 Wr Wcc S1 Si S2 Sr Sc X1 Xr Xc].
  constructor; simpl; auto using wf_t_tmap.
  unfold wf_v in *. simpl. now rewrite length_map.
Qed.

Lemma sub_is_add_neg (a b : spAD2 (K:=K)) :
  wf b ->
  __sub__ a (OAD b) = (nb <- __neg__ b ;; __add__ a (OAD nb)).
Proof.
  intros Wb. rewrite neg_reading by assumption. cbn [rbind].
  unfold __sub__, __add__, vzip.
  cbn [value coef1 index coef2 index_row index_col vmap vshape vdata].
  destruct (broadcast_shapes (vshape (value a)) (vshape (value b))) as [s|ex];
    cbn [rbind vshape]; [|reflexivity].
  rewrite stretch_map, zipWith_map_r. reflexivity.
Qed.

Lemma sub_array_is_add (a : spAD2 (K:=K)) (c : varr K) :
  __sub__ a (OArr c) = __add__ a (OArr (vmap sopp c)).
Proof.
  unfold __sub__, __add__, vzip. cbn [vmap vshape vdata].
  destruct (broadcast_shapes (vshape (value a)) (vshape c)) as [s|ex];
    cbn [rbind vshape]; [|reflexivity].
  rewrite stretch_map, zipWith_map_r. reflexivity.
Qed.

Lemma sub_reading (a b : spAD2 (K:=K)) s :
  wf a -> wf b ->
  broadcast_shapes (vshape (value a)) (vshape (value b)) = Ok s ->
  exists r,
    __sub__ a (OAD b) = Ok r /\ wf r /\ vshape (value r) = s /\
    size_ad1 r = size_ad1 a + size_ad1 b /\
    size_ad2 r = size_ad2 a + size_ad2 b /\
    forall e, e < osize s ->
      val (value r) e
      = ssub (val (value a) (bcell (vshape (value a)) s e))
             (val (value b) (bcell (vshape (value b)) s e)) /\
      terms1 r e = terms1 a (bcell (vshape (value a)) s e)
                   ++ map (fun t => (sopp (fst t), snd t))
                        (terms1 b (bcell (vshape (value b)) s e)) /\
      terms2 r e = terms2 a (bcell (vshape (value a)) s e)
                   ++ map (fun t => (sopp (fst (fst t)), snd (fst t), snd t))
                        (terms2 b (bcell (vshape (value b)) s e)).
Proof.
  intros Wa Wb Hs. rewrite sub_is_add_neg, neg_reading by assumption. cbn [rbind].
  destruct (broadcast_shapes_ok _ _ Hs) as [Ba Bb].
  pose proof (wf_lengths Wb) as (LVb & L1b & Lib & L2b & Lrb & Lcb).
  destruct (@add_reading K SK a _ s Wa (neg_wf Wb) Hs)
    as (r & Hr & Wr & Er & E1 & E2 & R).
  exists r. split; [exact Hr|]. split; [exact Wr|]. split; [exact Er|].
  split; [exact E1|]. split; [exact E2|].
  intros e He. destruct (R e He) as (Rv & R1 & R2).
  cbn [value vmap vshape vdata] in Rv, R1, R2.
  pose proof (@bcell_lt (vshape (value b)) s e Bb He) as Hb.
  split; [|split].
  - rewrite Rv. unfold val, ssub. cbn [value vmap vdata].
    now rewrite (nth_map_in _ _ s0) by lia.
  - rewrite R1. f_equal. unfold terms1. cbn [coef1 index].
    rewrite row_tmap by lia. now rewrite combine_map_l.
  - rewrite R2. f_equal. unfold terms2. cbn [coef2 index_row index_col].
    rewrite row_tmap by lia. now rewrite combine_map_l, combine_map_first.
Qed.

End Subtraction.

(** ** Indexing *)

Lemma pick_nth {T} (l : list T) ps d :
  (forall p, In p ps -> p < length l) -> pick l ps = map (fun p => nth p l d) ps.
Proof.
  unfold pick. induction ps as [|p ps IH]; intros H; simpl; [reflexivity|].
  rewrite IH by (intros; apply H; now right).
  assert (Hp : p < length l) by (apply H; now left).
  rewrite (nth_as_error l p d).
  destruct (nth_error l p) eqn:E; [reflexivity|].
  apply nth_error_None in E. lia.
Qed.

Lemma wf_t_picked {T} (a : tarr T) ks ps :
  wf_t a -> (forall p, In p ps -> p < osize (tshape a)) -> length ps = osize ks ->
  wf_t (Tarr ks (twidth a) (pick (trows a) ps)).
Proof.
  intros [L F] R Lp. rewrite (pick_nth _ _ []) by (intros; rewrite L; auto).
  split; simpl.
  - now rewrite length_map.
  - apply Forall_forall. intros r Hr. apply in_map_iff in Hr.
    destruct Hr as (p & <- & Hp). rewrite Forall_forall in F. apply F, nth_In.
    rewrite L. auto.
Qed.

Section GetItem.
Context {K : Type} {SK : Scalar K}.

Lemma getitem_reading (x : spAD2 (K:=K)) key ks ps :
  wf x -> key_select (vshape (value x)) key = Ok (ks, ps) ->
  exists r,
    __getitem__ x key = Ok r /\ wf r /\ vshape (value r) = ks /\
    size_ad1 r = size_ad1 x /\ size_ad2 r = size_ad2 x /\
    forall k, k < length ps ->
      val (value r) k = val (value x) (nth k ps 0) /\
      row (coef1 r) k = row (coef1 x) (nth k ps 0) /\
      row (index r) k = row (index x) (nth k ps 0) /\
      row (coef2 r) k = row (coef2 x) (nth k ps 0) /\
      row (index_row r) k = row (index_row x) (nth k ps 0) /\
      row (index_col r) k = row (index_col x) (nth k ps 0).
Proof.
  intros W Hk.
  destruct (key_select_props _ _ Hk) as (ND & R & Lp).
  pose proof (wf_lengths W) as (LV & L1 & Li & L2 & Lr & Lc).
  destruct W as [Wv W1 Wi W2 Wr Wc S1 Si S2 Sr Sc X1 Xr Xc].
  unfold __getitem__, key_expand, np_getitem_v, np_getitem_t.
  rewrite S1, Si, S2, Sr, Sc, Hk. cbn [rbind].
  rewrite spAD2_new_ok by (simpl; congruence).
  eexists. split; [reflexivity|].
  split; [|split; [reflexivity|split; [reflexivity|split; [reflexivity|]]]].
  - constructor; cbn [value coef1 index coef2 index_row index_col tshape twidth vshape];
      try reflexivity; try congruence;
      try (apply wf_t_picked; auto; intros; rewrite ?S1, ?Si, ?S2, ?Sr, ?Sc; auto).
    unfold wf_v. simpl. rewrite (pick_nth _ _ s0) by (intros; rewrite LV; auto).
    now rewrite length_map.
  - intros k Hk'. unfold val, row.
    cbn [value coef1 index coef2 index_row index_col vdata trows].
    rewrite (pick_nth (vdata (value x)) _ s0) by (intros; rewrite LV; auto).
    rewrite !(pick_nth _ _ []) by (intros; rewrite ?L1, ?Li, ?L2, ?Lr, ?Lc; auto).
    rewrite !(nth_map_in _ _ 0) by lia. repeat split; reflexivity.
Qed.

Lemma getitem_raises (x : spAD2 (K:=K)) key ex :
  key_select (vshape (value x)) key = Raise ex -> __getitem__ x key = Raise ex.
Proof.
  intros H. unfold __getitem__, np_getitem_v. now rewrite H.
Qed.

End GetItem.

Section SetConstant.
Context {K : Type} {SK : Scalar K}.

Ltac run_self :=
  cbv beta iota delta [mbind get lift mret set_value set_coef1 set_index set_coef2
                         set_index_row set_index_col];
  cbn [value coef1 index coef2 index_row index_col fst snd
       w_value w_coef1 w_index w_coef2 w_index_row w_index_col orb np_writing].

(** The state that [self[key] = c] leaves behind for a constant [c]. *)
Lemma setitem_constant_state w key other (t : spAD2 (K:=K)) ks ps :
  wf t -> key_select (vshape (value t)) key = Ok (ks, ps) ->
  match other with
  | OAD _ => False
  | OArr a => assignable (vshape a) ks = true
  | OScalar _ => True
  end ->
  writes_allowed w other t ->
  __setitem__ w key other t
  = (Ok tt,
     SpAD2 (Varr (vshape (value t))
              (write ps
                 match other with
                 | OArr a => stretch (vshape a) ks (vdata a)
                 | OScalar c => repeat c (length ps)
                 | OAD _ => []
                 end (vdata (value t))))
       (Tarr (tshape (coef1 t)) (twidth (coef1 t))
          (write ps (repeat (repeat s0 (twidth (coef1 t))) (length ps)) (trows (coef1 t))))
       (index t)
       (Tarr (tshape (coef2 t)) (twidth (coef2 t))
          (write ps (repeat (repeat s0 (twidth (coef2 t))) (length ps)) (trows (coef2 t))))
       (index_row t) (index_col t)).
Proof.
  intros W H A Hw. destruct W as [Wv W1 Wi W2 Wr Wc S1 Si S2 Sr Sc X1 Xr Xc].
  unfold __setitem__, key_expand.
  destruct w as [wv w1 wi w2 wr wc].
  destruct other as [o|a|k]; [contradiction| |]; destruct Hw as (Hv & H1 & H2);
    cbn [w_value w_coef1 w_coef2] in Hv, H1, H2; subst wv w1 w2; run_self.
  - rewrite (np_setitem_v_ok _ _ _ H A). run_self.
    unfold np_fill_t. rewrite S1, S2, H. cbn [rbind]. run_self. reflexivity.
  - unfold np_fill_v, np_fill_t. rewrite S1, S2, H. cbn [rbind]. run_self. reflexivity.
Qed.

End SetConstant.

Lemma combine_repeat {A B} (x : A) (y : B) n :
  combine (repeat x n) (repeat y n) = repeat (x, y) n.
Proof. induction n; simpl; congruence. Qed.

Lemma combine_padded {A B} (a : list A) (b : list B) (x : A) (y : B) n :
  length a = length b ->
  combine (a ++ repeat x n) (b ++ repeat y n) = combine a b ++ repeat (x, y) n.
Proof. intros L. now rewrite combine_app', combine_repeat. Qed.

Section Placeholders.
Context {K : Type} {SK : Scalar K}.
Hypothesis EX : exact_arithmetic (K:=K).

Lemma sum_at_placeholders (l : list (K * Z)) n j :
  sum_at (l ++ repeat (s0, 0%Z) n) j = sum_at l j.
Proof.
  rewrite sum_at_app by assumption. rewrite (sum_at_where (repeat _ _)).
  rewrite sum_where_none; [now apply ex_add_0_r|assumption|].
  intros t Ht. apply repeat_spec in Ht. subst. now right.
Qed.

Lemma sum_at2_placeholders (l : list (K * Z * Z)) n r c :
  sum_at2 (l ++ repeat (s0, 0%Z, 0%Z) n) r c = sum_at2 l r c.
Proof.
  rewrite sum_at2_app by assumption. rewrite (sum_at2_where (repeat _ _)).
  rewrite sum_where_none; [now apply ex_add_0_r|assumption|].
  intros t Ht. apply repeat_spec in Ht. subst. now right.
Qed.

Lemma sum_at_zero_coefficients (c : list K) (i : list Z) j :
  Forall (fun x => x = s0) c -> sum_at (combine c i) j = s0.
Proof.
  intros F. rewrite sum_at_where. apply sum_where_none; [assumption|].
  intros [x y] Ht. right. apply in_combine_l in Ht. rewrite Forall_forall in F.
  now apply F.
Qed.

Lemma sum_at2_zero_coefficients (c : list K) (ir ic : list Z) r l :
  Forall (fun x => x = s0) c -> sum_at2 (combine (combine c ir) ic) r l = s0.
Proof.
  intros F. rewrite sum_at2_where. apply sum_where_none; [assumption|].
  intros [[x y] z] Ht. right. apply in_combine_l, in_combine_l in Ht.
  rewrite Forall_forall in F. now apply F.
Qed.

End Placeholders.

Section RoundTrip.
Context {K : Type} {SK : Scalar K}.

Lemma setitem_getitem w (key : key) (o t : spAD2 (K:=K)) ks ps :
  wf t -> wf o ->
  key_select (vshape (value t)) key = Ok (ks, ps) ->
  assignable (vshape (value o)) ks = true ->
  writes_allowed w (OAD o) t ->
  exists t' r,
    __setitem__ w key (OAD o) t = (Ok tt, t') /\ wf t' /\
    __getitem__ t' key = Ok r /\ wf r /\ vshape (value r) = ks /\
    forall k, k < osize ks ->
      let k' := bcell (vshape (value o)) ks k in
      val (value r) k = val (value o) k' /\
      terms1 r k = terms1 o k' ++ repeat (s0, 0%Z) (size_ad1 t' - size_ad1 o) /\
      terms2 r k = terms2 o k' ++ repeat (s0, 0%Z, 0%Z) (size_ad2 t' - size_ad2 o).
Proof.
  intros Wt Wo Hk A Hw.
  destruct (setitem_reading _ Wt Wo Hk A Hw) as (t' & Hs & Wt' & Es & _ & _ & _ & Hin).
  rewrite <- Es in Hk.
  destruct (getitem_reading _ Wt' Hk) as (r & Hg & Wr & Er & _ & _ & R).
  destruct (key_select_props _ _ Hk) as (_ & _ & Lp).
  exists t', r. repeat (split; [assumption|]).
  intros k Hk' k'. rewrite <- Lp in Hk'.
  destruct (R k Hk') as (Rv & R1 & Ri & R2 & Rr & Rc).
  destruct (Hin k Hk') as (Iv & I1 & Ii & I2 & Ir & Ic).
  fold (bcell (vshape (value o)) ks k) in Iv, I1, Ii, I2, Ir, Ic. fold k' in Iv, I1, Ii, I2, Ir, Ic.
  assert (Hk'' : k' < osize (vshape (value o))).
  { unfold k'. apply assignable_source; auto. lia. }
  destruct (wf_rows Wo Hk'') as (Q1 & Qi & Q2 & Qr & Qc).
  split; [congruence|]. unfold terms1, terms2. split.
  - rewrite R1, Ri, I1, Ii. apply combine_padded. congruence.
  - rewrite R2, Rr, Rc, I2, Ir, Ic.
    rewrite combine_padded by congruence.
    apply combine_padded. rewrite length_combine. lia.
Qed.

End RoundTrip.

(** ** Simplification keeps the derivatives *)

Section SimplifyDense.
Context {K : Type} {SK : Scalar K}.
Hypothesis EX : exact_arithmetic (K:=K).

Lemma sum_at_add_term (c : K) i acc j :
  sum_at (add_term c i acc) j = sadd (sum_at acc j) (if (i =? j)%Z then c else s0).
Proof.
  rewrite !sum_at_where.
  induction acc as [|[c' i'] tl IH]; simpl.
  - rewrite sum_where_cons, !sum_where_nil by assumption. cbn [fst snd].
    now rewrite ex_add_0_r, (ex_add_0_l EX).
  - destruct (Z.eqb_spec i i') as [->|N].
    + rewrite !sum_where_cons by assumption. cbn [fst snd].
      destruct (i' =? j)%Z.
      * rewrite <- !(ex_add_assoc EX). f_equal. apply (ex_add_comm EX).
      * now rewrite ex_add_0_r.
    + rewrite !sum_where_cons, IH by assumption. now rewrite (ex_add_assoc EX).
Qed.

Lemma sum_at_merged_from (l acc : list (K * Z)) j :
  sum_at (fold_left (fun acc p => add_term (fst p) (snd p) acc) l acc) j
  = sadd (sum_at acc j) (sum_at l j).
Proof.
  revert acc. induction l as [|[c i] l IH]; intros acc; simpl.
  - rewrite (sum_at_where []), sum_where_nil. now rewrite ex_add_0_r.
  - rewrite IH, sum_at_add_term.
    rewrite (sum_at_where ((c, i) :: l)), sum_where_cons by assumption. cbn [fst snd].
    rewrite <- sum_at_where. now rewrite (ex_add_assoc EX).
Qed.

Lemma sum_at_merge_terms (l : list (K * Z)) j : sum_at (merge_terms l) j = sum_at l j.
Proof.
  unfold merge_terms. rewrite sum_at_merged_from.
  rewrite (sum_at_where []), sum_where_nil. apply (ex_add_0_l EX).
Qed.

Lemma sum_at_nonzero (l : list (K * Z)) j :
  sum_at (filter (fun p => negb (sis0 (fst p))) l) j = sum_at l j.
Proof.
  rewrite !sum_at_where. induction l as [|[c i] l IH]; simpl; [reflexivity|].
  destruct (sis0 c) eqn:E; simpl.
  - apply (ex_is0 EX) in E. subst c.
    rewrite sum_where_cons, IH by assumption. cbn [fst snd].
    destruct (i =? j)%Z; now rewrite (ex_add_0_l EX).
  - now rewrite !sum_where_cons, IH by assumption.
Qed.

Lemma sum_at_simplify_row c i j :
  sum_at (simplify_row c i) j = sum_at (combine c i) j.
Proof. unfold simplify_row. now rewrite sum_at_nonzero, sum_at_merge_terms. Qed.

End SimplifyDense.

Lemma nth_pad_rows {K : Type} {SK : Scalar K} (L : list (list (K * Z))) e :
  e < length L ->
  nth e (pad_rows L) []
  = nth e L [] ++ repeat (s0, 0%Z)
                    (fold_right Nat.max 0 (map (@length (K * Z)) L) - length (nth e L [])).
Proof. intros H. unfold pad_rows. now rewrite (nth_map_in _ _ []). Qed.

Section SimplifiedTerms.
Context {K : Type} {SK : Scalar K}.

(** The entries of the elements of a simplified_exact array. *)
Lemma simplified_terms (x : spAD2 (K:=K)) m e :
  wf x -> e < osize (vshape (value x)) ->
  let n := (1 + m)%Z in
  let R1 := simplify_row (row (coef1 x) e) (row (index x) e) in
  let R2 := simplify_row (row (coef2 x) e)
              (zipWith Z.add (map (fun r => (r * n)%Z) (row (index_row x) e))
                 (row (index_col x) e)) in
  terms1 (simplified_exact x m) e
  = R1 ++ repeat (s0, 0%Z) (size_ad1 (simplified_exact x m) - length R1) /\
  terms2 (simplified_exact x m) e
  = map (fun p => (fst p, np_floordiv (snd p) n, np_mod (snd p) n))
      (R2 ++ repeat (s0, 0%Z) (size_ad2 (simplified_exact x m) - length R2)).
Proof.
  intros W He n R1 R2.
  pose proof (wf_lengths W) as (LV & L1 & Li & L2 & Lr & Lc).
  assert (Lk : length (trows (exact_keys x n)) = osize (vshape (value x))).
  { unfold exact_keys. simpl. rewrite zipWith_length, length_map. lia. }
  unfold terms1, terms2, simplified_exact, size_ad1, size_ad2.
  rewrite !Sparse_simplify_ad_rows.
  cbn [value coef1 index coef2 index_row index_col sp_value sp_coef sp_index].
  unfold tmap. cbn [tshape twidth trows]. fold n.
  rewrite !row_map_rows, !nth_map_rows.
  rewrite !nth_pad_rows by (rewrite zipWith_length; lia).
  rewrite !(nth_zipWith_in _ _ _ [] [] []) by lia.
  assert (Ek : nth e (trows (exact_keys x n)) []
               = zipWith Z.add (map (fun r => (r * n)%Z) (row (index_row x) e))
                   (row (index_col x) e)).
  { unfold exact_keys. cbn [trows].
    rewrite (nth_zipWith_in _ _ _ [] [] []) by (rewrite ?length_map; lia).
    now rewrite (nth_map_in _ _ []) by lia. }
  rewrite Ek. fold (row (coef1 x) e) (row (index x) e) (row (coef2 x) e). fold R1 R2.
  split.
  - rewrite combine_map_map. etransitivity; [|apply map_id].
    apply map_ext. now intros [? ?].
  - rewrite !map_map. rewrite combine_map_map.
    now rewrite (combine_map_map (fun p : K * Z => (fst p, np_floordiv (snd p) n))).
Qed.

End SimplifiedTerms.

Lemma np_max_attained_below (t : tarr Z) m :
  np_max t = Ok m -> exists c, In c (concat (trows t)) /\ (c <= m)%Z.
Proof.
  unfold np_max. destruct (concat (trows t)) as [|x l]; [discriminate|].
  intros H. inversion H; subst. exists x. split; [now left|]. apply fold_max_init.
Qed.

Lemma np_max_bound_all (t : tarr Z) m c :
  np_max t = Ok m -> In c (concat (trows t)) -> (c <= m)%Z.
Proof.
  intros H Hc. apply in_concat in Hc. destruct Hc as (r & Hr & Hc).
  eapply np_max_bound; eauto.
Qed.

Lemma key_decode_iff (n k i j : Z) :
  (0 < n)%Z -> (0 <= j < n)%Z ->
  ((np_floordiv k n =? i) && (np_mod k n =? j))%Z = (k =? i * n + j)%Z.
Proof.
  intros Hn Hj. unfold np_floordiv, np_mod.
  destruct (Z.eqb_spec n 0) as [?|_]; [lia|].
  pose proof (Z.div_mod k n ltac:(lia)) as D.
  pose proof (Z.mod_pos_bound k n Hn) as B.
  destruct (Z.eqb_spec k (i * n + j)) as [E|N].
  - assert ((k / n = i)%Z /\ (k mod n = j)%Z) as [-> ->].
    { subst k. split.
      - rewrite Z.div_add_l by lia. rewrite Z.div_small by lia. lia.
      - rewrite Z.add_comm, Z_mod_plus_full. now apply Z.mod_small. }
    now rewrite !Z.eqb_refl.
  - destruct (Z.eqb_spec (k / n) i) as [E1|]; [|reflexivity].
    destruct (Z.eqb_spec (k mod n) j) as [E2|]; [|reflexivity].
    exfalso. apply N. rewrite D, E1, E2. ring.
Qed.

Lemma key_encode_iff (n r c i j : Z) :
  (0 <= c < n)%Z -> (0 <= j < n)%Z ->
  (r * n + c =? i * n + j)%Z = ((r =? i) && (c =? j))%Z.
Proof.
  intros Hc Hj.
  destruct (Z.eqb_spec r i) as [->|N1]; destruct (Z.eqb_spec c j) as [->|N2]; cbn [andb].
  - apply Z.eqb_refl.
  - apply Z.eqb_neq. lia.
  - apply Z.eqb_neq. nia.
  - apply Z.eqb_neq. nia.
Qed.

Section SimplifyHessian.
Context {K : Type} {SK : Scalar K}.
Hypothesis EX : exact_arithmetic (K:=K).

Lemma sum_at2_decoded (P : list (K * Z)) n i j :
  (0 < n)%Z ->
  sum_at2 (map (fun p => (fst p, np_floordiv (snd p) n, np_mod (snd p) n)) P) i j
  = if ((0 <=? j) && (j <? n))%Z then sum_at P (i * n + j) else s0.
Proof.
  intros Hn. rewrite sum_at2_where, sum_at_where, sum_where_map. cbn [fst snd].
  destruct (Z.leb_spec 0 j); destruct (Z.ltb_spec j n); cbn [andb].
  - apply sum_where_ext; auto. intros t _. split; [|reflexivity].
    apply key_decode_iff; lia.
  - apply sum_where_none; auto. intros t _. left.
    unfold np_mod. destruct (Z.eqb_spec n 0); [lia|].
    pose proof (Z.mod_pos_bound (snd t) n Hn).
    rewrite andb_comm. destruct (Z.eqb_spec (snd t mod n) j); [lia|reflexivity].
  - apply sum_where_none; auto. intros t _. left.
    unfold np_mod. destruct (Z.eqb_spec n 0); [lia|].
    pose proof (Z.mod_pos_bound (snd t) n Hn).
    rewrite andb_comm. destruct (Z.eqb_spec (snd t mod n) j); [lia|reflexivity].
  - apply sum_where_none; auto. intros t _. left.
    unfold np_mod. destruct (Z.eqb_spec n 0); [lia|].
    pose proof (Z.mod_pos_bound (snd t) n Hn).
    rewrite andb_comm. destruct (Z.eqb_spec (snd t mod n) j); [lia|reflexivity].
Qed.

Lemma sum_at_encoded (l : list (K * Z * Z)) n i j :
  (forall t, In t l -> (0 <= snd t < n)%Z) ->
  (if ((0 <=? j) && (j <? n))%Z
   then sum_at (map (fun t => (fst (fst t), (snd (fst t) * n + snd t)%Z)) l) (i * n + j)
   else s0)
  = sum_at2 l i j.
Proof.
  intros B. rewrite sum_at2_where, sum_at_where, sum_where_map. cbn [fst snd].
  destruct (Z.leb_spec 0 j); destruct (Z.ltb_spec j n); cbn [andb].
  - apply sum_where_ext; auto. intros t Ht. split; [|reflexivity].
    apply key_encode_iff; auto; lia.
  - symmetry. apply sum_where_none; auto. intros t Ht. left.
    specialize (B t Ht). rewrite andb_comm.
    destruct (Z.eqb_spec (snd t) j); [lia|reflexivity].
  - symmetry. apply sum_where_none; auto. intros t Ht. left.
    specialize (B t Ht). rewrite andb_comm.
    destruct (Z.eqb_spec (snd t) j); [lia|reflexivity].
  - symmetry. apply sum_where_none; auto. intros t Ht. left.
    specialize (B t Ht). rewrite andb_comm.
    destruct (Z.eqb_spec (snd t) j); [lia|reflexivity].
Qed.

Lemma simplified_keeps_derivatives (x : spAD2 (K:=K)) m e :
  wf x -> np_max (index_col x) = Ok m ->
  (forall c, In c (concat (trows (index_col x))) -> (0 <= c)%Z) ->
  e < osize (vshape (value x)) ->
  (forall j, gradient_at (simplified_exact x m) e j = gradient_at x e j) /\
  (forall i j, hessian_of (simplified_exact x m) e i j = hessian_of x e i j).
Proof.
  intros W Hm Hnon He.
  destruct (simplified_terms m W He) as [T1 T2].
  unfold gradient_at, hessian_of. rewrite T1, T2. clear T1 T2.
  assert (Hn : (0 < 1 + m)%Z).
  { destruct (np_max_attained_below _ Hm) as (c & Hc & Hle). specialize (Hnon c Hc). lia. }
  split.
  - intros j. rewrite sum_at_placeholders by assumption.
    now apply sum_at_simplify_row.
  - intros i j. rewrite sum_at2_decoded by assumption.
    rewrite <- (@sum_at_encoded (terms2 x e) (1 + m)%Z i j).
    + destruct ((0 <=? j)%Z && (j <? 1 + m)%Z); [|reflexivity].
      rewrite sum_at_placeholders, sum_at_simplify_row by assumption.
      unfold terms2. now rewrite combine3_keys.
    + intros [[c r] l] Ht. unfold terms2 in Ht. apply in_combine_r in Ht. cbn [snd].
      apply in_row_all in Ht. split; [now apply Hnon|].
      pose proof (np_max_bound_all _ _ Hm Ht). lia.
Qed.

End SimplifyHessian.

(** ** Reshaping *)

Lemma chunks_concat {T} (w : nat) (rows : list (list T)) :
  Forall (fun r => length r = w) rows ->
  chunks w (length rows) (concat rows) = rows.
Proof.
  induction 1 as [|r rows Hr _ IH]; simpl; [reflexivity|].
  rewrite firstn_app, skipn_app, Hr, Nat.sub_diag, firstn_all2, skipn_all2 by lia.
  simpl. rewrite app_nil_r. now rewrite IH.
Qed.

Lemma chunks_one {T} (w : nat) (l : list T) : length l = w -> chunks w 1 l = [l].
Proof. intros <-. simpl. now rewrite firstn_all. Qed.

Lemma np_reshape_t_same {T} (a : tarr T) s W :
  wf_t a -> osize s = osize (tshape a) -> twidth a = W ->
  np_reshape_t a s W = Ok (Tarr s W (trows a)).
Proof.
  intros [L F] E <-. unfold np_reshape_t. rewrite E, Nat.eqb_refl.
  rewrite <- L at 1. now rewrite chunks_concat.
Qed.

Section Reshape.
Context {K : Type} {SK : Scalar K}.

Lemma reshape_ok (x : spAD2 (K:=K)) s :
  wf x -> osize s = osize (vshape (value x)) ->
  reshape x s
  = Ok (SpAD2 (Varr s (vdata (value x)))
          (Tarr s (twidth (coef1 x)) (trows (coef1 x)))
          (Tarr s (twidth (coef1 x)) (trows (index x)))
          (Tarr s (twidth (coef2 x)) (trows (coef2 x)))
          (Tarr s (twidth (coef2 x)) (trows (index_row x)))
          (Tarr s (twidth (coef2 x)) (trows (index_col x)))).
Proof.
  intros [Wv W1 Wi W2 Wr Wc S1 Si S2 Sr Sc X1 Xr Xc] E.
  unfold reshape, np_reshape_v, size_ad1, size_ad2. rewrite E, Nat.eqb_refl. cbn [rbind].
  rewrite !np_reshape_t_same by congruence. cbn [rbind].
  now rewrite spAD2_new_ok by (simpl; congruence).
Qed.

Lemma reshape_raises (x : spAD2 (K:=K)) s :
  osize s <> osize (vshape (value x)) -> reshape x s = Raise ValueError.
Proof.
  intros N. unfold reshape, np_reshape_v.
  destruct (Nat.eqb_spec (osize (vshape (value x))) (osize s)); [congruence|reflexivity].
Qed.

Lemma reshaped_wf (x : spAD2 (K:=K)) s :
  wf x -> osize s = osize (vshape (value x)) ->
  wf (SpAD2 (Varr s (vdata (value x)))
          (Tarr s (twidth (coef1 x)) (trows (coef1 x)))
          (Tarr s (twidth (coef1 x)) (trows (index x)))
          (Tarr s (twidth (coef2 x)) (trows (coef2 x)))
          (Tarr s (twidth (coef2 x)) (trows (index_row x)))
          (Tarr s (twidth (coef2 x)) (trows (index_col x)))).
Proof.
  intros [Wv [L1 F1] [Li Fi] [L2 F2] [Lr Fr] [Lc Fc] S1 Si S2 Sr Sc X1 Xr Xc] E.
  constructor; cbn [value coef1 index coef2 index_row index_col tshape twidth vshape];
    try reflexivity.
  - unfold wf_v in *. simpl. congruence.
  - split; simpl; [congruence | assumption].
  - split; simpl; [congruence | now rewrite <- X1].
  - split; simpl; [congruence | assumption].
  - split; simpl; [congruence | now rewrite <- Xr].
  - split; simpl; [congruence | now rewrite <- Xc].
Qed.

End Reshape.

(** ** Broadcasting an array *)

Section BroadcastTo.
Context {K : Type} {SK : Scalar K}.

Lemma broadcast_to_reading (x : spAD2 (K:=K)) s :
  wf x -> broadcastable (vshape (value x)) s = true ->
  exists r,
    broadcast_to x s = Ok r /\ wf r /\ vshape (value r) = s /\
    size_ad1 r = size_ad1 x /\ size_ad2 r = size_ad2 x /\
    forall e, e < osize s ->
      val (value r) e = val (value x) (bcell (vshape (value x)) s e) /\
      terms1 r e = terms1 x (bcell (vshape (value x)) s e) /\
      terms2 r e = terms2 x (bcell (vshape (value x)) s e).
Proof.
  intros W B.
  pose proof (wf_lengths W) as (LV & L1 & Li & L2 & Lr & Lc).
  destruct W as [Wv W1 Wi W2 Wr Wc S1 Si S2 Sr Sc X1 Xr Xc].
  unfold broadcast_to, np_broadcast_to_v, size_ad1, size_ad2. rewrite B. cbn [rbind].
  rewrite !np_broadcast_to_ok by congruence. cbn [rbind].
  rewrite spAD2_new_ok by (simpl; congruence).
  eexists. split; [reflexivity|].
  destruct (stretch_broadcast _ _ (vdata (value x)) s0 B LV) as [SL SN].
  split; [|split; [reflexivity|split; [reflexivity|split; [reflexivity|]]]].
  - constructor; cbn [value coef1 index coef2 index_row index_col tshape twidth vshape];
      try reflexivity.
    + exact SL.
    + apply wf_t_stretched; auto; congruence.
    + rewrite <- X1. apply wf_t_stretched; auto; congruence.
    + apply wf_t_stretched; auto; congruence.
    + rewrite <- Xr. apply wf_t_stretched; auto; congruence.
    + rewrite <- Xc. apply wf_t_stretched; auto; congruence.
  - intros e He. unfold val, terms1, terms2.
    cbn [value coef1 index coef2 index_row index_col vdata].
    rewrite !row_stretched by (auto; congruence).
    rewrite S1, Si, S2, Sr, Sc. split; [now apply SN | auto].
Qed.

Lemma broadcast_to_raises (x : spAD2 (K:=K)) s :
  broadcastable (vshape (value x)) s = false -> broadcast_to x s = Raise ValueError.
Proof. intros B. unfold broadcast_to, np_broadcast_to_v. now rewrite B. Qed.

End BroadcastTo.

(** ** Columns *)

Lemma heads_map {A B} (f : A -> B) (P : list (list A)) :
  heads (map (map f) P) = map f (heads P).
Proof.
  unfold heads. induction P as [|[|x r] P IH]; simpl; auto. now rewrite IH.
Qed.

Lemma columns_map {A B} (f : A -> B) w (P : list (list A)) :
  columns w (map (map f) P) = map (map f) (columns w P).
Proof.
  revert P. induction w as [|w IH]; intros P; simpl; [reflexivity|].
  rewrite heads_map. f_equal. rewrite <- IH. f_equal.
  rewrite !map_map. apply map_ext. intros r. now destruct r.
Qed.

Lemma concat_empty_rows {T} (rows : list (list T)) :
  Forall (fun r => length r = 0) rows -> concat rows = [].
Proof.
  induction 1 as [|r rows Hr _ IH]; simpl; [reflexivity|].
  apply length_zero_iff_nil in Hr. now rewrite Hr, IH.
Qed.

Lemma heads_tails_perm {T} (w : nat) (rows : list (list T)) :
  Forall (fun r => length r = S w) rows ->
  Permutation (heads rows ++ concat (map (@tl T) rows)) (concat rows).
Proof.
  induction 1 as [|r rows Hr _ IH]; simpl; [constructor|].
  destruct r as [|x t]; [discriminate|]. simpl. constructor.
  etransitivity; [apply Permutation_app_swap_app|].
  apply Permutation_app_head. exact IH.
Qed.

Lemma concat_columns_perm {T} (w : nat) (rows : list (list T)) :
  Forall (fun r => length r = w) rows ->
  Permutation (concat (columns w rows)) (concat rows).
Proof.
  revert rows. induction w as [|w IH]; intros rows F; simpl.
  - now rewrite concat_empty_rows.
  - destruct (heads_tails F) as [_ Ft].
    etransitivity; [apply Permutation_app_head, IH, Ft|].
    now apply heads_tails_perm with (w := w).
Qed.

Lemma length_concat_rows {T} (w : nat) (rows : list (list T)) :
  Forall (fun r => length r = w) rows -> length (concat rows) = length rows * w.
Proof.
  induction 1 as [|r rows Hr _ IH]; simpl; [reflexivity|].
  rewrite length_app, IH, Hr. lia.
Qed.

Lemma length_concat_columns {T} (w : nat) (rows : list (list T)) :
  Forall (fun r => length r = w) rows -> length (concat (columns w rows)) = w * length rows.
Proof.
  intros F. rewrite (Permutation_length (concat_columns_perm F)).
  rewrite (length_concat_rows F). lia.
Qed.

Lemma map_fst_rows {A B} (C : list (list A)) (I : list (list B)) w :
  length C = length I ->
  Forall (fun r => length r = w) C -> Forall (fun r => length r = w) I ->
  map (map fst) (zipWith (@combine A B) C I) = C /\
  map (map snd) (zipWith (@combine A B) C I) = I.
Proof.
  revert I. induction C as [|c C IH]; intros [|i I] L FC FI; simpl in *; try lia; auto.
  inversion FC; subst. inversion FI; subst.
  destruct (IH I) as [E1 E2]; auto.
  rewrite E1, E2, map_fst_combine_eq, map_snd_combine_eq by congruence. auto.
Qed.

Lemma Forall_rows_combine {A B} (C : list (list A)) (I : list (list B)) w :
  Forall (fun r => length r = w) C -> Forall (fun r => length r = w) I ->
  Forall (fun r => length r = w) (zipWith (@combine A B) C I).
Proof.
  intros FC FI. apply Forall_zipWith. intros a b Ha Hb.
  rewrite Forall_forall in FC, FI. rewrite length_combine, (FC a Ha), (FI b Hb). lia.
Qed.

Lemma combine_concat_map {A B} (X : list (list (A * B))) :
  combine (concat (map (map fst) X)) (concat (map (map snd) X)) = concat X.
Proof.
  rewrite <- !concat_map, combine_map_map.
  etransitivity; [|apply map_id]. apply map_ext. now intros [? ?].
Qed.

(** ** Reductions *)

Lemma zipWith_as_map {A B C} (f : A -> B -> C) (l : list A) (l' : list B) n da db :
  length l = n -> length l' = n ->
  zipWith f l l' = map (fun e => f (nth e l da) (nth e l' db)) (seq 0 n).
Proof.
  intros L L'. apply (nth_ext _ _ (f da db) (f da db)).
  - now rewrite zipWith_length, length_map, length_seq, L, L', Nat.min_id.
  - intros e He. rewrite zipWith_length, L, L', Nat.min_id in He.
    rewrite (nth_zipWith_in _ _ _ da db) by lia.
    rewrite (nth_map_in _ _ 0) by (rewrite length_seq; lia).
    now rewrite seq_nth by lia.
Qed.

Lemma reshape_moved {T} (t : tarr T) n W ax :
  wf_t t -> tshape t = Sh1 n -> twidth t = W ->
  np_reshape_t (np_moveaxis_last t ax) Sh0 (W * n)
  = Ok (Tarr Sh0 (W * n)
          [match ax with AxFirst => concat (mvax t) | AxLast => concat (trows t) end]).
Proof.
  intros [L F] Es Ew. rewrite Es in L. simpl in L. subst W.
  unfold np_reshape_t, np_moveaxis_last. destruct ax; cbn [tshape twidth trows osize].
  - rewrite Es. cbn [osize]. rewrite Nat.mul_1_l, Nat.eqb_refl.
    rewrite chunks_one; [reflexivity|].
    unfold mvax. rewrite (length_concat_columns F). now rewrite L.
  - rewrite Es. cbn [osize]. rewrite Nat.mul_1_l, (Nat.mul_comm n), Nat.eqb_refl.
    rewrite chunks_one; [reflexivity|].
    rewrite (length_concat_rows F). rewrite L. lia.
Qed.

Lemma combine_flat {A B} w (C : list (list A)) (I : list (list B)) :
  length C = length I ->
  Forall (fun r => length r = w) C -> Forall (fun r => length r = w) I ->
  combine (concat (columns w C)) (concat (columns w I))
  = concat (columns w (zipWith (@combine A B) C I))
  /\ combine (concat C) (concat I) = concat (zipWith (@combine A B) C I).
Proof.
  intros L FC FI. destruct (@map_fst_rows A B C I w L FC FI) as [E1 E2].
  set (P := zipWith (@combine A B) C I) in *.
  split.
  - rewrite <- E1, <- E2. rewrite !columns_map. apply combine_concat_map.
  - rewrite <- E1, <- E2. apply combine_concat_map.
Qed.

Section Sum.
Context {K : Type} {SK : Scalar K}.

Lemma terms1_rows (x : spAD2 (K:=K)) n :
  wf x -> osize (vshape (value x)) = n ->
  zipWith (@combine K Z) (trows (coef1 x)) (trows (index x)) = map (terms1 x) (seq 0 n).
Proof.
  intros W E. pose proof (wf_lengths W) as (LV & L1 & Li & L2 & Lr & Lc).
  apply zipWith_as_map; congruence.
Qed.

Lemma terms2_rows (x : spAD2 (K:=K)) n :
  wf x -> osize (vshape (value x)) = n ->
  zipWith (@combine (K * Z) Z)
    (zipWith (@combine K Z) (trows (coef2 x)) (trows (index_row x))) (trows (index_col x))
  = map (terms2 x) (seq 0 n).
Proof.
  intros W E. pose proof (wf_lengths W) as (LV & L1 & Li & L2 & Lr & Lc).
  rewrite (zipWith_as_map _ _ _ [] [] (n := n)); try congruence.
  - apply map_ext_in. intros e He. apply in_seq in He.
    unfold terms2, row. now rewrite (nth_zipWith_in _ _ _ [] [] []) by lia.
  - rewrite zipWith_length. lia.
Qed.

Lemma sum_axis_reading (x : spAD2 (K:=K)) n ax :
  wf x -> vshape (value x) = Sh1 n ->
  exists r,
    sum_axis x ax = Ok r /\ wf r /\ vshape (value r) = Sh0 /\
    val (value r) 0 = np_sum (value x) /\
    size_ad1 r = size_ad1 x * n /\ size_ad2 r = size_ad2 x * n /\
    terms1 r 0
    = match ax with
      | AxFirst => concat (columns (size_ad1 x) (map (terms1 x) (seq 0 n)))
      | AxLast => concat (map (terms1 x) (seq 0 n))
      end /\
    terms2 r 0
    = match ax with
      | AxFirst => concat (columns (size_ad2 x) (map (terms2 x) (seq 0 n)))
      | AxLast => concat (map (terms2 x) (seq 0 n))
      end.
Proof.
  intros W Es.
  assert (En : osize (vshape (value x)) = n) by now rewrite Es.
  pose proof (terms1_rows W En) as T1. pose proof (terms2_rows W En) as T2.
  pose proof (wf_lengths W) as (LV & L1 & Li & L2 & Lr & Lc).
  destruct W as [Wv W1 Wi W2 Wr Wc S1 Si S2 Sr Sc X1 Xr Xc].
  unfold sum_axis, size_ad1, size_ad2 in *. rewrite Es.
  rewrite !reshape_moved by congruence. cbn [rbind].
  rewrite spAD2_new_ok by reflexivity.
  eexists. split; [reflexivity|].
  destruct W1 as [_ F1], Wi as [_ Fi], W2 as [_ F2], Wr as [_ Fr], Wc as [_ Fc].
  rewrite X1 in Fi. rewrite Xr in Fr. rewrite Xc in Fc.
  assert (F12 := Forall_rows_combine F2 Fr).
  destruct (@combine_flat K Z (twidth (coef1 x)) (trows (coef1 x)) (trows (index x))
              ltac:(congruence) F1 Fi) as [A1 A2].
  destruct (@combine_flat K Z (twidth (coef2 x)) (trows (coef2 x)) (trows (index_row x))
              ltac:(congruence) F2 Fr) as [B1 B2].
  destruct (@combine_flat (K * Z) Z (twidth (coef2 x))
              (zipWith (@combine K Z) (trows (coef2 x)) (trows (index_row x)))
              (trows (index_col x)) ltac:(rewrite zipWith_length; lia) F12 Fc) as [C1 C2].
  assert (LF : forall T (t : list (list T)) w,
             Forall (fun r => length r = w) t -> length t = n ->
             length (match ax with AxFirst => concat (columns w t) | AxLast => concat t end)
             = w * n).
  { intros T t w F L. destruct ax.
    - rewrite (length_concat_columns F). now rewrite L.
    - rewrite (length_concat_rows F). rewrite L. lia. }
  split; [|split; [reflexivity|split; [reflexivity|split; [reflexivity|split;
          [reflexivity|]]]]].
  - constructor; cbn [value coef1 index coef2 index_row index_col tshape twidth vshape];
      try reflexivity;
      try (split; simpl; [reflexivity|]; constructor; [|constructor]; unfold mvax;
           rewrite ?X1, ?Xr, ?Xc; apply LF; auto; congruence).
  - unfold terms1, terms2, row, mvax.
    cbn [value coef1 index coef2 index_row index_col trows nth].
    rewrite X1, Xr, Xc. unfold terms1, terms2, row in T1, T2. rewrite <- T1, <- T2.
    destruct ax.
    + split; [exact A1|]. now rewrite B1, C1.
    + split; [exact A2|]. now rewrite B2, C2.
Qed.

End Sum.

(** ** Sums over the elements *)

Lemma concat_columns_one {T} (w : nat) (r : list T) :
  length r = w -> concat (columns w [r]) = r.
Proof.
  revert r. induction w as [|w IH]; intros [|a r] E; simpl in *; try lia; try reflexivity.
  f_equal. apply IH. lia.
Qed.

Section SumDense.
Context {K : Type} {SK : Scalar K}.
Hypothesis EX : exact_arithmetic (K:=K).

Lemma fold_sadd_from (l : list K) a :
  fold_left sadd l a = sadd a (fold_left sadd l s0).
Proof.
  revert a. induction l as [|b l IH]; simpl; intros a.
  - now rewrite (ex_add_0_r EX).
  - rewrite IH. rewrite (IH (sadd s0 b)). rewrite (ex_add_0_l EX).
    now rewrite (ex_add_assoc EX).
Qed.

Lemma np_sum_cells s (l : list K) : np_sum (Varr s l) = fold_left sadd l s0.
Proof.
  unfold np_sum. cbn [vdata]. destruct l as [|a l]; [reflexivity|].
  simpl. now rewrite (ex_add_0_l EX).
Qed.

Lemma sum_where_concat {T} (p : T -> bool) (w : T -> K) (L : list (list T)) :
  sum_where p w (concat L) = fold_left sadd (map (sum_where p w) L) s0.
Proof.
  induction L as [|r L IH]; simpl; [reflexivity|].
  rewrite (sum_where_app EX), IH. rewrite (fold_sadd_from _ (sadd s0 _)).
  now rewrite (ex_add_0_l EX).
Qed.

End SumDense.

Section SumReading.
Context {K : Type} {SK : Scalar K}.

Lemma flatten_1d (x : spAD2 (K:=K)) n :
  wf x -> vshape (value x) = Sh1 n -> flatten x = Ok x.
Proof.
  intros W E. unfold flatten. rewrite E. cbn [osize].
  rewrite reshape_ok by (try assumption; now rewrite E).
  destruct W as [Wv W1 Wi W2 Wr Wc S1 Si S2 Sr Sc X1 Xr Xc].
  destruct x as [[vs vd] [s1 w1 r1] [si wi ri] [s2 w2 r2] [sr wr rr] [sc wc rc]].
  cbn in *. subst. reflexivity.
Qed.

Lemma flatten_0d (x : spAD2 (K:=K)) :
  wf x -> vshape (value x) = Sh0 ->
  exists r, flatten x = Ok r /\ wf r /\ vshape (value r) = Sh1 1 /\
    val (value r) 0 = val (value x) 0 /\
    size_ad1 r = size_ad1 x /\ size_ad2 r = size_ad2 x /\
    terms1 r 0 = terms1 x 0 /\ terms2 r 0 = terms2 x 0.
Proof.
  intros W E. unfold flatten. rewrite E. cbn [osize].
  rewrite reshape_ok by (try assumption; now rewrite E).
  eexists. split; [reflexivity|]. split.
  { apply reshaped_wf; [assumption|now rewrite E]. }
  repeat split.
Qed.

(** What [sum] returns on an array of shape [(n,)]: one element whose entries
    are those of all the elements, in the order of the elements for the
    axis [-1] and entry position by entry position for the axis [0]. *)
Lemma sum_reading (x : spAD2 (K:=K)) n (ax : option axis) :
  wf x -> vshape (value x) = Sh1 n ->
  exists r,
    sum x ax = Ok r /\ wf r /\ vshape (value r) = Sh0 /\
    val (value r) 0 = np_sum (value x) /\
    size_ad1 r = size_ad1 x * n /\ size_ad2 r = size_ad2 x * n /\
    Permutation (terms1 r 0) (concat (map (terms1 x) (seq 0 n))) /\
    Permutation (terms2 r 0) (concat (map (terms2 x) (seq 0 n))).
Proof.
  intros W E.
  assert (G : forall a, exists r,
    sum_axis x a = Ok r /\ wf r /\ vshape (value r) = Sh0 /\
    val (value r) 0 = np_sum (value x) /\
    size_ad1 r = size_ad1 x * n /\ size_ad2 r = size_ad2 x * n /\
    Permutation (terms1 r 0) (concat (map (terms1 x) (seq 0 n))) /\
    Permutation (terms2 r 0) (concat (map (terms2 x) (seq 0 n)))).
  { intros a. destruct (sum_axis_reading a W E) as (r & R & Wr & Sr & V & Z1 & Z2 & T1 & T2).
    exists r. repeat (split; [assumption|]).
    assert (En : osize (vshape (value x)) = n) by now rewrite E.
    pose proof (wf_lengths W) as (LV & L1 & Li & L2 & Lr & Lc).
    destruct W as [Wv W1 Wi W2 Wr' Wc S1 Si S2 Sr' Sc X1 Xr Xc].
    rewrite T1, T2. destruct a; [|split; reflexivity].
    unfold size_ad1, size_ad2.
    split; apply concat_columns_perm.
    - rewrite <- (terms1_rows (x:=x)) by (try assumption; now constructor).
      apply Forall_rows_combine; [apply W1|]. rewrite <- X1. apply Wi.
    - rewrite <- (terms2_rows (x:=x)) by (try assumption; now constructor).
      apply Forall_rows_combine; [apply Forall_rows_combine|].
      + apply W2.
      + rewrite <- Xr. apply Wr'.
      + rewrite <- Xc. apply Wc. }
  destruct ax as [a|]; cbn [sum]; [apply G|].
  rewrite (flatten_1d W E). cbn [rbind]. apply G.
Qed.

Lemma sum_scalar (x : spAD2 (K:=K)) :
  wf x -> vshape (value x) = Sh0 -> sum x None = Ok x.
Proof.
  intros W E. cbn [sum]. unfold flatten. rewrite E. cbn [osize].
  rewrite reshape_ok by (try assumption; now rewrite E). cbn [rbind].
  pose proof (wf_lengths W) as (LV & L1 & Li & L2 & Lr & Lc).
  destruct W as [Wv [_ F1] [_ Fi] [_ F2] [_ Fr] [_ Fc] S1 Si S2 Sr Sc X1 Xr Xc].
  destruct x as [[vs vd] [s1 w1 r1] [si wi ri] [s2 w2 r2] [sr wr rr] [sc wc rc]].
  cbn in *. subst. cbn in *.
  destruct vd as [|v [|? ?]]; try discriminate.
  destruct r1 as [|a1 [|? ?]]; try discriminate.
  destruct ri as [|ai [|? ?]]; try discriminate.
  destruct r2 as [|a2 [|? ?]]; try discriminate.
  destruct rr as [|ar [|? ?]]; try discriminate.
  destruct rc as [|ac [|? ?]]; try discriminate.
  inversion F1; inversion Fi; inversion F2; inversion Fr; inversion Fc; subst.
  unfold sum_axis, np_reshape_t, np_moveaxis_last, mvax, size_ad1, size_ad2.
  cbn [value vshape coef1 index coef2 index_row index_col tshape twidth trows osize].
  rewrite ?Nat.mul_1_r, ?Nat.mul_1_l, !Nat.eqb_refl. cbn [rbind].
  rewrite !concat_columns_one by congruence.
  rewrite !chunks_one by congruence.
  rewrite spAD2_new_ok by reflexivity.
  reflexivity.
Qed.

End SumReading.

(** ** Iteration *)

Lemma combine_with_map {A B} (l : list A) (g : nat -> B) n d :
  length l = n ->
  combine l (map g (seq 0 n)) = map (fun e => (nth e l d, g e)) (seq 0 n).
Proof.
  intros L. apply (nth_ext _ _ (d, g 0) (d, g 0)).
  - rewrite length_combine, !length_map, length_seq. lia.
  - intros e He. rewrite length_combine, length_map, length_seq, L, Nat.min_id in He.
    rewrite combine_nth by (rewrite length_map, length_seq; lia).
    rewrite (nth_map_in _ _ 0) by (rewrite length_seq; lia).
    rewrite (nth_map_in _ _ 0) by (rewrite length_seq; lia).
    now rewrite seq_nth by lia.
Qed.

Lemma combine_two {A B} (l : list A) (l' : list B) n d d' :
  length l = n -> length l' = n ->
  combine l l' = map (fun e => (nth e l d, nth e l' d')) (seq 0 n).
Proof.
  intros L L'. rewrite <- (combine_with_map l (fun e => nth e l' d') d L).
  f_equal. apply (nth_ext _ _ d' d').
  - now rewrite length_map, length_seq.
  - intros e He. rewrite (nth_map_in _ _ 0) by (rewrite length_seq; lia).
    now rewrite seq_nth by lia.
Qed.

Section Iteration.
Context {K : Type} {SK : Scalar K}.

Lemma iter_yield_all (cells : list (K * (list K * (list Z * (list K * (list Z * list Z))))))
    (f : K * (list K * (list Z * (list K * (list Z * list Z)))) -> spAD2 (K:=K)) :
  (forall c, In c cells -> iter_item c = Ok (f c)) ->
  iter_yield cells = map (fun c => Ok (f c)) cells.
Proof.
  induction cells as [|c cells IH]; intros H; simpl; [reflexivity|].
  rewrite (H c) by now left. f_equal. apply IH. intros; apply H; now right.
Qed.

Lemma getitem_int (x : spAD2 (K:=K)) n i :
  wf x -> vshape (value x) = Sh1 n -> i < n ->
  __getitem__ x (KInt (Z.of_nat i))
  = Ok (SpAD2 (Varr Sh0 [val (value x) i])
          (arr1 (row (coef1 x) i)) (arr1 (row (index x) i))
          (arr1 (row (coef2 x) i)) (arr1 (row (index_row x) i))
          (arr1 (row (index_col x) i))).
Proof.
  intros W E Hi.
  pose proof (wf_lengths W) as (LV & L1 & Li & L2 & Lr & Lc).
  rewrite E in LV, L1, Li, L2, Lr, Lc. cbn [osize] in *.
  assert (R1 := @wf_t_row _ (coef1 x) i (wf_coef1 W)).
  assert (Ri := @wf_t_row _ (index x) i (wf_index W)).
  assert (R2 := @wf_t_row _ (coef2 x) i (wf_coef2 W)).
  assert (Rr := @wf_t_row _ (index_row x) i (wf_index_row W)).
  assert (Rc := @wf_t_row _ (index_col x) i (wf_index_col W)).
  destruct W as [Wv W1 Wi W2 Wr Wc S1 Si S2 Sr Sc X1 Xr Xc].
  rewrite S1, E in R1. rewrite Si, E in Ri. rewrite S2, E in R2.
  rewrite Sr, E in Rr. rewrite Sc, E in Rc. cbn [osize] in *.
  unfold __getitem__, key_expand, np_getitem_v, np_getitem_t.
  rewrite S1, Si, S2, Sr, Sc, E. cbn [key_select].
  assert (C : ((- Z.of_nat n <=? Z.of_nat i) && (Z.of_nat i <? Z.of_nat n))%Z = true).
  { apply andb_true_iff. split; [apply Z.leb_le|apply Z.ltb_lt]; lia. }
  rewrite C. rewrite Z.mod_small by lia. rewrite Nat2Z.id. cbn [rbind].
  rewrite (pick_nth (vdata (value x)) _ s0) by (intros ? [<-|[]]; lia).
  rewrite !(pick_nth _ _ []) by (intros ? [<-|[]]; lia).
  cbn [map].
  rewrite spAD2_new_ok by (simpl; congruence).
  unfold arr1, val, row in *. rewrite R1, Ri, R2, Rr, Rc by lia.
  now rewrite X1, Xr, Xc.
Qed.

Lemma iter_reading (x : spAD2 (K:=K)) n :
  wf x -> vshape (value x) = Sh1 n ->
  __iter__ x = Yields (map (fun i => __getitem__ x (KInt (Z.of_nat i))) (seq 0 n)).
Proof.
  intros W E.
  pose proof (wf_lengths W) as (LV & L1 & Li & L2 & Lr & Lc).
  rewrite E in LV, L1, Li, L2, Lr, Lc. cbn [osize] in *.
  assert (RW : forall i, i < n ->
            length (nth i (trows (index x)) []) = length (nth i (trows (coef1 x)) []) /\
            length (nth i (trows (index_row x)) []) = length (nth i (trows (coef2 x)) []) /\
            length (nth i (trows (index_col x)) []) = length (nth i (trows (coef2 x)) [])).
  { intros i Hi.
    assert (R1 := @wf_t_row _ (coef1 x) i (wf_coef1 W)).
    assert (Ri := @wf_t_row _ (index x) i (wf_index W)).
    assert (R2 := @wf_t_row _ (coef2 x) i (wf_coef2 W)).
    assert (Rr := @wf_t_row _ (index_row x) i (wf_index_row W)).
    assert (Rc := @wf_t_row _ (index_col x) i (wf_index_col W)).
    rewrite (wf_shape1 W), E in R1. rewrite (wf_shapei W), E in Ri.
    rewrite (wf_shape2 W), E in R2. rewrite (wf_shaper W), E in Rr.
    rewrite (wf_shapec W), E in Rc. unfold row in *. cbn [osize] in *.
    rewrite R1, Ri, R2, Rr, Rc by lia.
    rewrite (wf_width1 W), (wf_widthr W), (wf_widthc W). auto. }
  unfold __iter__. rewrite E. f_equal.
  rewrite (combine_two _ _ [] [] Lr Lc).
  rewrite (combine_with_map _ _ [] L2).
  rewrite (combine_with_map _ _ [] Li).
  rewrite (combine_with_map _ _ [] L1).
  rewrite (combine_with_map _ _ s0 LV).
  rewrite (@iter_yield_all _ (fun c =>
     let '(v, (c1, (i1, (c2, (ir, ic))))) := c in
     SpAD2 (Varr Sh0 [v]) (arr1 c1) (arr1 i1) (arr1 c2) (arr1 ir) (arr1 ic))).
  - rewrite map_map. apply map_ext_in. intros i Hi. apply in_seq in Hi.
    symmetry. apply (getitem_int W E). lia.
  - intros c Hc. apply in_map_iff in Hc. destruct Hc as (i & <- & Hi). apply in_seq in Hi.
    unfold iter_item. apply spAD2_new_ok; try reflexivity; cbn [arr1 twidth];
      apply RW; lia.
Qed.

End Iteration.

(** ** Concatenation *)

Lemma mapM_ok {A B} (f : A -> res B) (g : A -> B) (l : list A) :
  (forall a, In a l -> f a = Ok (g a)) -> mapM f l = Ok (map g l).
Proof.
  induction l as [|a l IH]; intros H; simpl; [reflexivity|].
  rewrite (H a) by now left. cbn [rbind].
  rewrite IH by (intros; apply H; now right). reflexivity.
Qed.

Lemma fold_max_bounds (l : list nat) x :
  x <= fold_left Nat.max l x /\
  (forall a, In a l -> a <= fold_left Nat.max l x) /\
  In (fold_left Nat.max l x) (x :: l).
Proof.
  revert x. induction l as [|b l IH]; intros x; simpl.
  - split; [lia|]. split; [tauto|]. now left.
  - destruct (IH (Nat.max x b)) as (B1 & B2 & B3). split; [lia|]. split.
    + intros a [<-|Ha]; [lia|]. now apply B2.
    + destruct B3 as [B3|B3]; [|tauto]. rewrite <- B3.
      destruct (Nat.max_spec x b) as [[_ ->]|[_ ->]]; tauto.
Qed.

Lemma py_max_ok (l : list nat) :
  l <> [] ->
  exists W, py_max l = Ok W /\ (forall a, In a l -> a <= W) /\ In W l.
Proof.
  destruct l as [|x l]; [congruence|]. intros _. exists (fold_left Nat.max l x).
  destruct (fold_max_bounds l x) as (B1 & B2 & B3).
  split; [reflexivity|]. split; [|exact B3].
  intros a [<-|Ha]; auto.
Qed.

Lemma np_concatenate0_t_ok {T} (l : list (tarr T)) W :
  l <> [] ->
  (forall a, In a l -> is_1d (tshape a) = true /\ twidth a = W) ->
  np_concatenate0_t l
  = Ok (Tarr (Sh1 (list_sum (map (fun a => osize (tshape a)) l))) W
          (concat (map (@trows T) l))).
Proof.
  destruct l as [|t l]; [congruence|]. intros _ H. unfold np_concatenate0_t.
  assert (E1 : forallb (fun a => is_1d (tshape a)) (t :: l) = true).
  { apply forallb_forall. intros a Ha. apply (H a Ha). }
  assert (E2 : forallb (fun a => twidth a =? twidth t) (t :: l) = true).
  { apply forallb_forall. intros a Ha. apply Nat.eqb_eq.
    destruct (H a Ha) as [_ ->]. destruct (H t) as [_ ->]; [now left|reflexivity]. }
  rewrite E1, E2. cbn [andb]. destruct (H t) as [_ ->]; [now left|reflexivity].
Qed.

Lemma np_concatenate0_v_ok {T} (l : list (varr T)) :
  l <> [] -> (forall a, In a l -> is_1d (vshape a) = true) ->
  np_concatenate0_v l
  = Ok (Varr (Sh1 (list_sum (map (fun a => osize (vshape a)) l)))
          (concat (map (@vdata T) l))).
Proof.
  destruct l as [|t l]; [congruence|]. intros _ H. unfold np_concatenate0_v.
  assert (E1 : forallb (fun a => is_1d (vshape a)) (t :: l) = true).
  { apply forallb_forall. exact H. }
  now rewrite E1.
Qed.

Lemma np_concatenate0_v_0d {T} (l : list (varr T)) :
  (exists a, In a l /\ vshape a = Sh0) -> np_concatenate0_v l = Raise ValueError.
Proof.
  intros (a & Ha & E). unfold np_concatenate0_v. destruct l as [|t l]; [reflexivity|].
  destruct (forallb (fun a => is_1d (vshape a)) (t :: l)) eqn:F; [|reflexivity].
  rewrite forallb_forall in F. specialize (F a Ha). rewrite E in F. discriminate.
Qed.

Lemma nth_concat_at {T} (Ls : list (list T)) k l e d :
  nth_error Ls k = Some l -> e < length l ->
  nth (list_sum (map (@length T) (firstn k Ls)) + e) (concat Ls) d = nth e l d.
Proof.
  revert k. induction Ls as [|l0 Ls IH]; intros [|k] H He; simpl in *; try discriminate.
  - inversion H; subst. now rewrite app_nth1.
  - rewrite app_nth2 by lia.
    replace (length l0 + list_sum (map (@length T) (firstn k Ls)) + e - length l0)
      with (list_sum (map (@length T) (firstn k Ls)) + e) by lia.
    now apply IH.
Qed.

Lemma length_concat_sum {T} (Ls : list (list T)) :
  length (concat Ls) = list_sum (map (@length T) Ls).
Proof. induction Ls; simpl; [reflexivity|]. rewrite length_app. congruence. Qed.

Section Concatenate.
Context {K : Type} {SK : Scalar K}.

Lemma mapM_as_spAD2 (xs : list (spAD2 (K:=K))) :
  mapM as_spAD2 (map OAD xs) = Ok xs.
Proof.
  rewrite (mapM_ok _ (fun o => match o with OAD x => x | _ => SpAD2 (Varr Sh0 [])
              (Tarr Sh0 0 []) (Tarr Sh0 0 []) (Tarr Sh0 0 []) (Tarr Sh0 0 []) (Tarr Sh0 0 [])
              end)).
  - rewrite map_map. now rewrite map_id.
  - intros a Ha. apply in_map_iff in Ha. now destruct Ha as (x & <- & _).
Qed.

Lemma concatenate_steps (xs : list (spAD2 (K:=K))) ax :
  xs <> [] -> Forall wf xs ->
  Forall (fun x => is_1d (vshape (value x)) = true) xs ->
  exists W1 W2,
    py_max (map size_ad1 xs) = Ok W1 /\ py_max (map size_ad2 xs) = Ok W2 /\
    (forall x, In x xs -> size_ad1 x <= W1) /\ (forall x, In x xs -> size_ad2 x <= W2) /\
    In W1 (map size_ad1 xs) /\ In W2 (map size_ad2 xs) /\
    concatenate (map OAD xs) ax
    = Ok (SpAD2
            (Varr (Sh1 (list_sum (map (fun x => osize (vshape (value x))) xs)))
               (concat (map (fun x => vdata (value x)) xs)))
            (Tarr (Sh1 (list_sum (map (fun x => osize (vshape (value x))) xs))) W1
               (concat (map (fun x => trows (pad_to s0 W1 (coef1 x))) xs)))
            (Tarr (Sh1 (list_sum (map (fun x => osize (vshape (value x))) xs))) W1
               (concat (map (fun x => trows (pad_to 0%Z W1 (index x))) xs)))
            (Tarr (Sh1 (list_sum (map (fun x => osize (vshape (value x))) xs))) W2
               (concat (map (fun x => trows (pad_to s0 W2 (coef2 x))) xs)))
            (Tarr (Sh1 (list_sum (map (fun x => osize (vshape (value x))) xs))) W2
               (concat (map (fun x => trows (pad_to 0%Z W2 (index_row x))) xs)))
            (Tarr (Sh1 (list_sum (map (fun x => osize (vshape (value x))) xs))) W2
               (concat (map (fun x => trows (pad_to 0%Z W2 (index_col x))) xs)))).
Proof.
  intros NE FW F1. rewrite Forall_forall in FW, F1.
  destruct (@py_max_ok (map size_ad1 xs)) as (W1 & P1 & B1 & I1).
  { destruct xs; [congruence|discriminate]. }
  destruct (@py_max_ok (map size_ad2 xs)) as (W2 & P2 & B2 & I2).
  { destruct xs; [congruence|discriminate]. }
  assert (B1' : forall x, In x xs -> size_ad1 x <= W1).
  { intros x Hx. apply B1. apply in_map_iff. eauto. }
  assert (B2' : forall x, In x xs -> size_ad2 x <= W2).
  { intros x Hx. apply B2. apply in_map_iff. eauto. }
  exists W1, W2. repeat (split; [assumption|]).
  unfold concatenate. rewrite mapM_as_spAD2. cbn [rbind]. rewrite P1, P2. cbn [rbind].
  assert (NEm : forall A (f : spAD2 (K:=K) -> A), map f xs <> []).
  { intros A f. destruct xs; [congruence|discriminate]. }
  rewrite np_concatenate0_v_ok;
    [|apply NEm|intros a Ha; apply in_map_iff in Ha; destruct Ha as (x & <- & Hx); auto].
  cbn [rbind].
  rewrite (mapM_ok _ (fun e => pad_to s0 W1 (coef1 e)))
    by (intros; apply pad_last_ok; now apply B1').
  cbn [rbind].
  rewrite (@np_concatenate0_t_ok _ _ W1);
    [|apply NEm|intros a Ha; apply in_map_iff in Ha; destruct Ha as (x & <- & Hx);
      split; [cbn [pad_to tshape]; rewrite (wf_shape1 (FW x Hx)); auto|reflexivity]].
  cbn [rbind].
  rewrite (mapM_ok _ (fun e => pad_to 0%Z W1 (index e)))
    by (intros x Hx; apply pad_last_ok; rewrite (wf_width1 (FW x Hx)); now apply B1').
  cbn [rbind].
  rewrite (@np_concatenate0_t_ok _ _ W1);
    [|apply NEm|intros a Ha; apply in_map_iff in Ha; destruct Ha as (x & <- & Hx);
      split; [cbn [pad_to tshape]; rewrite (wf_shapei (FW x Hx)); auto|reflexivity]].
  cbn [rbind].
  rewrite (mapM_ok _ (fun e => pad_to s0 W2 (coef2 e)))
    by (intros; apply pad_last_ok; now apply B2').
  cbn [rbind].
  rewrite (@np_concatenate0_t_ok _ _ W2);
    [|apply NEm|intros a Ha; apply in_map_iff in Ha; destruct Ha as (x & <- & Hx);
      split; [cbn [pad_to tshape]; rewrite (wf_shape2 (FW x Hx)); auto|reflexivity]].
  cbn [rbind].
  rewrite (mapM_ok _ (fun e => pad_to 0%Z W2 (index_row e)))
    by (intros x Hx; apply pad_last_ok; rewrite (wf_widthr (FW x Hx)); now apply B2').
  cbn [rbind].
  rewrite (@np_concatenate0_t_ok _ _ W2);
    [|apply NEm|intros a Ha; apply in_map_iff in Ha; destruct Ha as (x & <- & Hx);
      split; [cbn [pad_to tshape]; rewrite (wf_shaper (FW x Hx)); auto|reflexivity]].
  cbn [rbind].
  rewrite (mapM_ok _ (fun e => pad_to 0%Z W2 (index_col e)))
    by (intros x Hx; apply pad_last_ok; rewrite (wf_widthc (FW x Hx)); now apply B2').
  cbn [rbind].
  rewrite (@np_concatenate0_t_ok _ _ W2);
    [|apply NEm|intros a Ha; apply in_map_iff in Ha; destruct Ha as (x & <- & Hx);
      split; [cbn [pad_to tshape]; rewrite (wf_shapec (FW x Hx)); auto|reflexivity]].
  cbn [rbind].
  rewrite !map_map. cbn [pad_to tshape].
  assert (S : forall (f : spAD2 (K:=K) -> oshape),
             (forall x, In x xs -> f x = vshape (value x)) ->
             list_sum (map (fun x => osize (f x)) xs)
             = list_sum (map (fun x => osize (vshape (value x))) xs)).
  { intros f Hf. f_equal. apply map_ext_in. intros x Hx. now rewrite Hf. }
  rewrite (S (fun x => tshape (coef1 x))) by (intros x Hx; apply (wf_shape1 (FW x Hx))).
  rewrite (S (fun x => tshape (index x))) by (intros x Hx; apply (wf_shapei (FW x Hx))).
  rewrite (S (fun x => tshape (coef2 x))) by (intros x Hx; apply (wf_shape2 (FW x Hx))).
  rewrite (S (fun x => tshape (index_row x))) by (intros x Hx; apply (wf_shaper (FW x Hx))).
  rewrite (S (fun x => tshape (index_col x))) by (intros x Hx; apply (wf_shapec (FW x Hx))).
  rewrite spAD2_new_ok by reflexivity. reflexivity.
Qed.

Lemma offsets_agree {A} (f g : A -> nat) (xs : list A) k :
  (forall x, In x xs -> f x = g x) ->
  list_sum (map f (firstn k xs)) = list_sum (map g (firstn k xs)).
Proof.
  revert k. induction xs as [|x xs IH]; intros [|k] H; simpl; try reflexivity.
  rewrite (H x) by now left. f_equal. apply IH. intros; apply H; now right.
Qed.

Lemma row_concatenated {T} (t : spAD2 (K:=K) -> tarr T) (z : T) W xs k x e s :
  nth_error xs k = Some x ->
  (forall y, In y xs -> length (trows (t y)) = osize (vshape (value y))) ->
  e < osize (vshape (value x)) ->
  row (Tarr s W (concat (map (fun y => trows (pad_to z W (t y))) xs)))
      (list_sum (map (fun y => osize (vshape (value y))) (firstn k xs)) + e)
  = row (t x) e ++ repeat z (W - twidth (t x)).
Proof.
  intros Hk HL He. unfold row. cbn [trows].
  assert (Hx : In x xs) by (eapply nth_error_In; eauto).
  rewrite <- (offsets_agree (fun y => length (trows (pad_to z W (t y)))) _ xs k).
  - rewrite <- (map_map (fun y => trows (pad_to z W (t y))) (@length (list T))).
    rewrite <- firstn_map.
    rewrite (@nth_concat_at _ _ k (trows (pad_to z W (t x))) e []).
    + cbn [pad_to trows]. rewrite (nth_map_in _ _ []) by (rewrite HL; assumption).
      reflexivity.
    + exact (map_nth_error (fun y => trows (pad_to z W (t y))) k xs Hk).
    + cbn [pad_to trows]. rewrite length_map, HL; assumption.
  - intros y Hy. cbn [pad_to trows]. rewrite length_map. now apply HL.
Qed.

Lemma val_concatenated xs k (x : spAD2 (K:=K)) e s :
  nth_error xs k = Some x ->
  (forall y, In y xs -> length (vdata (value y)) = osize (vshape (value y))) ->
  e < osize (vshape (value x)) ->
  val (Varr s (concat (map (fun y => vdata (value y)) xs)))
      (list_sum (map (fun y => osize (vshape (value y))) (firstn k xs)) + e)
  = val (value x) e.
Proof.
  intros Hk HL He. unfold val. cbn [vdata].
  assert (Hx : In x xs) by (eapply nth_error_In; eauto).
  rewrite <- (offsets_agree (fun y => length (vdata (value y))) _ xs k) by assumption.
  rewrite <- (map_map (fun y => vdata (value y)) (@length K)).
  rewrite <- firstn_map.
  apply nth_concat_at;
    [exact (map_nth_error (fun y => vdata (value y)) k xs Hk)|rewrite HL; assumption].
Qed.

Lemma wf_t_concat_padded {T} (t : spAD2 (K:=K) -> tarr T) (z : T) W xs :
  (forall x, In x xs -> wf_t (t x) /\ twidth (t x) <= W /\ tshape (t x) = vshape (value x)) ->
  wf_t (Tarr (Sh1 (list_sum (map (fun x => osize (vshape (value x))) xs))) W
          (concat (map (fun x => trows (pad_to z W (t x))) xs))).
Proof.
  intros H. split; cbn [trows tshape twidth osize].
  - rewrite length_concat_sum, map_map. f_equal. apply map_ext_in.
    intros a Ha. destruct (H a Ha) as ([L _] & _ & E).
    cbn [pad_to trows]. rewrite length_map, L. now rewrite E.
  - apply Forall_forall. intros r Hr. apply in_concat in Hr.
    destruct Hr as (rows & Hrows & Hr). apply in_map_iff in Hrows.
    destruct Hrows as (a & <- & Ha). destruct (H a Ha) as (Wa & Le & _).
    destruct (wf_t_pad_to z Wa Le) as [_ F]. rewrite Forall_forall in F. now apply F.
Qed.

(** The element [e] of the [k]-th array is the element of the concatenation
    at the position [e] after the sizes of the arrays before it. *)
Lemma concatenate_reading (xs : list (spAD2 (K:=K))) ax :
  xs <> [] -> Forall wf xs ->
  Forall (fun x => is_1d (vshape (value x)) = true) xs ->
  exists r,
    concatenate (map OAD xs) ax = Ok r /\ wf r /\
    vshape (value r) = Sh1 (list_sum (map (fun x => osize (vshape (value x))) xs)) /\
    In (size_ad1 r) (map size_ad1 xs) /\ In (size_ad2 r) (map size_ad2 xs) /\
    (forall x, In x xs -> size_ad1 x <= size_ad1 r /\ size_ad2 x <= size_ad2 r) /\
    forall k x e, nth_error xs k = Some x -> e < osize (vshape (value x)) ->
      let p := list_sum (map (fun y => osize (vshape (value y))) (firstn k xs)) + e in
      val (value r) p = val (value x) e /\
      terms1 r p = terms1 x e ++ repeat (s0, 0%Z) (size_ad1 r - size_ad1 x) /\
      terms2 r p = terms2 x e ++ repeat (s0, 0%Z, 0%Z) (size_ad2 r - size_ad2 x).
Proof.
  intros NE FW F1.
  destruct (concatenate_steps ax NE FW F1) as (W1 & W2 & _ & _ & B1 & B2 & I1 & I2 & R).
  rewrite Forall_forall in FW, F1.
  eexists. split; [exact R|].
  assert (LL : forall x, In x xs ->
             length (vdata (value x)) = osize (vshape (value x)) /\
             length (trows (coef1 x)) = osize (vshape (value x)) /\
             length (trows (index x)) = osize (vshape (value x)) /\
             length (trows (coef2 x)) = osize (vshape (value x)) /\
             length (trows (index_row x)) = osize (vshape (value x)) /\
             length (trows (index_col x)) = osize (vshape (value x))).
  { intros x Hx. apply wf_lengths. auto. }
  split; [|split; [reflexivity|split; [exact I1|split; [exact I2|split]]]].
  - constructor; cbn [value coef1 index coef2 index_row index_col tshape twidth vshape];
      try reflexivity.
    + unfold wf_v. cbn [vdata vshape osize]. rewrite length_concat_sum, map_map.
      f_equal. apply map_ext_in. intros x Hx. apply (LL x Hx).
    + apply wf_t_concat_padded. intros x Hx.
      split; [apply (wf_coef1 (FW x Hx))|split; [now apply B1|apply (wf_shape1 (FW x Hx))]].
    + apply wf_t_concat_padded. intros x Hx.
      split; [apply (wf_index (FW x Hx))|split; [|apply (wf_shapei (FW x Hx))]].
      rewrite (wf_width1 (FW x Hx)). now apply B1.
    + apply wf_t_concat_padded. intros x Hx.
      split; [apply (wf_coef2 (FW x Hx))|split; [now apply B2|apply (wf_shape2 (FW x Hx))]].
    + apply wf_t_concat_padded. intros x Hx.
      split; [apply (wf_index_row (FW x Hx))|split; [|apply (wf_shaper (FW x Hx))]].
      rewrite (wf_widthr (FW x Hx)). now apply B2.
    + apply wf_t_concat_padded. intros x Hx.
      split; [apply (wf_index_col (FW x Hx))|split; [|apply (wf_shapec (FW x Hx))]].
      rewrite (wf_widthc (FW x Hx)). now apply B2.
  - intros x Hx. unfold size_ad1, size_ad2. cbn [coef1 coef2 twidth].
    split; [now apply B1|now apply B2].
  - intros k x e Hk He p.
    assert (Hx : In x xs) by (eapply nth_error_In; eauto).
    pose proof (FW x Hx) as Wx.
    unfold terms1, terms2, size_ad1, size_ad2, p.
    cbn [value coef1 index coef2 index_row index_col twidth].
    rewrite (@val_concatenated _ _ _ _ _ Hk) by (try assumption; intros; now apply LL).
    rewrite !(@row_concatenated _ _ _ _ _ _ _ _ _ Hk) by (try assumption; intros; now apply LL).
    rewrite (wf_width1 Wx), (wf_widthr Wx), (wf_widthc Wx).
    assert (R1 := @wf_t_row _ (coef1 x) e (wf_coef1 Wx)).
    assert (Ri := @wf_t_row _ (index x) e (wf_index Wx)).
    assert (R2 := @wf_t_row _ (coef2 x) e (wf_coef2 Wx)).
    assert (Rr := @wf_t_row _ (index_row x) e (wf_index_row Wx)).
    assert (Rc := @wf_t_row _ (index_col x) e (wf_index_col Wx)).
    rewrite (wf_shape1 Wx) in R1. rewrite (wf_shapei Wx) in Ri.
    rewrite (wf_shape2 Wx) in R2. rewrite (wf_shaper Wx) in Rr.
    rewrite (wf_shapec Wx) in Rc.
    split; [reflexivity|]. split.
    + apply combine_padded. rewrite R1, Ri by assumption. symmetry. apply (wf_width1 Wx).
    + rewrite combine_padded.
      * apply combine_padded. rewrite length_combine, R2, Rr, Rc by assumption.
        rewrite (wf_widthr Wx), (wf_widthc Wx). lia.
      * rewrite R2, Rr by assumption. symmetry. apply (wf_widthr Wx).
Qed.

Lemma concatenate_raises (xs : list (spAD2 (K:=K))) ax :
  xs = [] \/ Exists (fun x => vshape (value x) = Sh0) xs ->
  concatenate (map OAD xs) ax = Raise ValueError.
Proof.
  intros [->|H]; [reflexivity|].
  unfold concatenate. rewrite mapM_as_spAD2. cbn [rbind].
  assert (NE : xs <> []) by (destruct H; discriminate).
  destruct (@py_max_ok (map size_ad1 xs)) as (W1 & -> & _).
  { destruct xs; [congruence|discriminate]. }
  destruct (@py_max_ok (map size_ad2 xs)) as (W2 & -> & _).
  { destruct xs; [congruence|discriminate]. }
  cbn [rbind]. rewrite np_concatenate0_v_0d; [reflexivity|].
  apply Exists_exists in H. destruct H as (x & Hx & E).
  exists (value x). split; [now apply in_map|assumption].
Qed.

End Concatenate.

(** ** The methods as a user reads them *)

(** X1.  Whatever [spAD2(value, coef1, index, coef2, index_row, index_col,
    broadcast_ad)] returns is well formed: its five term arrays have the outer
    shape of the value, [index] has the width of [coef1], [index_row] and
    [index_col] the width of [coef2]; the value is the one given, and an
    order for which no array was given has width zero. *)
Theorem constructor_establishes_invariant :
  forall (K : Type) (SK : Scalar K) (v : varr K) c1 i1 c2 ir ic b x,
    wf_v v -> wf_opt c1 -> wf_opt i1 -> wf_opt c2 -> wf_opt ir -> wf_opt ic ->
    spAD2_new v c1 i1 c2 ir ic b = Ok x ->
    wf x /\ value x = v /\
    size_ad1 x = match c1 with Some c => twidth c | None => 0 end /\
    size_ad2 x = match c2 with Some c => twidth c | None => 0 end.
Proof.
  intros K SK v c1 i1 c2 ir ic b x Wv W1 Wi W2 Wr Wc H.
  apply (@spAD2_new_wf K v c1 i1 c2 ir ic b x); assumption.
Qed.

Lemma constructor_establishes_invariant_witness :
  exists x,
    spAD2_new (Varr (Sh1 2) [2%Q; 3%Q]) (Some (Tarr Sh0 1 [[1%Q]])) (Some (Tarr Sh0 1 [[0%Z]]))
      None None None true = Ok x /\
    wf x /\ size_ad1 x = 1 /\ size_ad2 x = 0.
Proof.
  assert (Wv : wf_v (Varr (Sh1 2) [2%Q; 3%Q])) by reflexivity.
  assert (Wc : wf_opt (Some (Tarr Sh0 1 [[1%Q]])))
    by (split; [reflexivity | repeat constructor]).
  assert (Wi : wf_opt (Some (Tarr Sh0 1 [[0%Z]])))
    by (split; [reflexivity | repeat constructor]).
  eexists. split; [reflexivity|].
  destruct (@constructor_establishes_invariant Q _ _ _ _ None None None true _
              Wv Wc Wi I I I eq_refl) as (W & _ & H1 & H2).
  split; [exact W|]. split; [exact H1 | exact H2].
Defined.

(** X2.  The sum of two [spAD2] arrays whose shapes broadcast: every element
    of the result has the sum of the two values and carries the entries of
    the left operand followed by those of the right operand, for each order;
    the widths add up.  In exact arithmetic the gradient and the Hessian of
    the result are therefore the sums of the operands' gradients and
    Hessians.  Shapes that do not broadcast raise the error of numpy. *)
Theorem add_concatenates_terms :
  forall (K : Type) (SK : Scalar K) (a b : spAD2 (K:=K)),
    wf a -> wf b ->
    (forall s, broadcast_shapes (vshape (value a)) (vshape (value b)) = Ok s ->
       exists r,
         __add__ a (OAD b) = Ok r /\ wf r /\ vshape (value r) = s /\
         size_ad1 r = size_ad1 a + size_ad1 b /\
         size_ad2 r = size_ad2 a + size_ad2 b /\
         forall e, e < osize s ->
           let ea := bcell (vshape (value a)) s e in
           let eb := bcell (vshape (value b)) s e in
           val (value r) e = sadd (val (value a) ea) (val (value b) eb) /\
           terms1 r e = terms1 a ea ++ terms1 b eb /\
           terms2 r e = terms2 a ea ++ terms2 b eb /\
           (exact_arithmetic (K:=K) ->
            (forall j, gradient_at r e j = sadd (gradient_at a ea j) (gradient_at b eb j)) /\
            (forall i j, hessian_of r e i j
                         = sadd (hessian_of a ea i j) (hessian_of b eb i j))))
    /\ (forall ex, broadcast_shapes (vshape (value a)) (vshape (value b)) = Raise ex ->
          __add__ a (OAD b) = Raise ex).
Proof.
  intros K SK a b Wa Wb. split.
  - intros s Hs.
    destruct (add_reading Wa Wb Hs) as (r & Hr & Wr & Er & E1 & E2 & R).
    exists r. repeat (split; [assumption|]).
    intros e He ea eb. destruct (R e He) as (Rv & R1 & R2).
    repeat (split; [assumption|]).
    intros EX. unfold gradient_at, hessian_of. rewrite R1, R2. split; intros.
    + now apply sum_at_app.
    + now apply sum_at2_app.
  - intros ex H. unfold __add__, vzip. now rewrite H.
Qed.

Lemma add_concatenates_terms_witness :
  exists r,
    __add__ int_scalar (OAD int_pair) = Ok r /\
    vshape (value r) = Sh1 2 /\
    terms1 r 1 = [(2%Z, 0%Z); (3%Z, 1%Z); (1%Z, 1%Z)] /\
    gradient_at r 1 1 = 4%Z.
Proof.
  destruct (@add_concatenates_terms Z Scalar_Z int_scalar int_pair) as [H _];
    [solve_wf | solve_wf |].
  destruct (H (Sh1 2) eq_refl) as (r & Hr & _ & Er & _ & _ & R).
  exists r. split; [exact Hr|]. split; [exact Er|].
  destruct (R 1 ltac:(simpl; lia)) as (_ & R1 & _ & D).
  split; [exact R1|].
  destruct (D Z_exact) as [G _]. rewrite G. reflexivity.
Defined.

(** X3.  Adding a plain array or a Python scalar to an [spAD2] changes the
    values only: every element of the result keeps the first-order and the
    second-order entries of the element of [self] it comes from, so a constant
    does not change any derivative. *)
Theorem add_constant_keeps_derivatives :
  forall (K : Type) (SK : Scalar K) (a : spAD2 (K:=K)),
    wf a ->
    (forall (c : varr K) s,
        wf_v c -> broadcast_shapes (vshape (value a)) (vshape c) = Ok s ->
        exists r,
          __add__ a (OArr c) = Ok r /\ wf r /\ vshape (value r) = s /\
          size_ad1 r = size_ad1 a /\ size_ad2 r = size_ad2 a /\
          forall e, e < osize s ->
            val (value r) e
            = sadd (val (value a) (bcell (vshape (value a)) s e))
                   (val c (bcell (vshape c) s e)) /\
            terms1 r e = terms1 a (bcell (vshape (value a)) s e) /\
            terms2 r e = terms2 a (bcell (vshape (value a)) s e))
    /\ (forall k : K,
          __add__ a (OScalar k)
          = Ok (SpAD2 (vmap (fun v => sadd v k) (value a)) (coef1 a) (index a)
                  (coef2 a) (index_row a) (index_col a))).
Proof.
  intros K SK a Wa. split.
  - intros c s Wc Hs. now apply add_constant_reading.
  - intros k. now apply add_scalar_reading.
Qed.

Lemma add_constant_keeps_derivatives_witness :
  exists r,
    __add__ int_scalar (OArr (Varr (Sh1 2) [10%Z; 20%Z])) = Ok r /\
    val (value r) 1 = 27%Z /\ terms1 r 1 = terms1 int_scalar 0.
Proof.
  destruct (@add_constant_keeps_derivatives Z Scalar_Z int_scalar) as [H _]; [solve_wf|].
  destruct (H (Varr (Sh1 2) [10%Z; 20%Z]) (Sh1 2) eq_refl eq_refl)
    as (r & Hr & _ & _ & _ & _ & R).
  exists r. split; [exact Hr|].
  destruct (R 1 ltac:(simpl; lia)) as (Rv & R1 & _).
  split; [rewrite Rv; reflexivity | exact R1].
Defined.

(** X4.  The product rule.  In exact arithmetic the product [a * b] of two
    [spAD2] arrays of one shape has, element by element, the gradient
    [b grad(a) + a grad(b)] and the Hessian
    [b H(a) + a H(b) + grad(a) grad(b)^T + grad(b) grad(a)^T]. *)
Theorem mul_product_rule :
  forall (K : Type) (SK : Scalar K) (a b : spAD2 (K:=K)),
    exact_arithmetic (K:=K) ->
    wf a -> wf b -> vshape (value b) = vshape (value a) ->
    exists r,
      __mul__ a (OAD b) = Ok r /\
      forall e, e < osize (vshape (value a)) ->
        val (value r) e = smul (val (value a) e) (val (value b) e) /\
        (forall j,
            gradient_at r e j
            = sadd (smul (val (value b) e) (gradient_at a e j))
                   (smul (val (value a) e) (gradient_at b e j))) /\
        (forall i j,
            hessian_of r e i j
            = sadd (smul (val (value b) e) (hessian_of a e i j))
                (sadd (smul (val (value a) e) (hessian_of b e i j))
                   (sadd (smul (gradient_at a e i) (gradient_at b e j))
                         (smul (gradient_at a e j) (gradient_at b e i))))).
Proof.
  intros K SK a b EX Wa Wb E.
  destruct (mul_terms Wa Wb E) as (r & Hr & _ & _ & _ & R).
  exists r. split; [exact Hr|]. intros e He.
  destruct (R e He) as (Rv & R1 & R2). split; [exact Rv|].
  unfold gradient_at, hessian_of. rewrite R1, R2. split.
  - intros j. now rewrite sum_at_app, !sum_at_scaled.
  - intros i j.
    now rewrite !sum_at2_app, !sum_at2_scaled, sum_at2_pairs, sum_at2_pairs_swapped.
Qed.

Lemma mul_product_rule_witness :
  exists r,
    __mul__ int_scalar (OAD int_scalar) = Ok r /\
    val (value r) 0 = 49%Z /\ gradient_at r 0 1 = 42%Z /\ hessian_of r 0 0 1 = 26%Z.
Proof.
  destruct (@mul_product_rule Z Scalar_Z int_scalar int_scalar Z_exact)
    as (r & Hr & R); [solve_wf | solve_wf | reflexivity |].
  exists r. split; [exact Hr|].
  destruct (R 0 ltac:(simpl; lia)) as (Rv & G & H).
  split; [rewrite Rv; reflexivity|]. split; [rewrite G; reflexivity|].
  rewrite H. reflexivity.
Defined.

(** X5.  Multiplying an [spAD2] by a plain array or by a Python scalar scales
    the value and every coefficient of both orders by the factor of the
    element and leaves all the indices in place; nothing is appended. *)
Theorem mul_by_constant_scales :
  forall (K : Type) (SK : Scalar K) (a : spAD2 (K:=K)),
    wf a ->
    (forall (c : varr K) s,
        wf_v c -> broadcast_shapes (vshape (value a)) (vshape c) = Ok s ->
        exists r,
          __mul__ a (OArr c) = Ok r /\ wf r /\ vshape (value r) = s /\
          size_ad1 r = size_ad1 a /\ size_ad2 r = size_ad2 a /\
          forall e, e < osize s ->
            let ea := bcell (vshape (value a)) s e in
            let k := val c (bcell (vshape c) s e) in
            val (value r) e = smul (val (value a) ea) k /\
            terms1 r e = map (fun t => (smul k (fst t), snd t)) (terms1 a ea) /\
            terms2 r e
            = map (fun t => (smul k (fst (fst t)), snd (fst t), snd t)) (terms2 a ea))
    /\ (forall k : K,
          __mul__ a (OScalar k)
          = Ok (SpAD2 (vmap (fun v => smul v k) (value a)) (tmap (smul k) (coef1 a)) (index a)
                  (tmap (smul k) (coef2 a)) (index_row a) (index_col a))).
Proof.
  intros K SK a Wa. split.
  - intros c s Wc Hs. now apply mul_array_reading.
  - intros k. now apply mul_scalar_reading.
Qed.

Lemma mul_by_constant_scales_witness :
  exists r,
    __mul__ int_pair (OArr (Varr Sh0 [10%Z])) = Ok r /\
    val (value r) 1 = 30%Z /\ terms1 r 1 = [(10%Z, 1%Z)] /\
    terms2 r 1 = [(50%Z, 1%Z, 1%Z)].
Proof.
  destruct (@mul_by_constant_scales Z Scalar_Z int_pair) as [H _]; [solve_wf|].
  destruct (H (Varr Sh0 [10%Z]) (Sh1 2) eq_refl eq_refl)
    as (r & Hr & _ & _ & _ & _ & R).
  exists r. split; [exact Hr|].
  destruct (R 1 ltac:(simpl; lia)) as (Rv & R1 & R2).
  split; [rewrite Rv; reflexivity|]. split; [rewrite R1; reflexivity|].
  rewrite R2. reflexivity.
Defined.

(** X6.  The chain rule of [_math_helper] on the derivatives: for the triple
    [(a, b, c) = (f(x), f'(x), f''(x))], in exact arithmetic every element of
    the result has the gradient [b grad(x)] and the Hessian
    [b H(x) + c grad(x) grad(x)^T]. *)
Theorem math_helper_second_order_chain_rule :
  forall (K : Type) (SK : Scalar K) (x : spAD2 (K:=K)) (a b c : varr K),
    exact_arithmetic (K:=K) ->
    wf x -> wf_v a -> wf_v b -> wf_v c ->
    vshape a = vshape (value x) -> vshape b = vshape (value x) ->
    vshape c = vshape (value x) ->
    exists r,
      _math_helper x (a, b, c) = Ok r /\ wf r /\ value r = a /\
      forall e, e < osize (vshape (value x)) ->
        (forall j, gradient_at r e j = smul (val b e) (gradient_at x e j)) /\
        (forall i j,
            hessian_of r e i j
            = sadd (smul (val b e) (hessian_of x e i j))
                   (smul (val c e) (smul (gradient_at x e i) (gradient_at x e j)))).
Proof.
  intros K SK x a b c EX Wx Wa Wb Wc Ea Eb Ec.
  destruct (math_helper_chain_rule Wx Wa Wb Wc Ea Eb Ec)
    as (r & Hr & Wr & Ev & _ & _ & _ & R).
  exists r. split; [exact Hr|]. split; [exact Wr|]. split; [exact Ev|].
  intros e He. destruct (R e He) as (R1 & R2).
  unfold gradient_at, hessian_of. rewrite R1, R2. split.
  - intros j. now apply sum_at_scaled.
  - intros i j. rewrite sum_at2_app, sum_at2_scaled by assumption. f_equal.
    rewrite <- (sum_at2_pairs EX).
    rewrite <- (sum_at2_scaled EX (val c e)). f_equal.
    rewrite map_map. reflexivity.
Qed.

Lemma math_helper_second_order_chain_rule_witness :
  exists r,
    _math_helper int_scalar (Varr Sh0 [1%Z], Varr Sh0 [2%Z], Varr Sh0 [3%Z]) = Ok r /\
    gradient_at r 0 0 = 4%Z /\ hessian_of r 0 0 1 = 20%Z.
Proof.
  destruct (@math_helper_second_order_chain_rule Z Scalar_Z int_scalar
              (Varr Sh0 [1%Z]) (Varr Sh0 [2%Z]) (Varr Sh0 [3%Z]) Z_exact)
    as (r & Hr & _ & _ & R); try reflexivity; [solve_wf|].
  exists r. split; [exact Hr|].
  destruct (R 0 ltac:(simpl; lia)) as (G & H).
  split; [rewrite G; reflexivity|]. rewrite H. reflexivity.
Defined.

(** X7.  Subtraction is addition of the opposite: [a - b] builds the arrays
    of [a + (-b)], so every element carries the entries of [a] followed by
    those of [b] with opposite coefficients, and in exact arithmetic its
    gradient and Hessian are the differences; a plain array or a scalar is
    subtracted from the values alone.  [-a] keeps every index and takes the
    opposite of the value and of every coefficient. *)
Theorem sub_is_add_of_opposite :
  forall (K : Type) (SK : Scalar K) (a b : spAD2 (K:=K)),
    wf b ->
    __neg__ b
    = Ok (SpAD2 (vmap sopp (value b)) (tmap sopp (coef1 b)) (index b)
            (tmap sopp (coef2 b)) (index_row b) (index_col b))
    /\ __sub__ a (OAD b) = (nb <- __neg__ b ;; __add__ a (OAD nb))
    /\ (forall c : varr K, __sub__ a (OArr c) = __add__ a (OArr (vmap sopp c)))
    /\ (forall k : K, __sub__ a (OScalar k) = __add__ a (OScalar (sopp k)))
    /\ (wf a ->
        forall s, broadcast_shapes (vshape (value a)) (vshape (value b)) = Ok s ->
        exists r,
          __sub__ a (OAD b) = Ok r /\ wf r /\ vshape (value r) = s /\
          forall e, e < osize s ->
            let ea := bcell (vshape (value a)) s e in
            let eb := bcell (vshape (value b)) s e in
            val (value r) e = ssub (val (value a) ea) (val (value b) eb) /\
            terms1 r e = terms1 a ea ++ map (fun t => (sopp (fst t), snd t)) (terms1 b eb) /\
            terms2 r e
            = terms2 a ea
              ++ map (fun t => (sopp (fst (fst t)), snd (fst t), snd t)) (terms2 b eb) /\
            (exact_arithmetic (K:=K) ->
             (forall j, gradient_at r e j
                        = sadd (gradient_at a ea j) (sopp (gradient_at b eb j))) /\
             (forall i j, hessian_of r e i j
                          = sadd (hessian_of a ea i j) (sopp (hessian_of b eb i j))))).
Proof.
  intros K SK a b Wb.
  split; [now apply neg_reading|]. split; [now apply sub_is_add_neg|].
  split; [intros c; apply sub_array_is_add|]. split; [reflexivity|].
  intros Wa s Hs.
  destruct (sub_reading Wa Wb Hs) as (r & Hr & Wr & Er & _ & _ & R).
  exists r. repeat (split; [assumption|]).
  intros e He ea eb. destruct (R e He) as (Rv & R1 & R2).
  repeat (split; [assumption|]).
  intros EX. unfold gradient_at, hessian_of. rewrite R1, R2. split; intros.
  - now rewrite sum_at_app, sum_at_opposed.
  - now rewrite sum_at2_app, sum_at2_opposed.
Qed.

Lemma sub_is_add_of_opposite_witness :
  exists r,
    __sub__ int_scalar (OAD int_scalar) = Ok r /\
    val (value r) 0 = 0%Z /\ gradient_at r 0 0 = 0%Z /\ hessian_of r 0 0 1 = 0%Z.
Proof.
  destruct (@sub_is_add_of_opposite Z Scalar_Z int_scalar int_scalar) as (_ & _ & _ & _ & H);
    [solve_wf|].
  destruct (H ltac:(solve_wf) Sh0 eq_refl) as (r & Hr & _ & _ & R).
  exists r. split; [exact Hr|].
  destruct (R 0 ltac:(simpl; lia)) as (Rv & _ & _ & D).
  split; [rewrite Rv; reflexivity|].
  destruct (D Z_exact) as [G Hh]. split; [rewrite G; reflexivity | rewrite Hh; reflexivity].
Defined.

(** X8.  [x[key]] reads whole elements: the result has the shape of the key
    and the widths of [x], and its element [k] has the value and the rows of
    all five term arrays of the element of [x] that the key addresses in
    position [k].  An integer key [i] on an array of shape [(n,)] with
    [-n <= i < n] gives the scalar element [i mod n]; any other integer raises
    [IndexError], as does an integer key or a slice on a 0-d array; a slice on
    an array of shape [(n,)] never raises. *)
Theorem getitem_selects_elements :
  forall (K : Type) (SK : Scalar K) (x : spAD2 (K:=K)) (key : key),
    wf x ->
    (forall ks ps, key_select (vshape (value x)) key = Ok (ks, ps) ->
       exists r,
         __getitem__ x key = Ok r /\ wf r /\ vshape (value r) = ks /\
         size_ad1 r = size_ad1 x /\ size_ad2 r = size_ad2 x /\
         forall k, k < length ps ->
           val (value r) k = val (value x) (nth k ps 0) /\
           terms1 r k = terms1 x (nth k ps 0) /\
           terms2 r k = terms2 x (nth k ps 0))
    /\ (forall n i, vshape (value x) = Sh1 n -> key = KInt i ->
          (- Z.of_nat n <= i < Z.of_nat n)%Z ->
          exists r,
            __getitem__ x key = Ok r /\ vshape (value r) = Sh0 /\
            val (value r) 0 = val (value x) (Z.to_nat (i mod Z.of_nat n)) /\
            terms1 r 0 = terms1 x (Z.to_nat (i mod Z.of_nat n)) /\
            terms2 r 0 = terms2 x (Z.to_nat (i mod Z.of_nat n)))
    /\ (forall n i, vshape (value x) = Sh1 n -> key = KInt i ->
          (i < - Z.of_nat n \/ Z.of_nat n <= i)%Z ->
          __getitem__ x key = Raise IndexError)
    /\ (vshape (value x) = Sh0 -> key <> KEllipsis -> __getitem__ x key = Raise IndexError)
    /\ (forall n a b, vshape (value x) = Sh1 n -> key = KSlice a b ->
          exists r, __getitem__ x key = Ok r /\
                    vshape (value r) = Sh1 (Nat.min b n - Nat.min a n)).
Proof.
  intros K SK x key W.
  assert (G : forall ks ps, key_select (vshape (value x)) key = Ok (ks, ps) ->
       exists r,
         __getitem__ x key = Ok r /\ wf r /\ vshape (value r) = ks /\
         size_ad1 r = size_ad1 x /\ size_ad2 r = size_ad2 x /\
         forall k, k < length ps ->
           val (value r) k = val (value x) (nth k ps 0) /\
           terms1 r k = terms1 x (nth k ps 0) /\
           terms2 r k = terms2 x (nth k ps 0)).
  { intros ks ps Hk.
    destruct (getitem_reading _ W Hk) as (r & Hr & Wr & Er & E1 & E2 & R).
    exists r. repeat (split; [assumption|]).
    intros k Hk'. destruct (R k Hk') as (Rv & R1 & Ri & R2 & Rr & Rc).
    unfold terms1, terms2. split; [exact Rv|]. split; congruence. }
  split; [exact G|]. split; [|split; [|split]].
  - intros n i En -> Hi.
    destruct (G Sh0 [Z.to_nat (i mod Z.of_nat n)]) as (r & Hr & _ & Er & _ & _ & R).
    { rewrite En. simpl.
      destruct (Z.leb_spec (- Z.of_nat n) i); [|lia].
      destruct (Z.ltb_spec i (Z.of_nat n)); [|lia]. reflexivity. }
    exists r. split; [exact Hr|]. split; [exact Er|]. apply (R 0). simpl. lia.
  - intros n i En -> Hi. apply getitem_raises. rewrite En. simpl.
    destruct (Z.leb_spec (- Z.of_nat n) i); destruct (Z.ltb_spec i (Z.of_nat n));
      simpl; try reflexivity; lia.
  - intros E0 Hne. apply getitem_raises. rewrite E0.
    destruct key; simpl; try reflexivity. congruence.
  - intros n a b En ->.
    destruct (G (Sh1 (Nat.min b n - Nat.min a n))
                (seq (Nat.min a n) (Nat.min b n - Nat.min a n)))
      as (r & Hr & _ & Er & _); [now rewrite En|].
    exists r. split; assumption.
Qed.

Lemma getitem_selects_elements_witness :
  (exists r, __getitem__ int_pair (KInt (-1)) = Ok r /\
             val (value r) 0 = 3%Z /\ terms1 r 0 = [(1%Z, 1%Z)])
  /\ __getitem__ int_pair (KInt 2) = Raise IndexError.
Proof.
  destruct (@getitem_selects_elements Z Scalar_Z int_pair (KInt (-1)) ltac:(solve_wf))
    as (_ & H & _).
  destruct (@getitem_selects_elements Z Scalar_Z int_pair (KInt 2) ltac:(solve_wf))
    as (_ & _ & H' & _).
  split.
  - destruct (H 2 (-1)%Z eq_refl eq_refl ltac:(simpl; lia)) as (r & Hr & _ & Rv & R1 & _).
    exists r. split; [exact Hr|]. split; [rewrite Rv; reflexivity | rewrite R1; reflexivity].
  - apply (H' 2 2%Z eq_refl eq_refl). simpl. lia.
Defined.

(** X9.  Assignment and access round trip: after [t[key] = o] for an [spAD2]
    [o], on a target whose arrays written in place are writeable, reading
    [t[key]] gives back, element by element, the value of [o] and the entries
    of [o] followed by zero-coefficient placeholders at index 0 up to the
    width of the widened target; in exact arithmetic the gradient and the
    Hessian read back are those of [o]. *)
Theorem setitem_then_getitem :
  forall (K : Type) (SK : Scalar K) (w : writeable) (key : key) (o t : spAD2 (K:=K)) ks ps,
    wf t -> wf o ->
    key_select (vshape (value t)) key = Ok (ks, ps) ->
    assignable (vshape (value o)) ks = true ->
    writes_allowed w (OAD o) t ->
    exists t' r,
      __setitem__ w key (OAD o) t = (Ok tt, t') /\ wf t' /\
      __getitem__ t' key = Ok r /\ wf r /\ vshape (value r) = ks /\
      forall k, k < osize ks ->
        let k' := bcell (vshape (value o)) ks k in
        val (value r) k = val (value o) k' /\
        terms1 r k = terms1 o k' ++ repeat (s0, 0%Z) (size_ad1 t' - size_ad1 o) /\
        terms2 r k = terms2 o k' ++ repeat (s0, 0%Z, 0%Z) (size_ad2 t' - size_ad2 o) /\
        (exact_arithmetic (K:=K) ->
         (forall j, gradient_at r k j = gradient_at o k' j) /\
         (forall i j, hessian_of r k i j = hessian_of o k' i j)).
Proof.
  intros K SK w key o t ks ps Wt Wo Hk A Hw.
  destruct (setitem_getitem _ Wt Wo Hk A Hw) as (t' & r & Hs & Wt' & Hg & Wr & Er & R).
  exists t', r. repeat (split; [assumption|]).
  intros k Hk' k'. destruct (R k Hk') as (Rv & R1 & R2).
  repeat (split; [assumption|]).
  intros EX. unfold gradient_at, hessian_of. rewrite R1, R2. split; intros.
  - now apply sum_at_placeholders.
  - now apply sum_at2_placeholders.
Qed.

Lemma setitem_then_getitem_witness :
  exists t' r,
    __setitem__ flags_of_mul_array (KInt 1) (OAD int_scalar) int_pair = (Ok tt, t') /\
    __getitem__ t' (KInt 1) = Ok r /\
    val (value r) 0 = 7%Z /\ gradient_at r 0 1 = 3%Z /\ hessian_of r 0 0 1 = 1%Z.
Proof.
  assert (Wp : wf int_pair) by solve_wf.
  assert (Ws : wf int_scalar) by solve_wf.
  assert (Hw : writes_allowed flags_of_mul_array (OAD int_scalar) int_pair).
  { split; [reflexivity|]. split; intros Hle; simpl in Hle; lia. }
  destruct (@setitem_then_getitem Z Scalar_Z flags_of_mul_array (KInt 1) int_scalar int_pair
              Sh0 [1] Wp Ws eq_refl eq_refl Hw)
    as (t' & r & Hs & _ & Hg & _ & _ & R).
  exists t', r. split; [exact Hs|]. split; [exact Hg|].
  destruct (R 0 ltac:(simpl; lia)) as (Rv & _ & _ & D).
  split; [rewrite Rv; reflexivity|].
  destruct (D Z_exact) as [G Hh]. split; [rewrite G | rewrite Hh]; reflexivity.
Defined.

(** X10.  [t[key] = c] for a plain array or a Python scalar [c], on a target
    whose value and coefficient arrays are writeable, writes the values and
    sets every coefficient of the addressed elements to zero, for both
    orders; the three index arrays and the widths stay as they are, and so
    does every element outside the key.  In exact arithmetic the addressed
    elements have a zero gradient and a zero Hessian afterwards. *)
Theorem setitem_constant_clears_coefficients :
  forall (K : Type) (SK : Scalar K) (w : writeable) (key : key) (other : operand)
         (t : spAD2 (K:=K)) ks ps,
    wf t ->
    key_select (vshape (value t)) key = Ok (ks, ps) ->
    match other with
    | OAD _ => False
    | OArr a => wf_v a /\ assignable (vshape a) ks = true
    | OScalar _ => True
    end ->
    writes_allowed w other t ->
    exists t',
      __setitem__ w key other t = (Ok tt, t') /\ wf t' /\
      index t' = index t /\ index_row t' = index_row t /\ index_col t' = index_col t /\
      size_ad1 t' = size_ad1 t /\ size_ad2 t' = size_ad2 t /\
      (forall e, e < osize (vshape (value t)) -> ~ In e ps ->
         val (value t') e = val (value t) e /\
         terms1 t' e = terms1 t e /\ terms2 t' e = terms2 t e) /\
      (forall k, k < length ps ->
         let e := nth k ps 0 in
         val (value t') e
         = match other with
           | OArr a => val a (bcell (vshape a) ks k)
           | OScalar c => c
           | OAD _ => s0
           end /\
         row (coef1 t') e = repeat s0 (size_ad1 t) /\
         row (coef2 t') e = repeat s0 (size_ad2 t) /\
         (exact_arithmetic (K:=K) ->
          (forall j, gradient_at t' e j = s0) /\
          (forall i j, hessian_of t' e i j = s0))).
Proof.
  intros K SK fl key other t ks ps W Hk A Hw.
  destruct (key_select_props _ _ Hk) as (ND & R & Lp).
  pose proof (wf_lengths W) as (LV & L1 & Li & L2 & Lr & Lc).
  rewrite setitem_constant_state with (ks := ks) (ps := ps); auto;
    [|destruct other; tauto].
  destruct W as [Wv W1 Wi W2 Wr Wc S1 Si S2 Sr Sc X1 Xr Xc].
  eexists. split; [reflexivity|].
  assert (Z1 : forall w, Forall (fun r : list K => length r = w)
                           (repeat (repeat s0 w) (length ps))).
  { intros w. apply Forall_forall. intros r Hr. apply repeat_spec in Hr. subst.
    apply repeat_length. }
  split; [|repeat (split; [reflexivity|]); split].
  - constructor; cbn [value coef1 index coef2 index_row index_col tshape twidth vshape];
      auto.
    + unfold wf_v. simpl. now rewrite write_length.
    + destruct W1 as [La Fa]. split; simpl; [now rewrite write_length|].
      apply Forall_write; auto.
    + destruct W2 as [La Fa]. split; simpl; [now rewrite write_length|].
      apply Forall_write; auto.
  - intros e He Hn. unfold val, terms1, terms2, row.
    cbn [value coef1 index coef2 index_row index_col vdata trows].
    now rewrite !write_outside by assumption.
  - intros k Hk' e. unfold val, row, gradient_at, hessian_of, terms1, terms2, row, size_ad1,
      size_ad2.
    cbn [value coef1 index coef2 index_row index_col vdata trows].
    unfold e.
    rewrite !write_inside; auto;
      try (rewrite repeat_length; reflexivity);
      try (intros; rewrite ?LV, ?L1, ?L2; auto).
    + rewrite !nth_repeat_lt by assumption.
      split; [|split; [reflexivity|split; [reflexivity|]]].
      * destruct other as [o|a|c]; [contradiction| |now rewrite nth_repeat_lt].
        destruct A as [Wa Aa].
        now apply (stretch_assignable _ _ (vdata a) s0 Aa Wa); lia.
      * intros EX. split; intros.
        -- apply sum_at_zero_coefficients; auto. apply Forall_forall.
           intros x Hx. now apply repeat_spec in Hx.
        -- apply sum_at2_zero_coefficients; auto. apply Forall_forall.
           intros x Hx. now apply repeat_spec in Hx.
    + destruct other as [o|a|c]; [contradiction| |apply repeat_length].
      destruct A as [Wa Aa].
      rewrite (proj1 (stretch_assignable _ _ (vdata a) s0 Aa Wa)). lia.
Qed.

Lemma setitem_constant_clears_coefficients_witness :
  exists t',
    __setitem__ flags_of_mul_array (KInt 0) (OScalar 9%Z) int_pair = (Ok tt, t') /\
    val (value t') 0 = 9%Z /\ row (coef1 t') 0 = [0%Z] /\ index t' = index int_pair /\
    terms1 t' 1 = terms1 int_pair 1.
Proof.
  assert (Wp : wf int_pair) by solve_wf.
  assert (Hw : writes_allowed flags_of_mul_array (OScalar 9%Z) int_pair).
  { split; [reflexivity|]. split; reflexivity. }
  destruct (@setitem_constant_clears_coefficients Z Scalar_Z flags_of_mul_array (KInt 0)
              (OScalar 9%Z) int_pair Sh0 [0] Wp eq_refl I Hw)
    as (t' & Hs & _ & Ei & _ & _ & _ & _ & Hout & Hin).
  exists t'. split; [exact Hs|].
  destruct (Hin 0 ltac:(simpl; lia)) as (Rv & R1 & _).
  destruct (Hout 1 ltac:(simpl; lia) ltac:(simpl; lia)) as (_ & O1 & _).
  split; [exact Rv|]. split; [exact R1|]. split; [exact Ei | exact O1].
Defined.

(** X11.  [simplify_ad] changes the representation only.  On a well-formed
    array with at least one second-order entry, non-negative column indices
    and keys that fit 64 bits it returns, keeps the values, and in exact
    arithmetic every element has the same gradient and the same Hessian as
    before: for every index [j] the first-order coefficients stored at [j]
    still sum to the same number, and so do the second-order coefficients
    stored at [(i, j)].  The dedup routine [Sparse.spAD.simplify_ad] is
    modelled from the spec. *)
Theorem simplify_ad_keeps_derivatives :
  forall (K : Type) (SK : Scalar K) (x : spAD2 (K:=K)) m,
    exact_arithmetic (K:=K) ->
    wf x -> np_max (index_col x) = Ok m ->
    (forall c, In c (concat (trows (index_col x))) -> (0 <= c)%Z) ->
    keys_fit x m ->
    simplify_ad x = (Ok tt, simplified x m) /\
    wf (simplified x m) /\ value (simplified x m) = value x /\
    forall e, e < osize (vshape (value x)) ->
      (forall j, gradient_at (simplified x m) e j = gradient_at x e j) /\
      (forall i j, hessian_of (simplified x m) e i j = hessian_of x e i j).
Proof.
  intros K SK x m EX W Hm Hnon Fit.
  split; [now apply simplify_ad_ok|]. rewrite (simplified_fits Fit).
  split; [now apply simplified_exact_wf|].
  split; [reflexivity|]. intros e He. now apply simplified_keeps_derivatives.
Qed.

Lemma simplify_ad_keeps_derivatives_witness :
  exists y,
    simplify_ad int_duplicates = (Ok tt, y) /\
    size_ad1 y = 2 /\ gradient_at y 0 0 = 7%Z /\ hessian_of y 0 0 1 = 5%Z.
Proof.
  destruct (@simplify_ad_keeps_derivatives Z Scalar_Z int_duplicates 1%Z Z_exact)
    as (Hs & _ & _ & R); [solve_wf | reflexivity | | |].
  { intros c Hc. simpl in Hc. intuition lia. }
  { split; [unfold in_int64; lia|]. intros e r c H.
    destruct e as [|[|e]]; simpl in H; try contradiction.
    unfold in_int64.
    destruct H as [H|[H|[H|[]]]]; inversion H; subst; lia. }
  exists (simplified int_duplicates 1). split; [exact Hs|]. split; [reflexivity|].
  destruct (R 0 ltac:(simpl; lia)) as [G H].
  split; [rewrite G | rewrite H]; reflexivity.
Defined.

(** X14.  [x.sum()], [x.sum(axis=0)] and [x.sum(axis=-1)] of a well-formed
    array of shape [(n,)] return one scalar element whose value is the sum of
    the values and whose entries are, up to their order, the entries of all
    the elements of [x] (so each width is multiplied by [n], placeholders
    included); in exact arithmetic its gradient and its Hessian are the sums
    of the gradients and of the Hessians of the elements. *)
Theorem sum_adds_derivatives :
  forall (K : Type) (SK : Scalar K) (x : spAD2 (K:=K)) (n : nat) (ax : option axis),
    wf x -> vshape (value x) = Sh1 n ->
    exists r,
      sum x ax = Ok r /\ wf r /\ vshape (value r) = Sh0 /\
      val (value r) 0 = np_sum (value x) /\
      size_ad1 r = size_ad1 x * n /\ size_ad2 r = size_ad2 x * n /\
      Permutation (terms1 r 0) (concat (map (terms1 x) (seq 0 n))) /\
      Permutation (terms2 r 0) (concat (map (terms2 x) (seq 0 n))) /\
      (exact_arithmetic (K:=K) ->
       (forall j, gradient_at r 0 j
                  = np_sum (Varr (Sh1 n) (map (fun e => gradient_at x e j) (seq 0 n)))) /\
       (forall i j, hessian_of r 0 i j
                    = np_sum (Varr (Sh1 n) (map (fun e => hessian_of x e i j) (seq 0 n))))).
Proof.
  intros K SK x n ax W E.
  destruct (sum_reading ax W E) as (r & Hr & Wr & Sr & V & Z1 & Z2 & P1 & P2).
  exists r. repeat (split; [assumption|]).
  intros EX. unfold gradient_at, hessian_of. split; intros.
  - rewrite sum_at_where, (sum_where_perm EX _ _ P1), (sum_where_concat EX).
    now rewrite (np_sum_cells EX), map_map.
  - rewrite sum_at2_where, (sum_where_perm EX _ _ P2), (sum_where_concat EX).
    now rewrite (np_sum_cells EX), map_map.
Qed.

Lemma sum_adds_derivatives_witness :
  exists r,
    sum int_pair (Some AxFirst) = Ok r /\
    val (value r) 0 = 5%Z /\ size_ad1 r = 2 /\
    gradient_at r 0 1 = 1%Z /\ hessian_of r 0 1 1 = 5%Z.
Proof.
  destruct (@sum_adds_derivatives Z Scalar_Z int_pair 2 (Some AxFirst))
    as (r & Hr & _ & _ & V & Z1 & _ & _ & _ & D); [solve_wf | reflexivity |].
  exists r. split; [exact Hr|]. split; [rewrite V; reflexivity|].
  split; [rewrite Z1; reflexivity|].
  destruct (D Z_exact) as [G H]. split; [rewrite G; reflexivity | rewrite H; reflexivity].
Defined.

(** X15.  On a well-formed 0-d array [x.sum()] returns [x] itself (it is
    flattened to one element and summed along its axis), while
    [x.sum(axis=0)] and [x.sum(axis=-1)] raise [IndexError]. *)
Theorem sum_of_scalar :
  forall (K : Type) (SK : Scalar K) (x : spAD2 (K:=K)),
    wf x -> vshape (value x) = Sh0 ->
    sum x None = Ok x /\ forall ax, sum x (Some ax) = Raise IndexError.
Proof.
  intros K SK x W E. split; [now apply sum_scalar|].
  intros ax. cbn [sum]. unfold sum_axis. now rewrite E.
Qed.

Lemma sum_of_scalar_witness :
  sum int_scalar None = Ok int_scalar /\
  sum int_scalar (Some AxLast) = Raise IndexError.
Proof.
  destruct (@sum_of_scalar Z Scalar_Z int_scalar) as [H1 H2]; [solve_wf | reflexivity |].
  split; [exact H1 | exact (H2 AxLast)].
Defined.

(** X16.  [x.broadcast_to(shape)] on a well-formed array either raises
    [ValueError], exactly when the shape of [x] does not broadcast to
    [shape] (a 1-d array to [()], or [(n,)] to [(m,)] with [n] neither [m]
    nor 1), or returns a well-formed array of that shape and of the widths of
    [x] each of whose elements is the element of [x] that broadcasting shows
    there, with its value and all its entries. *)
Theorem broadcast_to_repeats_elements :
  forall (K : Type) (SK : Scalar K) (x : spAD2 (K:=K)) (s : oshape),
    wf x ->
    match broadcast_to x s with
    | Ok r =>
        broadcastable (vshape (value x)) s = true /\
        wf r /\ vshape (value r) = s /\
        size_ad1 r = size_ad1 x /\ size_ad2 r = size_ad2 x /\
        forall e, e < osize s ->
          val (value r) e = val (value x) (bcell (vshape (value x)) s e) /\
          terms1 r e = terms1 x (bcell (vshape (value x)) s e) /\
          terms2 r e = terms2 x (bcell (vshape (value x)) s e)
    | Raise ex => broadcastable (vshape (value x)) s = false /\ ex = ValueError
    end.
Proof.
  intros K SK x s W.
  destruct (broadcastable (vshape (value x)) s) eqn:B.
  - destruct (broadcast_to_reading s W B) as (r & -> & R). now split.
  - rewrite (broadcast_to_raises _ _ B). now split.
Qed.

Lemma broadcast_to_repeats_elements_witness :
  (exists r, broadcast_to int_scalar (Sh1 3) = Ok r /\
             val (value r) 2 = 7%Z /\ terms1 r 2 = terms1 int_scalar 0)
  /\ broadcast_to int_pair (Sh1 3) = Raise ValueError.
Proof.
  split.
  - assert (H := @broadcast_to_repeats_elements Z Scalar_Z int_scalar (Sh1 3)
                   ltac:(solve_wf)).
    destruct (broadcast_to int_scalar (Sh1 3)) as [r|ex]; [|destruct H; discriminate].
    exists r. split; [reflexivity|].
    destruct H as (_ & _ & _ & _ & _ & R). destruct (R 2 ltac:(simpl; lia)) as (Rv & R1 & _).
    split; [rewrite Rv; reflexivity | rewrite R1; reflexivity].
  - assert (H := @broadcast_to_repeats_elements Z Scalar_Z int_pair (Sh1 3)
                   ltac:(solve_wf)).
    destruct (broadcast_to int_pair (Sh1 3)) as [r|ex]; [destruct H; discriminate|].
    destruct H as [_ ->]. reflexivity.
Defined.

(** X17.  [x.reshape(shape)] on a well-formed array raises [ValueError]
    exactly when [shape] has another number of elements; otherwise the result
    is well-formed, has the shape asked for and the widths of [x], and keeps
    every element with its value and entries in place.  [x.flatten()] never
    raises: it returns [x] unchanged when [x] has the shape [(n,)] and the
    one-element array of shape [(1,)] when [x] is 0-d. *)
Theorem reshape_keeps_elements :
  forall (K : Type) (SK : Scalar K) (x : spAD2 (K:=K)),
    wf x ->
    (forall s,
        match reshape x s with
        | Ok r =>
            osize s = osize (vshape (value x)) /\
            wf r /\ vshape (value r) = s /\
            size_ad1 r = size_ad1 x /\ size_ad2 r = size_ad2 x /\
            forall e, val (value r) e = val (value x) e /\
                      terms1 r e = terms1 x e /\ terms2 r e = terms2 x e
        | Raise ex => osize s <> osize (vshape (value x)) /\ ex = ValueError
        end)
    /\ (forall n, vshape (value x) = Sh1 n -> flatten x = Ok x)
    /\ (vshape (value x) = Sh0 ->
        exists r, flatten x = Ok r /\ wf r /\ vshape (value r) = Sh1 1 /\
                  val (value r) 0 = val (value x) 0 /\
                  terms1 r 0 = terms1 x 0 /\ terms2 r 0 = terms2 x 0).
Proof.
  intros K SK x W. split; [|split].
  - intros s. destruct (Nat.eq_dec (osize s) (osize (vshape (value x)))) as [E|N].
    + rewrite (reshape_ok s W E). split; [exact E|].
      split; [now apply reshaped_wf|]. repeat split.
    + rewrite (reshape_raises x s N). now split.
  - intros n E. exact (flatten_1d W E).
  - intros E. destruct (flatten_0d W E) as (r & Hr & Wr & Sr & V & _ & _ & T1 & T2).
    exists r. repeat (split; [assumption|]). assumption.
Qed.

Lemma reshape_keeps_elements_witness :
  reshape int_pair Sh0 = Raise ValueError /\
  flatten int_pair = Ok int_pair /\
  exists r, reshape int_scalar (Sh1 1) = Ok r /\ terms2 r 0 = terms2 int_scalar 0.
Proof.
  split; [|split].
  - destruct (@reshape_keeps_elements Z Scalar_Z int_pair ltac:(solve_wf)) as (H & _ & _).
    specialize (H Sh0).
    destruct (reshape int_pair Sh0) as [r|ex]; [destruct H as [H _]; discriminate|].
    destruct H as [_ ->]. reflexivity.
  - destruct (@reshape_keeps_elements Z Scalar_Z int_pair ltac:(solve_wf)) as (_ & H & _).
    exact (H 2 eq_refl).
  - destruct (@reshape_keeps_elements Z Scalar_Z int_scalar ltac:(solve_wf)) as (H & _ & _).
    specialize (H (Sh1 1)).
    destruct (reshape int_scalar (Sh1 1)) as [r|ex]; [|destruct H as [H _]; now elim H].
    exists r. split; [reflexivity|]. destruct H as (_ & _ & _ & _ & _ & R).
    apply (R 0).
Defined.

(** X18.  Iterating over a well-formed array of shape [(n,)] yields exactly
    [x[0], ..., x[n-1]], each of them a well-formed scalar element, and none
    of the steps raises. *)
Theorem iteration_yields_elements :
  forall (K : Type) (SK : Scalar K) (x : spAD2 (K:=K)) (n : nat),
    wf x -> vshape (value x) = Sh1 n ->
    exists items,
      __iter__ x = Yields (map Ok items) /\ length items = n /\
      forall i, i < n ->
        __getitem__ x (KInt (Z.of_nat i)) = Ok (nth i items x) /\
        wf (nth i items x) /\ vshape (value (nth i items x)) = Sh0.
Proof.
  intros K SK x n W E.
  exists (map (fun i => SpAD2 (Varr Sh0 [val (value x) i])
                   (arr1 (row (coef1 x) i)) (arr1 (row (index x) i))
                   (arr1 (row (coef2 x) i)) (arr1 (row (index_row x) i))
                   (arr1 (row (index_col x) i))) (seq 0 n)).
  split; [|split].
  - rewrite (iter_reading W E), map_map. f_equal. apply map_ext_in.
    intros i Hi. apply in_seq in Hi. apply (getitem_int W E). lia.
  - now rewrite length_map, length_seq.
  - intros i Hi. rewrite (nth_map_in _ _ 0) by (rewrite length_seq; lia).
    rewrite seq_nth by lia. cbn [plus].
    pose proof (getitem_int W E Hi) as G. split; [exact G|].
    destruct (@getitem_reading _ _ x (KInt (Z.of_nat i)) Sh0 [i] W) as (r & Hr & Wr & Sr & _).
    { rewrite E. cbn [key_select].
      destruct (Z.leb_spec (- Z.of_nat n) (Z.of_nat i)); [|lia].
      destruct (Z.ltb_spec (Z.of_nat i) (Z.of_nat n)); [|lia].
      cbn [andb]. rewrite Z.mod_small by lia. now rewrite Nat2Z.id. }
    rewrite G in Hr. inversion Hr; subst r. split; [exact Wr|reflexivity].
Qed.

Lemma iteration_yields_elements_witness :
  exists items,
    __iter__ int_pair = Yields (map Ok items) /\ length items = 2 /\
    __getitem__ int_pair (KInt 1%Z) = Ok (nth 1 items int_pair).
Proof.
  destruct (@iteration_yields_elements Z Scalar_Z int_pair 2) as (items & Hi & L & R);
    [solve_wf | reflexivity |].
  exists items. split; [exact Hi|]. split; [exact L|].
  exact (proj1 (R 1 ltac:(lia))).
Defined.

(** X19.  [spAD2.concatenate] of a non-empty sequence of well-formed arrays
    of shapes [(n_k,)] returns a well-formed array of shape [(n_1+...+n_m,)]
    whose widths are the largest widths of the arrays; the element [e] of
    the [k]-th array sits at the position [n_1+...+n_(k-1)+e] with its value
    and its entries, followed by zero placeholders up to the common width, so
    in exact arithmetic its gradient and Hessian are unchanged. *)
Theorem concatenate_places_elements :
  forall (K : Type) (SK : Scalar K) (xs : list (spAD2 (K:=K))) (ax : axis),
    xs <> [] -> Forall wf xs ->
    Forall (fun x => is_1d (vshape (value x)) = true) xs ->
    exists r,
      concatenate (map OAD xs) ax = Ok r /\ wf r /\
      vshape (value r) = Sh1 (list_sum (map (fun x => osize (vshape (value x))) xs)) /\
      In (size_ad1 r) (map size_ad1 xs) /\ In (size_ad2 r) (map size_ad2 xs) /\
      (forall x, In x xs -> size_ad1 x <= size_ad1 r /\ size_ad2 x <= size_ad2 r) /\
      forall k x e, nth_error xs k = Some x -> e < osize (vshape (value x)) ->
        let p := list_sum (map (fun y => osize (vshape (value y))) (firstn k xs)) + e in
        val (value r) p = val (value x) e /\
        terms1 r p = terms1 x e ++ repeat (s0, 0%Z) (size_ad1 r - size_ad1 x) /\
        terms2 r p = terms2 x e ++ repeat (s0, 0%Z, 0%Z) (size_ad2 r - size_ad2 x) /\
        (exact_arithmetic (K:=K) ->
         (forall j, gradient_at r p j = gradient_at x e j) /\
         (forall i j, hessian_of r p i j = hessian_of x e i j)).
Proof.
  intros K SK xs ax NE FW F1.
  destruct (concatenate_reading ax NE FW F1) as (r & Hr & Wr & Sr & I1 & I2 & B & R).
  exists r. repeat (split; [assumption|]).
  intros k x e Hk He p. destruct (R k x e Hk He) as (Rv & R1 & R2).
  fold p in Rv, R1, R2. repeat (split; [assumption|]).
  intros EX. unfold gradient_at, hessian_of. rewrite R1, R2. split; intros.
  - now apply sum_at_placeholders.
  - now apply sum_at2_placeholders.
Qed.

Lemma concatenate_places_elements_witness :
  exists r,
    concatenate [OAD int_pair; OAD int_pair] AxFirst = Ok r /\
    vshape (value r) = Sh1 4 /\ val (value r) 3 = 3%Z /\
    hessian_of r 3 1 1 = 5%Z.
Proof.
  destruct (@concatenate_places_elements Z Scalar_Z [int_pair; int_pair] AxFirst)
    as (r & Hr & _ & Sr & _ & _ & _ & R).
  - discriminate.
  - repeat constructor; solve_wf.
  - repeat constructor.
  - exists r. split; [exact Hr|]. split; [exact Sr|].
    destruct (R 1 int_pair 1 eq_refl ltac:(simpl; lia)) as (Rv & _ & _ & D).
    split; [exact Rv|]. destruct (D Z_exact) as [_ H]. exact (H 1%Z 1%Z).
Defined.

(** X20.  [spAD2.concatenate] raises [ValueError] on an empty sequence (the
    [max] of no width) and whenever one of the arrays is 0-d. *)
Theorem concatenate_refuses_scalars :
  forall (K : Type) (SK : Scalar K) (xs : list (spAD2 (K:=K))) (ax : axis),
    xs = [] \/ Exists (fun x => vshape (value x) = Sh0) xs ->
    concatenate (map OAD xs) ax = Raise ValueError.
Proof. intros K SK xs ax H. now apply concatenate_raises. Qed.

Lemma concatenate_refuses_scalars_witness :
  concatenate [OAD int_pair; OAD int_scalar] AxLast = Raise ValueError.
Proof.
  apply (@concatenate_refuses_scalars Z Scalar_Z [int_pair; int_scalar] AxLast).
  right. apply Exists_cons_tl, Exists_cons_hd. reflexivity.
Defined.

(** X21.  [identity] over values and indices of one shape creates independent
    variables: element [e] has the value given, the single first-order entry
    1 at its index and no second-order entry, so in exact arithmetic its
    gradient is 1 at its own index and 0 elsewhere and its Hessian is zero.
    ([Sparse.identity] is modelled from the spec.) *)
Theorem identity_unit_gradient :
  forall (K : Type) (SK : Scalar K) (values : varr K) (indices : varr Z),
    wf_v values -> wf_v indices -> vshape indices = vshape values ->
    exists x,
      identity values indices = Ok x /\ wf x /\ value x = values /\
      forall e, e < osize (vshape values) ->
        terms1 x e = [(s1, nth e (vdata indices) 0%Z)] /\
        terms2 x e = [] /\
        (forall i j, hessian_of x e i j = s0) /\
        (exact_arithmetic (K:=K) ->
         forall j, gradient_at x e j
                   = if (nth e (vdata indices) 0 =? j)%Z then s1 else s0).
Proof.
  intros K SK values indices Wv Wi E.
  pose proof (identity_ok values indices E) as H.
  destruct (identity_wf Wv Wi H) as (W & _ & _).
  eexists. split; [exact H|]. split; [exact W|]. split; [reflexivity|].
  intros e He.
  assert (T1 : terms1 (SpAD2 values
        (Tarr (vshape values) 1 (map (fun _ => [s1]) (vdata values)))
        (Tarr (vshape indices) 1 (map (fun i => [i]) (vdata indices)))
        (np_full0 K (vshape values)) (np_full0 Z (vshape values))
        (np_full0 Z (vshape values))) e = [(s1, nth e (vdata indices) 0%Z)]).
  { unfold terms1, row. cbn [coef1 index trows].
    unfold wf_v in Wv, Wi. rewrite E in Wi.
    rewrite (nth_map_in _ _ s0) by lia. rewrite (nth_map_in _ _ 0%Z) by lia.
    reflexivity. }
  assert (T2 : terms2 (SpAD2 values
        (Tarr (vshape values) 1 (map (fun _ => [s1]) (vdata values)))
        (Tarr (vshape indices) 1 (map (fun i => [i]) (vdata indices)))
        (np_full0 K (vshape values)) (np_full0 Z (vshape values))
        (np_full0 Z (vshape values))) e = []).
  { unfold terms2, row, np_full0. cbn [coef2 index_row index_col trows].
    now rewrite nth_repeat. }
  split; [exact T1|]. split; [exact T2|]. split.
  - intros i j. unfold hessian_of. now rewrite T2.
  - intros EX j. unfold gradient_at. rewrite T1. unfold sum_at. cbn [fold_left fst snd].
    destruct (nth e (vdata indices) 0 =? j)%Z; [apply (ex_add_0_l EX)|reflexivity].
Qed.

Lemma identity_unit_gradient_witness :
  exists x,
    identity (Varr (Sh1 2) [2%Z; 3%Z]) (Varr (Sh1 2) [0%Z; 1%Z]) = Ok x /\
    gradient_at x 1 1 = 1%Z /\ gradient_at x 1 0 = 0%Z /\ hessian_of x 1 0 1 = 0%Z.
Proof.
  destruct (@identity_unit_gradient Z Scalar_Z (Varr (Sh1 2) [2%Z; 3%Z])
              (Varr (Sh1 2) [0%Z; 1%Z]) eq_refl eq_refl eq_refl) as (x & Hx & _ & _ & R).
  exists x. split; [exact Hx|].
  destruct (R 1 ltac:(simpl; lia)) as (_ & _ & H & G).
  split; [rewrite (G Z_exact); reflexivity|].
  split; [rewrite (G Z_exact); reflexivity|]. apply H.
Defined.

(** ** Reflected subtraction and squeezing *)

Section Reflected.
Context {K : Type} {SK : Scalar K}.

Lemma terms1_opposed (a : spAD2 (K:=K)) v e :
  wf a -> e < osize (vshape (value a)) ->
  terms1 (SpAD2 v (tmap sopp (coef1 a)) (index a)
            (tmap sopp (coef2 a)) (index_row a) (index_col a)) e
  = map (fun t => (sopp (fst t), snd t)) (terms1 a e).
Proof.
  intros W He. pose proof (wf_lengths W) as (LV & L1 & Li & L2 & Lr & Lc).
  unfold terms1. cbn [coef1 index]. rewrite row_tmap by lia.
  now rewrite combine_map_l.
Qed.

Lemma terms2_opposed (a : spAD2 (K:=K)) v e :
  wf a -> e < osize (vshape (value a)) ->
  terms2 (SpAD2 v (tmap sopp (coef1 a)) (index a)
            (tmap sopp (coef2 a)) (index_row a) (index_col a)) e
  = map (fun t => (sopp (fst (fst t)), snd (fst t), snd t)) (terms2 a e).
Proof.
  intros W He. pose proof (wf_lengths W) as (LV & L1 & Li & L2 & Lr & Lc).
  unfold terms2. cbn [coef2 index_row index_col]. rewrite row_tmap by lia.
  rewrite combine_map_l, combine_map_l. apply map_ext. now intros [[c r] l].
Qed.

Lemma rsub_scalar_reading (a : spAD2 (K:=K)) (k : K) :
  wf a ->
  __rsub__ a (OScalar k)
  = Ok (SpAD2 (vmap (fun v => sopp (ssub v k)) (value a)) (tmap sopp (coef1 a)) (index a)
          (tmap sopp (coef2 a)) (index_row a) (index_col a)).
Proof.
  intros W. unfold __rsub__.
  change (__sub__ a (OScalar k)) with (__add__ a (OScalar (sopp k))).
  rewrite (add_scalar_reading _ W). cbn [rbind].
  rewrite neg_reading.
  - cbn [value coef1 index coef2 index_row index_col]. unfold vmap. cbn [vshape vdata].
    now rewrite map_map.
  - destruct W. constructor; cbn [value coef1 index coef2 index_row index_col]; auto.
    unfold wf_v, vmap in *. cbn [vdata vshape]. now rewrite length_map.
Qed.

Lemma reshape_same (x : spAD2 (K:=K)) :
  wf x -> reshape x (vshape (value x)) = Ok x.
Proof.
  intros W. rewrite reshape_ok by auto.
  destruct W as [Wv W1 Wi W2 Wr Wc S1 Si S2 Sr Sc X1 Xr Xc].
  destruct x as [[vs vd] [s1 w1 r1] [si wi ri] [s2 w2 r2] [sr wr rr] [sc wc rc]].
  cbn in *. subst. reflexivity.
Qed.

Lemma squeeze_one (x : spAD2 (K:=K)) :
  wf x -> vshape (value x) = Sh1 1 ->
  exists r,
    squeeze x = Ok r /\ wf r /\ vshape (value r) = Sh0 /\
    size_ad1 r = size_ad1 x /\ size_ad2 r = size_ad2 x /\
    val (value r) 0 = val (value x) 0 /\
    terms1 r 0 = terms1 x 0 /\ terms2 r 0 = terms2 x 0 /\
    flatten r = Ok x.
Proof.
  intros W E. unfold squeeze. rewrite E. cbn [np_squeeze_shape].
  rewrite reshape_ok by (try assumption; now rewrite E).
  eexists. split; [reflexivity|].
  assert (Wr : wf (SpAD2 (Varr Sh0 (vdata (value x)))
          (Tarr Sh0 (twidth (coef1 x)) (trows (coef1 x)))
          (Tarr Sh0 (twidth (coef1 x)) (trows (index x)))
          (Tarr Sh0 (twidth (coef2 x)) (trows (coef2 x)))
          (Tarr Sh0 (twidth (coef2 x)) (trows (index_row x)))
          (Tarr Sh0 (twidth (coef2 x)) (trows (index_col x))))).
  { apply reshaped_wf; [assumption|now rewrite E]. }
  split; [exact Wr|]. repeat (split; [reflexivity|]).
  unfold flatten. cbn [value vshape osize].
  rewrite reshape_ok by (try assumption; reflexivity).
  cbn [value coef1 index coef2 index_row index_col vdata trows twidth].
  destruct W as [Wv W1 Wi W2 Wr' Wc S1 Si S2 Sr Sc X1 Xr Xc].
  destruct x as [[vs vd] [s1 w1 r1] [si wi ri] [s2 w2 r2] [sr wr rr] [sc wc rc]].
  cbn in *. subst. reflexivity.
Qed.

Lemma squeeze_other (x : spAD2 (K:=K)) :
  wf x -> vshape (value x) <> Sh1 1 -> squeeze x = Ok x.
Proof.
  intros W N. unfold squeeze.
  replace (np_squeeze_shape (vshape (value x))) with (vshape (value x)).
  - now apply reshape_same.
  - destruct (vshape (value x)) as [|[|[|n]]]; try reflexivity. congruence.
Qed.

End Reflected.

(** X22.  [k - x] for a Python scalar [k] is evaluated as [-(x - k)]: the
    result keeps every index of [x] and carries the opposite of every
    coefficient, so in exact arithmetic its value is [k - x] and its gradient
    and Hessian are the opposites of those of [x]. *)
Theorem rsub_negates_derivatives :
  forall (K : Type) (SK : Scalar K) (x : spAD2 (K:=K)) (k : K),
    wf x ->
    exists r,
      __rsub__ x (OScalar k) = Ok r /\ wf r /\
      vshape (value r) = vshape (value x) /\
      index r = index x /\ index_row r = index_row x /\ index_col r = index_col x /\
      forall e, e < osize (vshape (value x)) ->
        val (value r) e = sopp (ssub (val (value x) e) k) /\
        terms1 r e = map (fun t => (sopp (fst t), snd t)) (terms1 x e) /\
        terms2 r e = map (fun t => (sopp (fst (fst t)), snd (fst t), snd t)) (terms2 x e) /\
        (exact_arithmetic (K:=K) ->
         val (value r) e = ssub k (val (value x) e) /\
         (forall j, gradient_at r e j = sopp (gradient_at x e j)) /\
         (forall i j, hessian_of r e i j = sopp (hessian_of x e i j))).
Proof.
  intros K SK x k W.
  eexists. split; [apply (rsub_scalar_reading k W)|].
  pose proof (wf_lengths W) as (LV & _).
  assert (Wr : wf (SpAD2 (vmap (fun v => sopp (ssub v k)) (value x)) (tmap sopp (coef1 x))
                     (index x) (tmap sopp (coef2 x)) (index_row x) (index_col x))).
  { destruct (neg_wf W) as [Wv W1 Wi W2 Wr Wc S1 Si S2 Sr Sc X1 Xr Xc].
    constructor; cbn [value coef1 index coef2 index_row index_col] in *; auto.
    unfold wf_v, vmap in *. cbn [vdata vshape] in *. now rewrite length_map in *. }
  split; [exact Wr|]. repeat (split; [reflexivity|]).
  intros e He.
  assert (V : val (value (SpAD2 (vmap (fun v => sopp (ssub v k)) (value x))
                 (tmap sopp (coef1 x)) (index x) (tmap sopp (coef2 x))
                 (index_row x) (index_col x))) e = sopp (ssub (val (value x) e) k)).
  { unfold val. cbn [value vmap vdata]. now rewrite (nth_map_in _ _ s0) by lia. }
  split; [exact V|]. split; [now apply terms1_opposed|]. split; [now apply terms2_opposed|].
  intros EX. split; [|split].
  - rewrite V. unfold ssub. rewrite (ex_opp_add EX), (ex_opp_opp EX). apply (ex_add_comm EX).
  - intros j. unfold gradient_at. rewrite terms1_opposed by assumption.
    now apply sum_at_opposed.
  - intros i j. unfold hessian_of. rewrite terms2_opposed by assumption.
    now apply sum_at2_opposed.
Qed.

Lemma rsub_negates_derivatives_witness :
  exists r,
    __rsub__ int_scalar (OScalar 10%Z) = Ok r /\
    val (value r) 0 = 3%Z /\ gradient_at r 0 1 = (-3)%Z /\ hessian_of r 0 0 1 = (-1)%Z.
Proof.
  destruct (@rsub_negates_derivatives Z Scalar_Z int_scalar 10%Z) as (r & Hr & _ & _ & _ & _ & _ & R);
    [solve_wf|].
  exists r. split; [exact Hr|].
  destruct (R 0 ltac:(simpl; lia)) as (_ & _ & _ & D).
  destruct (D Z_exact) as (V & G & H).
  split; [rewrite V; reflexivity|]. split; [rewrite G; reflexivity|rewrite H; reflexivity].
Defined.

(** X23.  [x.squeeze()] never raises on a well-formed array.  An array of
    shape [(1,)] becomes the 0-d array of its only element, with the same
    value, widths and entries, and flattening that result gives [x] back;
    an array of any other shape is returned unchanged. *)
Theorem squeeze_drops_unit_axis :
  forall (K : Type) (SK : Scalar K) (x : spAD2 (K:=K)),
    wf x ->
    (vshape (value x) = Sh1 1 ->
     exists r,
       squeeze x = Ok r /\ wf r /\ vshape (value r) = Sh0 /\
       size_ad1 r = size_ad1 x /\ size_ad2 r = size_ad2 x /\
       val (value r) 0 = val (value x) 0 /\
       terms1 r 0 = terms1 x 0 /\ terms2 r 0 = terms2 x 0 /\
       flatten r = Ok x)
    /\ (vshape (value x) <> Sh1 1 -> squeeze x = Ok x).
Proof.
  intros K SK x W. split; [now apply squeeze_one | now apply squeeze_other].
Qed.

Lemma squeeze_drops_unit_axis_witness :
  squeeze int_single = Ok int_scalar /\ flatten int_scalar = Ok int_single /\
  squeeze int_pair = Ok int_pair.
Proof.
  destruct (@squeeze_drops_unit_axis Z Scalar_Z int_single ltac:(solve_wf)) as [H _].
  destruct (H eq_refl) as (r & Hr & _ & _ & _ & _ & _ & _ & _ & F).
  assert (E : r = int_scalar) by (vm_compute in Hr; injection Hr as <-; reflexivity).
  subst r. split; [exact Hr|]. split; [exact F|].
  apply (@squeeze_drops_unit_axis Z Scalar_Z int_pair); [solve_wf|discriminate].
Defined.

(** ** Dense form of the independent variables *)

Lemma in_concat_singletons {T} (l : list T) x :
  In x (concat (map (fun i => [i]) l)) -> In x l.
Proof.
  induction l as [|a l IH]; simpl; [tauto|]. intros [H|H]; [now left|right; auto].
Qed.

Lemma concat_repeat_nil {T} n : concat (repeat (@nil T) n) = [].
Proof. induction n; simpl; auto. Qed.

Section IdentityDense.
Context {K : Type} {SK : Scalar K}.

Lemma identity_terms (values : varr K) (indices : varr Z) e :
  wf_v values -> wf_v indices -> vshape indices = vshape values ->
  e < osize (vshape values) ->
  let x := SpAD2 values
        (Tarr (vshape values) 1 (map (fun _ => [s1]) (vdata values)))
        (Tarr (vshape indices) 1 (map (fun i => [i]) (vdata indices)))
        (np_full0 K (vshape values)) (np_full0 Z (vshape values))
        (np_full0 Z (vshape values)) in
  terms1 x e = [(s1, nth e (vdata indices) 0%Z)] /\ terms2 x e = [].
Proof.
  intros Wv Wi E He x. unfold wf_v in Wv, Wi. rewrite E in Wi. split.
  - unfold terms1, row, x. cbn [coef1 index trows].
    rewrite (nth_map_in _ _ s0) by lia. rewrite (nth_map_in _ _ 0%Z) by lia.
    reflexivity.
  - unfold terms2, row, x, np_full0. cbn [coef2 index_row index_col trows].
    now rewrite nth_repeat.
Qed.

End IdentityDense.

(** X24.  The dense form of independent variables: for values and indices of
    one shape with every index in [[0, d)], [to_dense(d)] of
    [identity(values, indices)] returns the values, a gradient row per
    element that in exact arithmetic is 1 at the element's index and 0
    elsewhere, and a zero Hessian.  ([Sparse.identity] is modelled from the
    spec.) *)
Theorem identity_to_dense_is_unit :
  forall (K : Type) (SK : Scalar K) (values : varr K) (indices : varr Z) (d : Z),
    exact_arithmetic (K:=K) ->
    wf_v values -> wf_v indices -> vshape indices = vshape values ->
    (0 <= d)%Z -> (forall i, In i (vdata indices) -> (0 <= i < d)%Z) ->
    exists x D,
      identity values indices = Ok x /\ to_dense x (Some d) = Ok D /\
      d2_value D = values /\ d2_size D = Z.to_nat d /\
      forall e, e < osize (vshape values) ->
        (forall j, j < Z.to_nat d ->
           nth j (row (d2_coef1 D) e) s0
           = if (nth e (vdata indices) 0 =? Z.of_nat j)%Z then s1 else s0) /\
        (forall r c, r < Z.to_nat d -> c < Z.to_nat d -> hessian_at D e r c = s0).
Proof.
  intros K SK values indices d EX Wv Wi E D0 Hd.
  pose proof (identity_ok values indices E) as H.
  destruct (identity_wf Wv Wi H) as (W & _ & _).
  destruct (@to_dense_reading _ _ _ d W D0) as (D & HD & DV & _ & _ & DS & R).
  { unfold all_indices, np_full0. cbn [index index_row index_col trows].
    rewrite !concat_repeat_nil, !app_nil_r. intros i Hi. apply Hd.
    now apply in_concat_singletons. }
  eexists. exists D. split; [exact H|]. split; [exact HD|].
  split; [exact DV|]. split; [exact DS|].
  intros e He. destruct (R e He) as [R1 R2].
  destruct (@identity_terms K SK values indices e Wv Wi E He) as [T1 T2]. split.
  - intros j Hj. rewrite (R1 j Hj), T1. unfold sum_at. cbn [fold_left fst snd].
    destruct (nth e (vdata indices) 0 =? Z.of_nat j)%Z; [apply (ex_add_0_l EX)|reflexivity].
  - intros r c Hr Hc. now rewrite (R2 r c Hr Hc), T2.
Qed.

Lemma identity_to_dense_is_unit_witness :
  exists x D,
    identity (Varr (Sh1 2) [2%Z; 3%Z]) (Varr (Sh1 2) [0%Z; 1%Z]) = Ok x /\
    to_dense x (Some 2%Z) = Ok D /\
    nth 1 (row (d2_coef1 D) 1) 0%Z = 1%Z /\ nth 0 (row (d2_coef1 D) 1) 0%Z = 0%Z /\
    hessian_at D 1 0 1 = 0%Z.
Proof.
  destruct (@identity_to_dense_is_unit Z Scalar_Z (Varr (Sh1 2) [2%Z; 3%Z])
              (Varr (Sh1 2) [0%Z; 1%Z]) 2%Z Z_exact eq_refl eq_refl eq_refl)
    as (x & D & Hx & HD & _ & _ & R).
  - lia.
  - simpl. intros i [<-|[<-|[]]]; lia.
  - exists x, D. split; [exact Hx|]. split; [exact HD|].
    destruct (R 1 ltac:(simpl; lia)) as [G H].
    split; [exact (G 1 ltac:(simpl; lia))|]. split; [exact (G 0 ltac:(simpl; lia))|].
    exact (H 0 1 ltac:(simpl; lia) ltac:(simpl; lia)).
Defined.
